(** * i18n-cli: extraction, key generation, deduplication, template
      generation and replacement

    A shallow embedding of the TypeScript sources

      - [utils/validator.ts]  ([Validator])
      - [utils/extractor.ts]  ([TranslationExtractor])
      - [utils/generator.ts]  ([TranslationGenerator])
      - [utils/replacer.ts]   ([TranslationReplacer])
      - [utils/logger.ts]     ([Logger])
      - [utils/config.ts]     ([ConfigManager])

    JavaScript strings are modelled as lists of characters ([list ascii]),
    one [ascii] per UTF-16 code unit; the development covers ASCII text
    (code units below 128).  On larger code units the case mappings are the
    identity and the classes [\w] and [\s] are false.  The regular
    expressions of the sources are written as terms of [Regex.regexp] and run
    by a backtracking matcher that follows the ECMAScript matching rules
    (leftmost match, greedy and lazy quantifiers, capture groups, negative
    look-ahead, word boundaries). *)

From Stdlib Require Import Ascii String List Arith Bool Lia ZArith Sorted
  Permutation.
From stdpp Require Import base option list gmap strings.
Import ListNotations.

Set Default Proof Using "Type".
Local Open Scope list_scope.

(** ** Strings *)

Module JS.

(** A string literal of the source, as a list of code units. *)
Definition str (s : string) : list ascii := list_ascii_of_string s.
Arguments str _%_string.

Definition code (c : ascii) : nat := nat_of_ascii c.

(** The double quote character. *)
Definition dquote : ascii := "034"%char.

Definition inRange (lo hi : nat) (c : ascii) : bool :=
  (lo <=? code c) && (code c <=? hi).

Definition isDigit (c : ascii) : bool := inRange 48 57 c.
Definition isUpper (c : ascii) : bool := inRange 65 90 c.
Definition isLower (c : ascii) : bool := inRange 97 122 c.

(** [\w]: [A-Za-z0-9_]. *)
Definition isWord (c : ascii) : bool :=
  isUpper c || isLower c || isDigit c || (code c =? 95).

(** [\s] restricted to ASCII: tab, line feed, vertical tab, form feed,
    carriage return, space. *)
Definition isSpace (c : ascii) : bool :=
  inRange 9 13 c || (code c =? 32).

(** Line terminators (ASCII part): line feed and carriage return. *)
Definition isLineTerminator (c : ascii) : bool :=
  (code c =? 10) || (code c =? 13).

Definition eqc (a b : ascii) : bool := Ascii.eqb a b.

Definition upperChar (c : ascii) : ascii :=
  if isLower c then ascii_of_nat (code c - 32) else c.
Definition lowerChar (c : ascii) : ascii :=
  if isUpper c then ascii_of_nat (code c + 32) else c.

(** [String.prototype.toUpperCase] / [toLowerCase]. *)
Definition toUpperCase (s : list ascii) : list ascii := map upperChar s.
Definition toLowerCase (s : list ascii) : list ascii := map lowerChar s.

(** Equality of strings as a boolean ([===] on strings). *)
Fixpoint eqs (a b : list ascii) : bool :=
  match a, b with
  | [], [] => true
  | x :: a', y :: b' => eqc x y && eqs a' b'
  | _, _ => false
  end.

(** [s.startsWith(p)], returning the remainder after the prefix. *)
Fixpoint stripPrefix (p s : list ascii) : option (list ascii) :=
  match p, s with
  | [], _ => Some s
  | x :: p', y :: s' => if eqc x y then stripPrefix p' s' else None
  | _ :: _, [] => None
  end.

(** [s.includes(p)]. *)
Fixpoint includes (s p : list ascii) : bool :=
  match stripPrefix p s with
  | Some _ => true
  | None => match s with
            | [] => false
            | _ :: s' => includes s' p
            end
  end.

(** [s.split(sep)] for a one-character separator: always at least one
    part, empty parts are kept. *)
Fixpoint split (sep : ascii) (s : list ascii) : list (list ascii) :=
  match s with
  | [] => [[]]
  | c :: s' =>
      if eqc c sep then [] :: split sep s'
      else match split sep s' with
           | [] => [[c]]
           | p :: ps => (c :: p) :: ps
           end
  end.

(** [parts.join(sep)]. *)
Fixpoint join (sep : list ascii) (parts : list (list ascii)) : list ascii :=
  match parts with
  | [] => []
  | [p] => p
  | p :: ps => p ++ sep ++ join sep ps
  end.

(** [s.replace(c, by)] with a one-character string pattern: only the first
    occurrence is replaced. *)
Fixpoint replaceFirstChar (c : ascii) (by_ : list ascii) (s : list ascii)
  : list ascii :=
  match s with
  | [] => []
  | x :: s' => if eqc x c then by_ ++ s' else x :: replaceFirstChar c by_ s'
  end.

(** [String.prototype.trim]. *)
Fixpoint trimStart (s : list ascii) : list ascii :=
  match s with
  | c :: s' => if isSpace c then trimStart s' else s
  | [] => []
  end.
Definition trimEnd (s : list ascii) : list ascii := rev (trimStart (rev s)).
Definition trim (s : list ascii) : list ascii := trimEnd (trimStart s).

(** Decimal rendering of a number, as in a template literal [`${n}`]. *)
Definition digitChar (d : nat) : ascii := ascii_of_nat (48 + d).
Fixpoint decimalAux (fuel n : nat) (acc : list ascii) : list ascii :=
  match fuel with
  | 0 => acc
  | S fuel' =>
      let acc' := digitChar (n mod 10) :: acc in
      if n <? 10 then acc' else decimalAux fuel' (n / 10) acc'
  end.
Definition decimal (n : nat) : list ascii := decimalAux (S n) n [].

End JS.

(** ** Regular expressions

    The regular expressions of the sources, as syntax trees, and a
    backtracking matcher written in continuation-passing style after the
    ECMAScript specification (22.2.2, "Pattern Semantics"): a matcher takes
    the current state and a continuation, and either the continuation
    succeeds on some end state or the matcher backtracks. *)

Module Regex.
Import JS.

Inductive regexp : Type :=
| Eps                                   (* the empty pattern *)
| Chr (c : ascii)                       (* a literal character *)
| ChrI (c : ascii)                      (* a literal character under /i *)
| Cls (p : ascii -> bool)               (* a character class *)
| Seq (r1 r2 : regexp)                   (* r1 r2 *)
| Alt (r1 r2 : regexp)                   (* r1|r2 *)
| Rep (greedy : bool) (min : nat) (max : option nat) (r : regexp)
                                        (* r{min,max}, lazy when not greedy *)
| Grp (n : nat) (r : regexp)             (* the n-th capture group (r) *)
| NLook (r : regexp)                     (* (?!r) *)
| WordB                                 (* \b *)
| EOL.                                  (* $ under /m *)

(** Derived forms. *)
Definition Star (r : regexp) : regexp := Rep true 0 None r.          (* r*  *)
Definition Plus (r : regexp) : regexp := Rep true 1 None r.          (* r+  *)
Definition Opt (r : regexp) : regexp := Rep true 0 (Some 1) r.       (* r?  *)
Definition LazyStar (r : regexp) : regexp := Rep false 0 None r.     (* r*? *)
Definition AtLeast (n : nat) (r : regexp) : regexp := Rep true n None r.
                                                                   (* r{n,} *)
Fixpoint Lit (s : list ascii) : regexp :=
  match s with
  | [] => Eps
  | [c] => Chr c
  | c :: s' => Seq (Chr c) (Lit s')
  end.
Fixpoint LitI (s : list ascii) : regexp :=
  match s with
  | [] => Eps
  | [c] => ChrI c
  | c :: s' => Seq (ChrI c) (LitI s')
  end.
Fixpoint Seqs (rs : list regexp) : regexp :=
  match rs with
  | [] => Eps
  | [r] => r
  | r :: rs' => Seq r (Seqs rs')
  end.

(** Character classes used by the sources. *)
Definition oneOf (cs : list ascii) (c : ascii) : bool := existsb (eqc c) cs.
Definition noneOf (cs : list ascii) (c : ascii) : bool := negb (oneOf cs c).
Definition quotes : list ascii := ["'"%char; dquote; "`"%char].
(** The class of the three quote characters (single, double, backtick) and
    its complement. *)
Definition quote : ascii -> bool := oneOf quotes.
Definition notQuote : ascii -> bool := noneOf quotes.
(** The dot (any character but a line terminator) and [[\s\S]]. *)
Definition dot (c : ascii) : bool := negb (isLineTerminator c).
Definition anyChar (c : ascii) : bool := true.

(** The state of a match: the character before the current position (for
    [\b]), the input from the current position on, the current index and
    the captures recorded so far (most recent first). *)
Record mstate : Type := MState {
  prev : option ascii;
  rest : list ascii;
  pos : nat;
  caps : list (nat * list ascii)
}.

Definition advance (x : mstate) (c : ascii) (t : list ascii) : mstate :=
  MState (Some c) t (S (pos x)) (caps x).

Definition setCap (n : nat) (s : list ascii) (x : mstate) : mstate :=
  MState (prev x) (rest x) (pos x) ((n, s) :: caps x).

Fixpoint groupsOf (r : regexp) : list nat :=
  match r with
  | Seq a b | Alt a b => groupsOf a ++ groupsOf b
  | Rep _ _ _ a | NLook a => groupsOf a
  | Grp n a => n :: groupsOf a
  | _ => []
  end.

(** Captures of the groups inside a quantified pattern are reset at the
    start of each iteration. *)
Definition clearCaps (gs : list nat) (x : mstate) : mstate :=
  MState (prev x) (rest x) (pos x)
         (List.filter (fun e => negb (existsb (Nat.eqb (fst e)) gs)) (caps x)).

Definition isWordAt (o : option ascii) : bool :=
  match o with Some c => isWord c | None => false end.

Definition orElse {A} (a : option A) (b : option A) : option A :=
  match a with Some z => Some z | None => b end.

(** The quantifier, after RepeatMatcher: [mr] matches one iteration, [gs]
    are the capture groups inside it, [mn] and [mx] the numbers of
    iterations still required and still allowed.  An iteration that matches
    the empty string once the minimum is reached is rejected, so the number
    of iterations is bounded by the minimum plus the length of the remaining
    input, which is the [fuel] of the loop. *)
Fixpoint repeat (mr : mstate -> (mstate -> option mstate) -> option mstate)
  (gs : list nat) (greedy : bool) (k : mstate -> option mstate)
  (fuel mn : nat) (mx : option nat) (x : mstate) {struct fuel}
  : option mstate :=
  match fuel with
  | 0 => None
  | S fuel' =>
      match mx with
      | Some 0 => k x
      | _ =>
          let d := fun y =>
            if (mn =? 0) && (pos y =? pos x) then None
            else repeat mr gs greedy k fuel' (Nat.pred mn)
                   (option_map Nat.pred mx) y in
          let xr := clearCaps gs x in
          if 0 <? mn then mr xr d
          else if greedy then orElse (mr xr d) (k x)
               else orElse (k x) (mr xr d)
      end
  end.

(** [m r x k]: match [r] at state [x], then continue with [k]. *)
Fixpoint m (r : regexp) (x : mstate) (k : mstate -> option mstate)
  {struct r} : option mstate :=
  match r with
  | Eps => k x
  | Chr c =>
      match rest x with
      | c' :: t => if eqc c c' then k (advance x c' t) else None
      | [] => None
      end
  | ChrI c =>
      match rest x with
      | c' :: t =>
          if eqc (upperChar c) (upperChar c') then k (advance x c' t) else None
      | [] => None
      end
  | Cls p =>
      match rest x with
      | c' :: t => if p c' then k (advance x c' t) else None
      | [] => None
      end
  | Seq r1 r2 => m r1 x (fun y => m r2 y k)
  | Alt r1 r2 => orElse (m r1 x k) (m r2 x k)
  | Rep greedy mn mx r' =>
      repeat (m r') (groupsOf r') greedy k
        (S (mn + length (rest x))) mn mx x
  | Grp n r' =>
      m r' x (fun y => k (setCap n (firstn (pos y - pos x) (rest x)) y))
  | NLook r' =>
      match m r' x Some with
      | Some _ => None
      | None => k x
      end
  | WordB =>
      if xorb (isWordAt (prev x)) (isWordAt (hd_error (rest x)))
      then k x else None
  | EOL =>
      match rest x with
      | [] => k x
      | c :: _ => if isLineTerminator c then k x else None
      end
  end.

(** The result of a successful match: [index], the end index, the matched
    text [match[0]] and the captures. *)
Record result : Type := Result {
  index : nat;
  endIndex : nat;
  matched : list ascii;
  captures : list (nat * list ascii)
}.

(** [match[n]] for [n >= 1]; [None] is [undefined]. *)
Fixpoint lookupCap (n : nat) (cs : list (nat * list ascii))
  : option (list ascii) :=
  match cs with
  | [] => None
  | (i, s) :: cs' => if i =? n then Some s else lookupCap n cs'
  end.
Definition group (n : nat) (res : result) : option (list ascii) :=
  lookupCap n (captures res).

(** Try to match at exactly the current position. *)
Definition matchAt (r : regexp) (p : option ascii) (s : list ascii) (i : nat)
  : option result :=
  match m r (MState p s i []) Some with
  | Some y => Some (Result i (pos y) (firstn (pos y - i) s) (caps y))
  | None => None
  end.

(** The leftmost match at or after the current position. *)
Fixpoint scan (r : regexp) (p : option ascii) (s : list ascii) (i : nat)
  : option result :=
  match matchAt r p s i with
  | Some res => Some res
  | None =>
      match s with
      | [] => None
      | c :: s' => scan r (Some c) s' (S i)
      end
  end.

(** The character before index [i]. *)
Definition charBefore (s : list ascii) (i : nat) : option ascii :=
  match i with 0 => None | S j => nth_error s j end.

(** [regex.exec(s)] for a global regular expression whose [lastIndex] is
    [lastIndex]: the search starts there and fails beyond the end of the
    input; on success the new [lastIndex] is [endIndex], on failure 0. *)
Definition exec (r : regexp) (s : list ascii) (lastIndex : nat)
  : option result :=
  if length s <? lastIndex then None
  else scan r (charBefore s lastIndex) (skipn lastIndex s) lastIndex.

(** The scan behind [s.replace(r, f)] and [s.match(r)] for a global [r]:
    the input is cut into the matches, found from left to right without
    overlap, and the characters between them; after an empty match the
    search moves on by one character.  [skip] counts the characters of the
    current match that are still to be passed over. *)
Inductive piece : Type :=
| Kept (c : ascii)
| Matched (res : result).

Fixpoint pieces (r : regexp) (p : option ascii) (s : list ascii)
  (i skip : nat) : list piece :=
  match skip with
  | S skip' =>
      match s with
      | [] => []
      | c :: s' => pieces r (Some c) s' (S i) skip'
      end
  | 0 =>
      match matchAt r p s i with
      | Some res =>
          Matched res ::
          match s with
          | [] => []
          | c :: s' =>
              match endIndex res - i with
              | 0 => Kept c :: pieces r (Some c) s' (S i) 0
              | S n => pieces r (Some c) s' (S i) n
              end
          end
      | None =>
          match s with
          | [] => []
          | c :: s' => Kept c :: pieces r (Some c) s' (S i) 0
          end
      end
  end.

Definition render (f : result -> list ascii) (pc : piece) : list ascii :=
  match pc with
  | Kept c => [c]
  | Matched res => f res
  end.

(** [s.replace(r, f)] for a global [r] and a replacement function [f]. *)
Definition replaceAll (r : regexp) (f : result -> list ascii)
  (s : list ascii) : list ascii :=
  flat_map (render f) (pieces r None s 0 0).

(** The matches that [s.replace(r, f)] hands to [f], in order. *)
Fixpoint hits (ps : list piece) : list result :=
  match ps with
  | [] => []
  | Kept _ :: ps' => hits ps'
  | Matched res :: ps' => res :: hits ps'
  end.
Definition allMatches (r : regexp) (s : list ascii) : list result :=
  hits (pieces r None s 0 0).

(** [s.match(r)] for a global [r]: the texts of all matches (the empty
    list stands for both [null] and the empty array, which the sources
    treat alike). *)
Definition matchAll (r : regexp) (s : list ascii) : list (list ascii) :=
  map matched (allMatches r s).

(** [s.replace(r, f)] for a regular expression without the [g] flag: only
    the leftmost match is replaced. *)
Definition replaceOne (r : regexp) (f : result -> list ascii)
  (s : list ascii) : list ascii :=
  match scan r None s 0 with
  | Some res =>
      firstn (index res) s ++ f res ++ skipn (endIndex res) s
  | None => s
  end.

(** The replacement text of [s.replace(r, template)] for a string
    [template] and a regular expression without capture groups
    (GetSubstitution): [$$] is a dollar sign, [$&] the match, [$`] the
    text before the match, [$'] the text after it; any other use of the
    dollar sign stands for itself. *)
Fixpoint getSubstitution (matchedText before after template : list ascii)
  : list ascii :=
  match template with
  | [] => []
  | c :: t =>
      if eqc c "$" then
        match t with
        | d :: t' =>
            if eqc d "$" then
              "$"%char :: getSubstitution matchedText before after t'
            else if eqc d "&" then
              matchedText ++ getSubstitution matchedText before after t'
            else if eqc d "`" then
              before ++ getSubstitution matchedText before after t'
            else if eqc d "'" then
              after ++ getSubstitution matchedText before after t'
            else c :: getSubstitution matchedText before after t
        | [] => [c]
        end
      else c :: getSubstitution matchedText before after t
  end.

Definition replaceOneWith (r : regexp) (template : list ascii)
  (s : list ascii) : list ascii :=
  replaceOne r
    (fun res =>
       getSubstitution (matched res) (firstn (index res) s)
         (skipn (endIndex res) s) template)
    s.

(** [r.test(s)] from [lastIndex = 0]. *)
Definition test (r : regexp) (s : list ascii) : bool :=
  match scan r None s 0 with Some _ => true | None => false end.

End Regex.

(** ** Paths

    Node's [path] module on POSIX, as documented: [path.sep] is the slash,
    [path.basename] is the last portion of the path without trailing
    separators and without the given suffix, [path.join] joins the
    non-empty segments with the separator and normalizes the result. *)

Module Path.
Import JS.

Definition sep : ascii := "/"%char.

Fixpoint dropTrailingSeps (s : list ascii) : list ascii :=
  match s with
  | [] => []
  | c :: s' =>
      match dropTrailingSeps s' with
      | [] => if eqc c sep then [] else [c]
      | t => c :: t
      end
  end.

Definition lastPart (s : list ascii) : list ascii :=
  List.last (split sep (dropTrailingSeps s)) [].

(** [s] without the suffix [suffix], when [s] ends with it. *)
Definition stripSuffix (suffix s : list ascii) : option (list ascii) :=
  match stripPrefix (rev suffix) (rev s) with
  | Some t => Some (rev t)
  | None => None
  end.

Definition basename (p suffix : list ascii) : list ascii :=
  if eqs p suffix then []
  else
    let base := lastPart p in
    match suffix with
    | [] => base
    | _ =>
        match stripSuffix suffix base with
        | Some (c :: t) => c :: t
        | _ => base
        end
    end.

(** Resolution of the [.] and [..] segments; [acc] holds the segments kept
    so far, last first. *)
Fixpoint normalizeSegments (allowAboveRoot : bool)
  (segs acc : list (list ascii)) : list (list ascii) :=
  match segs with
  | [] => rev acc
  | s :: segs' =>
      if eqs s [] || eqs s (str ".") then
        normalizeSegments allowAboveRoot segs' acc
      else if eqs s (str "..") then
        match acc with
        | a :: acc' =>
            if eqs a (str "..")
            then normalizeSegments allowAboveRoot segs' (s :: acc)
            else normalizeSegments allowAboveRoot segs' acc'
        | [] =>
            if allowAboveRoot
            then normalizeSegments allowAboveRoot segs' [s]
            else normalizeSegments allowAboveRoot segs' []
        end
      else normalizeSegments allowAboveRoot segs' (s :: acc)
  end.

Definition normalize (p : list ascii) : list ascii :=
  match p with
  | [] => str "."
  | c :: _ =>
      let isAbsolute := eqc c sep in
      let trailing := match List.last p c with l => eqc l sep end in
      let body :=
        join [sep] (normalizeSegments (negb isAbsolute) (split sep p) []) in
      match body with
      | [] =>
          if isAbsolute then [sep]
          else if trailing then str "./" else str "."
      | _ =>
          (if isAbsolute then [sep] else []) ++ body ++
          (if trailing then [sep] else [])
      end
  end.

Definition nonEmpty (s : list ascii) : bool :=
  match s with [] => false | _ => true end.

Definition join (parts : list (list ascii)) : list ascii :=
  normalize (JS.join [sep] (List.filter nonEmpty parts)).

End Path.

(** ** Data model ([types/index.ts]) *)

Inductive Priority : Type := high | medium | low.

Record TranslationKey : Type := {
  key : list ascii;
  text : list ascii;
  type : list ascii;
  file : list ascii;
  line : nat;
  context : option (list ascii);
  priority : option Priority;
  category : option (list ascii)
}.

(** An [ExtractionPattern]; the regular expression carries the [g] flag
    and its [lastIndex] is 0 whenever a scan starts.  The fields
    [description] and [validation] are not read by the code. *)
Record ExtractionPattern : Type := {
  regex : Regex.regexp;
  ptype : list ascii;              (* the field [type] *)
  ppriority : option Z             (* the optional field [priority] *)
}.

(** The part of the [SecurityContext] that the modelled code reads. *)
Record SecurityContext : Type := {
  sanitizeOutputs : bool
}.

(** The result of running an asynchronous or looping piece of code: it
    returns, it throws (a rejected promise), the process exits, or it
    never finishes. *)
Inductive outcome (A : Type) : Type :=
| Ret (a : A)
| Throw (message : list ascii)
| Exit (status : nat)
| Hang.
Arguments Ret {A} a.
Arguments Throw {A} message.
Arguments Exit {A} status.
Arguments Hang {A}.

(** ** [Validator] *)

Module Validator.
Import JS Regex.

(** [/<script\b[^<]*(?:(?!<\/script>)<[^<]{0,})*<\/script>/gi]
    (the star before the closing parenthesis is written [{0,}] here). *)
Definition scriptTag : regexp :=
  Seqs [LitI (str "<script"); WordB; Star (Cls (noneOf (str "<")));
        Star (Seqs [NLook (LitI (str "</script>")); Chr "<";
                    Star (Cls (noneOf (str "<")))]);
        LitI (str "</script>")].
(** [/[<>]/g] *)
Definition angleBracket : regexp := Cls (oneOf (str "<>")).
(** [/javascript:/gi] *)
Definition javascriptProtocol : regexp := LitI (str "javascript:").
(** [/data:text\/html/gi] *)
Definition dataTextHtml : regexp := LitI (str "data:text/html").
(** [/on\w+\s*=/gi] *)
Definition eventHandler : regexp :=
  Seqs [LitI (str "on"); Plus (Cls isWord); Star (Cls isSpace); Chr "="].
(** [/eval\s*\(/gi], [/alert\s*\(/gi], [/confirm\s*\(/gi],
    [/prompt\s*\(/gi] *)
Definition call (name : list ascii) : regexp :=
  Seqs [LitI name; Star (Cls isSpace); Chr "("].

Definition remove (r : regexp) (s : list ascii) : list ascii :=
  replaceAll r (fun _ => []) s.

(** [sanitizeOutput] *)
Definition sanitizeOutput (ctx : SecurityContext) (output : list ascii)
  : list ascii :=
  if negb (sanitizeOutputs ctx) then output
  else
    trim
      (remove (call (str "prompt"))
      (remove (call (str "confirm"))
      (remove (call (str "alert"))
      (remove (call (str "eval"))
      (remove eventHandler
      (remove dataTextHtml
      (remove javascriptProtocol
      (remove angleBracket
      (remove scriptTag output))))))))).

(** [validatePath], reduced to its [isValid] result: the path is not
    blank and holds no null byte (the check for [..] and [~] only adds a
    warning). *)
Definition validatePath (p : list ascii) : bool :=
  negb (eqs (trim p) []) && negb (existsb (fun c => code c =? 0) p).

End Validator.

(** ** The outside world

    The collaborators of the three stages: the files that [fs.readFile] can
    read (a missing entry is a read that fails), the sizes in bytes that
    [fs.stat] reports (a missing entry is a [stat] that fails), what
    [fs.readJson] yields for a path (a missing entry is a file that is
    absent, unreadable or not JSON), the answer of [glob] to the search
    pattern and the clock.  Writes always succeed; they update [files] and
    [sizes] and are recorded, with the calls to the logger, in [events]. *)

Inductive Level : Type := LHeader | LSection | LInfo | LDebug | LSuccess
                         | LWarning | LError | LTable.

Inductive Event : Type :=
| EWrite (path content : list ascii)        (* fs.writeFile *)
| EEnsureDir (path : list ascii)            (* fs.ensureDir *)
| ELog (level : Level) (message : list ascii).

(** A parsed dataset file: the field [keys] may be absent. *)
Record JsonData : Type := {
  keys : option (list TranslationKey)
}.

Record World : Type := {
  files : gmap (list ascii) (list ascii);
  sizes : gmap (list ascii) nat;
  json : gmap (list ascii) JsonData;
  tsFiles : list (list ascii);
  now : list ascii;                   (* new Date().toISOString() *)
  events : list Event
}.

(** Effectful code threads the world and may stop early. *)
Definition M (A : Type) : Type := World -> outcome A * World.

Definition ret {A} (a : A) : M A := fun w => (Ret a, w).

Definition bind {A B} (c : M A) (f : A -> M B) : M B :=
  fun w =>
    match c w with
    | (Ret a, w') => f a w'
    | (Throw e, w') => (Throw e, w')
    | (Exit n, w') => (Exit n, w')
    | (Hang, w') => (Hang, w')
    end.

Notation "x <- c ;; k" := (bind c (fun x => k))
  (at level 100, c at next level, right associativity).
Notation "c ;;; k" := (bind c (fun _ => k))
  (at level 100, right associativity).

Definition emit (e : Event) : M unit :=
  fun w => (Ret tt, {| files := files w; sizes := sizes w; json := json w;
                       tsFiles := tsFiles w; now := now w;
                       events := events w ++ [e] |}).

Definition log (level : Level) (message : list ascii) : M unit :=
  emit (ELog level message).

(** The message of the error of a read that fails. *)
Definition readError : list ascii := JS.str "ENOENT: no such file or directory".

Definition readFile (path : list ascii) : M (list ascii) :=
  fun w =>
    match files w !! path with
    | Some content => (Ret content, w)
    | None => (Throw readError, w)
    end.

Definition readJson (path : list ascii) : M JsonData :=
  fun w =>
    match json w !! path with
    | Some data => (Ret data, w)
    | None => (Throw readError, w)
    end.

Definition writeFile (path content : list ascii) : M unit :=
  fun w => (Ret tt, {| files := <[path := content]> (files w);
                       sizes := <[path := length content]> (sizes w);
                       json := json w; tsFiles := tsFiles w; now := now w;
                       events := events w ++ [EWrite path content] |}).

Definition ensureDir (path : list ascii) : M unit := emit (EEnsureDir path).

Definition glob : M (list (list ascii)) := fun w => (Ret (tsFiles w), w).

Definition throw {A} (message : list ascii) : M A :=
  fun w => (Throw message, w).

Definition exit {A} (status : nat) : M A := fun w => (Exit status, w).

(** [try { c } catch (error) { handler(error.message) }] *)
Definition tryCatch {A} (c : M A) (handler : list ascii -> M A) : M A :=
  fun w =>
    match c w with
    | (Throw e, w') => handler e w'
    | r => r
    end.

(** [for (const x of l) { body(x) }] *)
Fixpoint forEach {A} (l : list A) (body : A -> M unit) : M unit :=
  match l with
  | [] => ret tt
  | x :: l' => body x ;;; forEach l' body
  end.

(** ** [TranslationExtractor] *)

Module Extractor.
Import JS Regex.

(** [/throw new \w+Exception\(['\x22`]([^'\x22`]+)['\x22`](?:,\s*\w+\.\w+)?\)/g]
    ([\x22] stands for the double quote). *)
Definition exceptionRegex : regexp :=
  Seqs [Lit (str "throw new "); Plus (Cls isWord); Lit (str "Exception(");
        Cls quote; Grp 1 (Plus (Cls notQuote)); Cls quote;
        Opt (Seqs [Chr ","; Star (Cls isSpace); Plus (Cls isWord); Chr ".";
                   Plus (Cls isWord)]);
        Chr ")"].

(** [/return\s*\{[^}]*message\s*:\s*['\x22`]([^'\x22`]+)['\x22`][^}]*\}/g] *)
Definition returnMessageRegex : regexp :=
  Seqs [Lit (str "return"); Star (Cls isSpace); Chr "{";
        Star (Cls (noneOf (str "}"))); Lit (str "message");
        Star (Cls isSpace); Chr ":"; Star (Cls isSpace);
        Cls quote; Grp 1 (Plus (Cls notQuote)); Cls quote;
        Star (Cls (noneOf (str "}"))); Chr "}"].

(** [/errors\.push\(`([^`]+)`\)/g] *)
Definition templateLiteralRegex : regexp :=
  Seqs [Lit (str "errors.push(`"); Grp 1 (Plus (Cls (noneOf (str "`"))));
        Lit (str "`)")].

(** [/message\s*:\s*['\x22`]([^'\x22`]+)['\x22`]/g] *)
Definition messagePropertyRegex : regexp :=
  Seqs [Lit (str "message"); Star (Cls isSpace); Chr ":";
        Star (Cls isSpace);
        Cls quote; Grp 1 (Plus (Cls notQuote)); Cls quote].

(** [/['\x22`]([^'\x22`]{10,})['\x22`]\s*\+\s*['\x22`]([^'\x22`]+)['\x22`]/g] *)
Definition concatenatedStringRegex : regexp :=
  Seqs [Cls quote; Grp 1 (AtLeast 10 (Cls notQuote)); Cls quote;
        Star (Cls isSpace); Chr "+"; Star (Cls isSpace);
        Cls quote; Grp 2 (Plus (Cls notQuote)); Cls quote].

Definition defaultPatterns : list ExtractionPattern :=
  [ {| regex := exceptionRegex; ptype := str "EXCEPTION";
       ppriority := Some 1%Z |};
    {| regex := returnMessageRegex; ptype := str "RETURN_MESSAGE";
       ppriority := Some 2%Z |};
    {| regex := templateLiteralRegex; ptype := str "TEMPLATE_LITERAL";
       ppriority := Some 3%Z |};
    {| regex := messagePropertyRegex; ptype := str "MESSAGE_PROPERTY";
       ppriority := Some 4%Z |};
    {| regex := concatenatedStringRegex; ptype := str "CONCATENATED_STRING";
       ppriority := Some 5%Z |} ].

(** [a.priority || 0] *)
Definition priorityOf (p : ExtractionPattern) : Z :=
  match ppriority p with Some n => n | None => 0%Z end.

(** [[...patterns].sort((a, b) => (a.priority || 0) - (b.priority || 0))]:
    the sort of arrays is stable. *)
Fixpoint insertByPriority (p : ExtractionPattern)
  (l : list ExtractionPattern) : list ExtractionPattern :=
  match l with
  | [] => [p]
  | q :: l' =>
      if (priorityOf p <=? priorityOf q)%Z then p :: q :: l'
      else q :: insertByPriority p l'
  end.
Definition sortPatterns (patterns : list ExtractionPattern)
  : list ExtractionPattern :=
  fold_right insertByPriority [] patterns.

(** [extractComments]: [/\/\/.*$/gm] and [/\/\*[\s\S]*?\*\//gm]. *)
Definition singleLineComment : regexp :=
  Seqs [Lit (str "//"); Star (Cls dot); EOL].
Definition multiLineComment : regexp :=
  Seqs [Lit (str "/*"); LazyStar (Cls anyChar); Lit (str "*/")].
Definition extractComments (content : list ascii) : list (list ascii) :=
  map trim (matchAll singleLineComment content) ++
  map trim (matchAll multiLineComment content).

(** [/\/\/\s*|\/\*\s*|\s*\*\//g] *)
Definition commentMarkers : regexp :=
  Alt (Seq (Lit (str "//")) (Star (Cls isSpace)))
      (Alt (Seq (Lit (str "/*")) (Star (Cls isSpace)))
           (Seq (Star (Cls isSpace)) (Lit (str "*/")))).

(** [findNearbyComment]: the loop over [i] from [max(0, line - 5)] to
    [line + 5]; [n] counts the values of [i] still to try. *)
Fixpoint findNearbyFrom (comments : list (list ascii)) (i n : nat)
  : option (list ascii) :=
  match n with
  | 0 => None
  | S n' =>
      match find (fun c => includes c (str "line " ++ decimal i)) comments
      with
      | Some (x :: c) =>
          Some (trim (replaceAll commentMarkers (fun _ => []) (x :: c)))
      | _ => findNearbyFrom comments (S i) n'
      end
  end.
Definition findNearbyComment (comments : list (list ascii)) (line : nat)
  : option (list ascii) :=
  findNearbyFrom comments (line - 5) (line + 5 + 1 - (line - 5)).

(** [determinePriority] *)
Definition determinePriority (text type : list ascii) : Priority :=
  if eqs type (str "EXCEPTION") || includes (toLowerCase text) (str "error")
  then high
  else if eqs type (str "RETURN_MESSAGE")
          || includes (toLowerCase text) (str "validation")
  then medium
  else low.

(** [array.findIndex(pred)]; [None] is -1. *)
Fixpoint findIndex {A} (pred : A -> bool) (l : list A) : option nat :=
  match l with
  | [] => None
  | x :: l' =>
      if pred x then Some 0
      else match findIndex pred l' with
           | Some i => Some (S i)
           | None => None
           end
  end.

(** [pathParts[srcIndex - 1]] when [srcIndex > 0]. *)
Definition beforeSrc (pathParts : list (list ascii)) : option (list ascii) :=
  match findIndex (eqs (str "src")) pathParts with
  | Some (S i) => nth_error pathParts i
  | _ => None
  end.

(** [determineCategory] *)
Definition determineCategory (filePath type : list ascii) : list ascii :=
  let pathParts := split Path.sep filePath in
  match find (fun part =>
                existsb (eqs part)
                  [str "auth"; str "profile"; str "notification";
                   str "location"; str "bff"]) pathParts with
  | Some part => part
  | None =>
      match beforeSrc pathParts with
      | Some part => part
      | None => str "unknown"
      end
  end.

(** [generateKey] *)
Definition cleanText (text : list ascii) : list ascii :=
  toUpperCase
    (replaceAll (Plus (Cls isSpace)) (fun _ => str "_")
       (replaceAll (Cls (fun c => negb (isWord c || isSpace c)))
          (fun _ => []) text)).

Definition isServiceDirectory (part : list ascii) : bool :=
  eqs part (str "notification") || eqs part (str "auth")
  || eqs part (str "profile") || eqs part (str "location").

Definition serviceNameOf (filePath : list ascii) : list ascii :=
  let pathParts := split Path.sep filePath in
  match find isServiceDirectory pathParts with
  | Some part => part
  | None =>
      match beforeSrc pathParts with
      | Some part => part
      | None => str "UNKNOWN"
      end
  end.

Definition fileNameOf (filePath : list ascii) : list ascii :=
  replaceFirstChar "." (str "_") (Path.basename filePath (str ".ts")).

Definition generateKey (text type filePath : list ascii) : list ascii :=
  toUpperCase (serviceNameOf filePath) ++ str "." ++
  toUpperCase (fileNameOf filePath) ++ str "." ++
  type ++ str "." ++ cleanText text.

(** [removeDuplicates]: [seen] is the set of the strings
    [`${item.key}:${item.text}`] met so far. *)
Definition dedupKey (item : TranslationKey) : list ascii :=
  key item ++ str ":" ++ text item.

Fixpoint removeDuplicatesFrom (seen : gset (list ascii))
  (strings : list TranslationKey) : list TranslationKey :=
  match strings with
  | [] => []
  | item :: strings' =>
      if decide (dedupKey item ∈ seen)
      then removeDuplicatesFrom seen strings'
      else item :: removeDuplicatesFrom ({[dedupKey item]} ∪ seen) strings'
  end.
Definition removeDuplicates (strings : list TranslationKey)
  : list TranslationKey :=
  removeDuplicatesFrom ∅ strings.

(** [match[1] || match[2] || match[0]]: an absent or empty capture is
    falsy. *)
Definition truthy (o : option (list ascii)) : option (list ascii) :=
  match o with
  | Some (c :: s) => Some (c :: s)
  | _ => None
  end.
Definition candidate (res : result) : list ascii :=
  match truthy (group 1 res) with
  | Some t => t
  | None =>
      match truthy (group 2 res) with
      | Some t => t
      | None => matched res
      end
  end.

(** The length test of [extractFromFile]: [true] when the loop goes on to
    build an entry, [false] when it takes [continue]. *)
Definition retained (text : list ascii) : bool :=
  negb ((length text <? 3) || (500 <? length text)).

(** [content.substring(0, match.index).split('\n').length] *)
Definition lineOf (content : list ascii) (index : nat) : nat :=
  length (split "010" (firstn index content)).

(** The entry that [extractFromFile] pushes on [results] for a match whose
    text passed the length test. *)
Definition entryOf (ctx : SecurityContext) (filePath content : list ascii)
  (includeComments : bool) (comments : list (list ascii))
  (pattern : ExtractionPattern) (res : result) : TranslationKey :=
  let text := candidate res in
  let line := lineOf content (index res) in
  {| key := generateKey text (ptype pattern) filePath;
     text := Validator.sanitizeOutput ctx text;
     type := ptype pattern;
     file := filePath;
     line := line;
     context := if includeComments
                then findNearbyComment comments line else None;
     priority := Some (determinePriority text (ptype pattern));
     category := Some (determineCategory filePath (ptype pattern)) |}.

(** The body of the [while] loop of [extractFromFile] for one match:
    [None] is [continue], [Some] is the entry pushed on [results]. *)
Definition processMatch (ctx : SecurityContext) (filePath content : list ascii)
  (includeComments : bool) (comments : list (list ascii))
  (pattern : ExtractionPattern) (res : result) : option TranslationKey :=
  if retained (candidate res)
  then Some (entryOf ctx filePath content includeComments comments pattern res)
  else None.

(** [while ((match = pattern.regex.exec(content)) !== null) { ... }]:
    [lastIndex] is the state of the regular expression; [None] when the
    loop has not finished within [fuel] iterations. *)
Fixpoint whileExec (fuel : nat) (body : result -> option TranslationKey)
  (r : regexp) (content : list ascii) (lastIndex : nat)
  : option (list TranslationKey) :=
  match fuel with
  | 0 => None
  | S fuel' =>
      match exec r content lastIndex with
      | None => Some []
      | Some res =>
          match whileExec fuel' body r content (endIndex res) with
          | None => None
          | Some results =>
              Some (match body res with
                    | Some e => e :: results
                    | None => results
                    end)
          end
      end
  end.

(** [patterns.forEach(pattern => { ... })] *)
Fixpoint forEachPattern (scanWith : ExtractionPattern -> option (list TranslationKey))
  (patterns : list ExtractionPattern) : option (list TranslationKey) :=
  match patterns with
  | [] => Some []
  | pattern :: patterns' =>
      match scanWith pattern with
      | None => None
      | Some results =>
          match forEachPattern scanWith patterns' with
          | None => None
          | Some results' => Some (results ++ results')
          end
      end
  end.

(** The matching part of [extractFromFile], on the content read.  A scan
    that advances at every match ends within [length content + 1]
    iterations; a scan that does not advance never ends. *)
Definition extractFromContent (ctx : SecurityContext)
  (filePath content : list ascii) (patterns : list ExtractionPattern)
  (includeComments : bool) : option (list TranslationKey) :=
  let comments := if includeComments then extractComments content else [] in
  forEachPattern
    (fun pattern =>
       whileExec (S (length content))
         (processMatch ctx filePath content includeComments comments pattern)
         (regex pattern) content 0)
    patterns.

(** [extractFromFile] *)
Definition extractFromFile (ctx : SecurityContext) (w : World)
  (filePath : list ascii) (patterns : list ExtractionPattern)
  (includeComments : bool) : outcome (list TranslationKey) :=
  match files w !! filePath with
  | None => Throw readError
  | Some content =>
      match extractFromContent ctx filePath content patterns includeComments
      with
      | Some results => Ret results
      | None => Hang
      end
  end.

(** [filterFilesBySize]: a file is kept when [fs.stat] succeeds and
    [stats.size / (1024 * 1024) <= maxFileSizeMB]; the other files are
    logged and left out. *)
Definition filterFilesBySize (w : World) (fileList : list (list ascii))
  (maxFileSizeMB : nat) : list (list ascii) :=
  List.filter
    (fun f =>
       match sizes w !! f with
       | Some size => size <=? maxFileSizeMB * (1024 * 1024)
       | None => false
       end)
    fileList.

(** The options of [extract] after the defaults are filled in. *)
Record ExtractionOptions : Type := {
  path : list ascii;
  patterns : list ExtractionPattern;
  validate : bool;
  maxFileSize : nat;
  concurrency : nat;
  includeComments : bool
}.

(** [Promise.allSettled] over a batch followed by the [forEach] on its
    results: the values of the fulfilled promises are appended in the order
    of the batch, a rejected one is logged and left out. *)
Fixpoint settleAll (rs : list (outcome (list TranslationKey)))
  : outcome (list TranslationKey) :=
  match rs with
  | [] => Ret []
  | r :: rs' =>
      match r with
      | Hang => Hang
      | Exit c => Exit c
      | Throw _ => settleAll rs'
      | Ret v =>
          match settleAll rs' with
          | Ret vs => Ret (v ++ vs)
          | o => o
          end
      end
  end.

(** [for (let i = 0; i < validFiles.length; i += batchSize) { ... }] *)
Fixpoint batchLoop (fuel : nat)
  (extractOne : list ascii -> outcome (list TranslationKey))
  (validFiles : list (list ascii)) (batchSize i : nat)
  : outcome (list TranslationKey) :=
  match fuel with
  | 0 => Hang
  | S fuel' =>
      if i <? length validFiles then
        let batch := firstn batchSize (skipn i validFiles) in
        match settleAll (map extractOne batch) with
        | Ret v =>
            match batchLoop fuel' extractOne validFiles batchSize
                    (i + batchSize) with
            | Ret vs => Ret (v ++ vs)
            | o => o
            end
        | o => o
        end
      else Ret []
  end.

(** [extract], reduced to the value it returns (the calls to the logger
    and to the performance monitor do not influence it). *)
Definition extract (ctx : SecurityContext) (w : World)
  (options : ExtractionOptions) : outcome (list TranslationKey) :=
  if validate options && negb (Validator.validatePath (path options))
  then Throw (str "Invalid search path")
  else
    let validFiles := filterFilesBySize w (tsFiles w) (maxFileSize options) in
    let sortedPatterns := sortPatterns (patterns options) in
    match batchLoop (S (length validFiles))
            (fun f => extractFromFile ctx w f sortedPatterns
                        (includeComments options))
            validFiles (concurrency options) 0 with
    | Ret allStrings => Ret (removeDuplicates allStrings)
    | o => o
    end.

End Extractor.

(** ** Objects used as maps, and JSON

    A [Record<string, string>] is an object whose properties are kept in
    creation order; an assignment to an existing property changes its value
    in place.  The own properties are enumerated with the array indices
    first, in ascending order, then the other names in creation order. *)

Module JSObject.
Import JS.

Definition t : Type := list (list ascii * list ascii).

(** [obj[k] = v] for a name that is not [__proto__]. *)
Fixpoint define (k v : list ascii) (obj : t) : t :=
  match obj with
  | [] => [(k, v)]
  | (k', v') :: obj' =>
      if eqs k' k then (k', v) :: obj' else (k', v') :: define k v obj'
  end.

(** [obj[k] = v] with a string [v]: the name [__proto__] is the accessor
    of the prototype, whose setter ignores a value that is not an object. *)
Definition set (k v : list ascii) (obj : t) : t :=
  if eqs k (str "__proto__") then obj else define k v obj.

(** The own property [k] of [obj]. *)
Fixpoint get (k : list ascii) (obj : t) : option (list ascii) :=
  match obj with
  | [] => None
  | (k', v') :: obj' => if eqs k' k then Some v' else get k obj'
  end.

Definition digitsValue (s : list ascii) : N :=
  fold_left (fun acc c => (acc * 10 + N.of_nat (code c - 48))%N) s 0%N.

(** A canonical numeric string below 2^32 - 1. *)
Definition arrayIndex (s : list ascii) : option N :=
  match s with
  | [] => None
  | c :: s' =>
      if forallb isDigit s
         && (negb (eqc c "0") || eqs s' [])
         && (digitsValue s <? 4294967295)%N
      then Some (digitsValue s) else None
  end.

Fixpoint insertIndexed (e : N * (list ascii * list ascii))
  (l : list (N * (list ascii * list ascii)))
  : list (N * (list ascii * list ascii)) :=
  match l with
  | [] => [e]
  | e' :: l' =>
      if (fst e <=? fst e')%N then e :: e' :: l' else e' :: insertIndexed e l'
  end.

(** [Object.entries(obj)] *)
Definition entries (obj : t) : list (list ascii * list ascii) :=
  map snd
    (fold_right insertIndexed []
       (omap (fun e => match arrayIndex (fst e) with
                       | Some n => Some (n, e)
                       | None => None
                       end) obj))
  ++ List.filter (fun e => match arrayIndex (fst e) with
                           | Some _ => false
                           | None => true
                           end) obj.

Definition hexDigit (n : nat) : ascii :=
  if n <? 10 then ascii_of_nat (48 + n) else ascii_of_nat (87 + n).

(** The JSON escape of one character. *)
Definition escapeChar (c : ascii) : list ascii :=
  if eqc c dquote then ["\"%char; dquote]
  else if eqc c "\" then str "\\"
  else if code c =? 8 then str "\b"
  else if code c =? 9 then str "\t"
  else if code c =? 10 then str "\n"
  else if code c =? 12 then str "\f"
  else if code c =? 13 then str "\r"
  else if code c <? 32 then
    str "\u00" ++ [hexDigit (code c / 16); hexDigit (code c mod 16)]
  else [c].

(** [JSON.stringify(s)] for a string [s]. *)
Definition quoteString (s : list ascii) : list ascii :=
  [dquote] ++ flat_map escapeChar s ++ [dquote].

Definition newline : list ascii := ["010"%char].

(** [JSON.stringify(obj, null, 2)] for an object with string values. *)
Definition stringify2 (obj : t) : list ascii :=
  match entries obj with
  | [] => str "{}"
  | es =>
      str "{" ++ newline ++
      join (str "," ++ newline)
        (map (fun e => str "  " ++ quoteString (fst e) ++ str ": "
                       ++ quoteString (snd e)) es)
      ++ newline ++ str "}"
  end.

(** [JSON.stringify(a)] for an array of strings. *)
Definition stringifyArray (a : list (list ascii)) : list ascii :=
  str "[" ++ join (str ",") (map quoteString a) ++ str "]".

End JSObject.

(** ** [TranslationGenerator] *)

Module Generator.
Import JS.

Record ServiceTranslation : Type := {
  serviceName : list ascii;
  translations : JSObject.t;
  totalKeys : nat
}.

(** The options of [generate] after the defaults are filled in. *)
Record GenerationOptions : Type := {
  input : list ascii;
  languages : list (list ascii);
  template : bool;
  verbose : bool
}.

Definition defaultLanguages : list (list ascii) :=
  [str "en"; str "fr"; str "es"; str "de"; str "ar"].

(** [loadTranslationKeys]: a read that fails is logged and yields the
    empty dataset. *)
Definition loadTranslationKeys (inputFile : list ascii) : M JsonData :=
  tryCatch (readJson inputFile)
    (fun message =>
       log LError (str "Error loading translation keys from " ++ inputFile
                   ++ str ": " ++ message) ;;;
       log LInfo (str "Run translation-extract first to generate translation keys") ;;;
       ret {| keys := Some [] |}).

(** [createTranslationObject] *)
Definition createTranslationObject (serviceKeys : list TranslationKey)
  : JSObject.t :=
  fold_left (fun translations k => JSObject.set (key k) (text k) translations)
    serviceKeys [].

(** [key.file.split(path.sep)[0]] *)
Definition firstSegment (filePath : list ascii) : list ascii :=
  match split Path.sep filePath with
  | s :: _ => s
  | [] => []
  end.

(** The [Map] from service names to their keys, in insertion order:
    [serviceMap.get(serviceName).push(key)] after the entry is created
    when it is missing. *)
Fixpoint addToService (name : list ascii) (k : TranslationKey)
  (serviceMap : list (list ascii * list TranslationKey))
  : list (list ascii * list TranslationKey) :=
  match serviceMap with
  | [] => [(name, [k])]
  | (n, ks) :: serviceMap' =>
      if eqs n name then (n, ks ++ [k]) :: serviceMap'
      else (n, ks) :: addToService name k serviceMap'
  end.

(** [groupByService] *)
Definition groupByService (ks : list TranslationKey)
  : list ServiceTranslation :=
  map (fun e => {| serviceName := fst e;
                   translations := createTranslationObject (snd e);
                   totalKeys := length (snd e) |})
    (fold_left (fun serviceMap k => addToService (firstSegment (file k)) k serviceMap)
       ks []).

(** [createTemplateTranslations] *)
Definition createTemplateTranslations (translations : JSObject.t)
  (lang : list ascii) : JSObject.t :=
  fold_left
    (fun template e =>
       JSObject.set (fst e)
         (str "TODO: Translate " ++ [dquote] ++ snd e ++ [dquote]
          ++ str " to " ++ lang)
         template)
    (JSObject.entries translations) [].

(** [generateReadme]: the text of the file. *)
Definition readmeContent (serviceName : list ascii) (totalKeys : nat)
  (languages : list (list ascii)) (generatedAt : list ascii) : list ascii :=
  let q := [dquote] in
  join JSObject.newline
    [ str "# " ++ serviceName ++ str " Translation Files";
      [];
      str "This directory contains translation files for the "
        ++ serviceName ++ str " service.";
      [];
      str "## Files";
      [];
      join JSObject.newline
        (map (fun lang =>
                str "- `" ++ lang ++ str ".json` - " ++
                (if eqs lang (str "en")
                 then lang ++ str " translations (" ++ decimal totalKeys
                      ++ str " keys)"
                 else lang ++ str " translations (template)"))
           languages);
      [];
      str "## Usage";
      [];
      str "```typescript";
      str "import { TranslationService } from '@logistically/i18n';";
      [];
      str "const translationService = new TranslationService({";
      str "  serviceName: '" ++ serviceName ++ str "',";
      str "  defaultLocale: 'en',";
      str "  supportedLocales: " ++ JSObject.stringifyArray languages
        ++ str ",";
      str "  translationsPath: 'src/translations'";
      str "});";
      [];
      str "const message = translationService.translate(";
      str "  'EXAMPLE_KEY',";
      str "  'fr',";
      str "  { fieldName: 'email' }";
      str ");";
      str "```";
      [];
      str "## Translation Status";
      [];
      join JSObject.newline
        (map (fun lang =>
                str "- **" ++ toUpperCase lang ++ str "**: " ++
                (if eqs lang (str "en")
                 then decimal totalKeys ++ str " translations (100%)"
                 else str "0 translations (0%)"))
           languages);
      [];
      str "## How to Translate";
      [];
      str "1. Open the language file you want to translate (e.g., `fr.json`)";
      str "2. Replace the TODO comments with actual translations";
      str "3. Keep the translation keys unchanged";
      str "4. Test your translations using the TranslationService";
      [];
      str "## Example";
      [];
      str "```json";
      str "{";
      str "  " ++ q ++ str "AUTH.AUTH_SERVICE.EXCEPTION.USER_ALREADY_EXISTS"
        ++ q ++ str ": " ++ q ++ str "TODO: Translate " ++ q
        ++ str "User already exists with this email or phone" ++ q
        ++ str " to fr" ++ q;
      str "}";
      str "```";
      [];
      str "Should become:";
      [];
      str "```json";
      str "{";
      str "  " ++ q ++ str "AUTH.AUTH_SERVICE.EXCEPTION.USER_ALREADY_EXISTS"
        ++ q ++ str ": " ++ q ++ str "Un utilisateur existe d"
        ++ ["233"%char] ++ str "j" ++ ["224"%char]
        ++ str " avec cet email ou ce t" ++ ["233"%char] ++ str "l"
        ++ ["233"%char] ++ str "phone" ++ q;
      str "}";
      str "```";
      [];
      str "## Generated by";
      [];
      str "This file was generated by @onwello/translation-cli on "
        ++ generatedAt;
      [] ].

Definition generateReadme (serviceName translationsDir : list ascii)
  (totalKeys : nat) (languages : list (list ascii)) : M unit :=
  fun w =>
    (let readmeFile := Path.join [translationsDir; str "README.md"] in
     writeFile readmeFile
       (readmeContent serviceName totalKeys languages (now w)) ;;;
     log LInfo (str "Generated " ++ readmeFile)) w.

(** [generateServiceTranslations] *)
Definition generateServiceTranslations (st : ServiceTranslation)
  (languages : list (list ascii)) (template : bool) : M unit :=
  log LSection (str "Generating translations for " ++ serviceName st) ;;;
  log LInfo (str "Total keys: " ++ decimal (totalKeys st)) ;;;
  let translationsDir :=
    Path.join [serviceName st; str "src"; str "translations"] in
  ensureDir translationsDir ;;;
  let enFile := Path.join [translationsDir; str "en.json"] in
  writeFile enFile (JSObject.stringify2 (translations st)) ;;;
  log LSuccess (str "Generated " ++ enFile ++ str " with "
                ++ decimal (totalKeys st) ++ str " translations") ;;;
  (if template then
     forEach languages
       (fun lang =>
          if eqs lang (str "en") then ret tt
          else
            let langFile := Path.join [translationsDir; lang ++ str ".json"] in
            writeFile langFile
              (JSObject.stringify2
                 (createTemplateTranslations (translations st) lang)) ;;;
            log LInfo (str "Generated template " ++ langFile))
   else ret tt) ;;;
  generateReadme (serviceName st) translationsDir (totalKeys st) languages.

(** [generate] *)
Definition generate (options : GenerationOptions) : M unit :=
  log LHeader (str "Translation File Generation") ;;;
  translationData <- loadTranslationKeys (input options) ;;
  match keys translationData with
  | None =>
      throw (str "Cannot read properties of undefined (reading 'length')")
  | Some ks =>
      log LInfo (str "Loaded " ++ decimal (length ks)
                 ++ str " translation keys") ;;;
      let serviceTranslations := groupByService ks in
      log LInfo (str "Found " ++ decimal (length serviceTranslations)
                 ++ str " services") ;;;
      if length ks =? 0 then
        log LInfo (str "No translation keys found, skipping file generation")
      else
        forEach serviceTranslations
          (fun st => generateServiceTranslations st (languages options)
                       (template options)) ;;;
        log LSuccess (str "Translation files generated successfully!")
  end.

End Generator.

(** ** [TranslationReplacer] *)

Module Replacer.
Import JS Regex.

(** The options of [replace] after the defaults are filled in. *)
Record ReplaceOptions : Type := {
  path : list ascii;
  keysFile : list ascii;
  backup : bool;
  dryRun : bool;
  verbose : bool
}.

(** [loadTranslationKeys]: [data.keys || []]; a read that fails is logged
    and ends the process with status 1. *)
Definition loadTranslationKeys (keysFile : list ascii)
  : M (list TranslationKey) :=
  tryCatch
    (data <- readJson keysFile ;;
     ret (match keys data with Some ks => ks | None => [] end))
    (fun message =>
       log LError (str "Error loading translation keys from " ++ keysFile
                   ++ str ": " ++ message) ;;;
       log LInfo (str "Run translation extract first to generate translation keys") ;;;
       exit 1).

(** [textToKeyMap]: later entries overwrite earlier ones. *)
Definition textToKeyMap (translationKeys : list TranslationKey)
  : gmap (list ascii) (list ascii) :=
  fold_left (fun mp k => <[text k := key k]> mp) translationKeys ∅.

(** [const key = textToKeyMap.get(text); if (key) ...]: an absent or empty
    key is falsy. *)
Definition lookupKey (mp : gmap (list ascii) (list ascii))
  (text : option (list ascii)) : option (list ascii) :=
  match text with
  | Some t =>
      match mp !! t with
      | Some (c :: k) => Some (c :: k)
      | _ => None
      end
  | None => None
  end.

(** A capture inside a template literal; an absent capture prints as
    [undefined]. *)
Definition shown (o : option (list ascii)) : list ascii :=
  match o with Some s => s | None => str "undefined" end.

(** [/throw new (\w+Exception)\(['\x22`]([^'\x22`]+)['\x22`](?:,\s*\{[^}]+\})?\)/g]
    ([\x22] stands for the double quote). *)
Definition exceptionWithObjectRegex : regexp :=
  Seqs [Lit (str "throw new ");
        Grp 1 (Seq (Plus (Cls isWord)) (Lit (str "Exception")));
        Chr "("; Cls quote; Grp 2 (Plus (Cls notQuote)); Cls quote;
        Opt (Seqs [Chr ","; Star (Cls isSpace); Chr "{";
                   Plus (Cls (noneOf (str "}"))); Chr "}"]);
        Chr ")"].

(** [/throw new (\w+Exception)\(['\x22`]([^'\x22`]+)['\x22`]\)/g] *)
Definition simpleExceptionRegex : regexp :=
  Seqs [Lit (str "throw new ");
        Grp 1 (Seq (Plus (Cls isWord)) (Lit (str "Exception")));
        Chr "("; Cls quote; Grp 2 (Plus (Cls notQuote)); Cls quote;
        Chr ")"].

(** [/return\s*\{[^}]*message\s*:\s*['\x22`]([^'\x22`]+)['\x22`][^}]*\}/g] *)
Definition returnMessageRegex : regexp := Extractor.returnMessageRegex.

(** [/message\s*:\s*['\x22`][^'\x22`]+['\x22`]/] (no flag, no capture) *)
Definition messageValueRegex : regexp :=
  Seqs [Lit (str "message"); Star (Cls isSpace); Chr ":";
        Star (Cls isSpace);
        Cls quote; Plus (Cls notQuote); Cls quote].

(** [/message\s*:\s*['\x22`]([^'\x22`]+)['\x22`]/g] *)
Definition messagePropertyRegex : regexp := Extractor.messagePropertyRegex.

(** [/errors\.push\(`([^`]+)`\)/g] *)
Definition templateLiteralRegex : regexp := Extractor.templateLiteralRegex.

(** The two exception rules share one replacement:
    [throw new ${exceptionType}(this.translate('${key}'))]. *)
Definition exceptionReplacement (mp : gmap (list ascii) (list ascii))
  (res : result) : list ascii :=
  match lookupKey mp (group 2 res) with
  | Some k =>
      str "throw new " ++ shown (group 1 res) ++ str "(this.translate('"
      ++ k ++ str "'))"
  | None => matched res
  end.

(** [match.replace(/message.../, `message: this.translate('${key}')`)] *)
Definition returnMessageReplacement (mp : gmap (list ascii) (list ascii))
  (res : result) : list ascii :=
  match lookupKey mp (group 1 res) with
  | Some k =>
      replaceOneWith messageValueRegex
        (str "message: this.translate('" ++ k ++ str "')") (matched res)
  | None => matched res
  end.

Definition messagePropertyReplacement (mp : gmap (list ascii) (list ascii))
  (res : result) : list ascii :=
  match lookupKey mp (group 1 res) with
  | Some k => str "message: this.translate('" ++ k ++ str "')"
  | None => matched res
  end.

Definition templateLiteralReplacement (mp : gmap (list ascii) (list ascii))
  (res : result) : list ascii :=
  match lookupKey mp (group 1 res) with
  | Some k => str "errors.push(this.translate('" ++ k ++ str "'))"
  | None => matched res
  end.

(** The array [patterns] of [replaceInFile], most specific first. *)
Definition patterns (mp : gmap (list ascii) (list ascii))
  : list (regexp * (result -> list ascii)) :=
  [ (exceptionWithObjectRegex, exceptionReplacement mp);
    (simpleExceptionRegex, exceptionReplacement mp);
    (returnMessageRegex, returnMessageReplacement mp);
    (messagePropertyRegex, messagePropertyReplacement mp);
    (templateLiteralRegex, templateLiteralReplacement mp) ].

(** The matches of one rule whose replacement differs from the match:
    each of them adds one to [replacements] and logs one line. *)
Definition changed (f : result -> list ascii) (res : result) : bool :=
  negb (eqs (f res) (matched res)).

Definition debugLine (filePath : list ascii) (f : result -> list ascii)
  (res : result) : Event :=
  ELog LDebug
    (str "Replaced in " ++ filePath ++ str ": " ++ [dquote]
     ++ shown (group 1 res) ++ [dquote] ++ str " -> " ++ [dquote]
     ++ f res ++ [dquote]).

(** [patterns.forEach(pattern => { newContent = newContent.replace(...) })]:
    the new content, the number of replacements and the lines logged. *)
Fixpoint applyPatterns (filePath : list ascii)
  (ps : list (regexp * (result -> list ascii)))
  (newContent : list ascii) (replacements : nat) (logged : list Event)
  : list ascii * nat * list Event :=
  match ps with
  | [] => (newContent, replacements, logged)
  | (r, f) :: ps' =>
      let hit := List.filter (changed f) (allMatches r newContent) in
      applyPatterns filePath ps' (replaceAll r f newContent)
        (replacements + length hit)
        (logged ++ map (debugLine filePath f) hit)
  end.

(** [replaceInFile] *)
Definition replaceInFile (filePath : list ascii)
  (translationKeys : list TranslationKey) (backup dryRun : bool) : M nat :=
  content <- readFile filePath ;;
  let mp := textToKeyMap translationKeys in
  match applyPatterns filePath (patterns mp) content 0 [] with
  | (newContent, replacements, logged) =>
      forEach logged emit ;;;
      (if (0 <? replacements) && negb dryRun then
         (if backup then
            let backupPath := filePath ++ str ".backup" in
            writeFile backupPath content ;;;
            log LDebug (str "Created backup: " ++ backupPath)
          else ret tt) ;;;
         writeFile filePath newContent ;;;
         log LInfo (str "Updated " ++ filePath ++ str " with "
                    ++ decimal replacements ++ str " replacements")
       else if (0 <? replacements) && dryRun then
         log LInfo (str "[DRY RUN] Would update " ++ filePath ++ str " with "
                    ++ decimal replacements ++ str " replacements")
       else if replacements =? 0 then
         log LDebug (str "No replacements needed for " ++ filePath)
       else ret tt) ;;;
      ret replacements
  end.

(** The loop of [replace] over the files: the running total and the
    summary. *)
Fixpoint replaceLoop (fileList : list (list ascii))
  (translationKeys : list TranslationKey) (backup dryRun : bool)
  (totalReplacements : nat) (summary : list (list ascii * nat))
  : M (nat * list (list ascii * nat)) :=
  match fileList with
  | [] => ret (totalReplacements, summary)
  | f :: fileList' =>
      st <- tryCatch
              (replacements <- replaceInFile f translationKeys backup dryRun ;;
               if 0 <? replacements
               then ret (totalReplacements + replacements,
                         summary ++ [(f, replacements)])
               else ret (totalReplacements, summary))
              (fun message =>
                 log LWarning (str "Error processing " ++ f ++ str ": "
                               ++ message) ;;;
                 ret (totalReplacements, summary)) ;;
      replaceLoop fileList' translationKeys backup dryRun (fst st) (snd st)
  end.

(** One row of [logger.table]. *)
Definition summaryRow (row : list ascii * nat) : Event :=
  ELog LTable (fst row ++ str ": " ++ decimal (snd row)).

(** [replace] *)
Definition replace (options : ReplaceOptions) : M unit :=
  log LHeader (str "Translation String Replacement") ;;;
  log LInfo (str "Searching in: " ++ path options) ;;;
  log LInfo (str "Using keys from: " ++ keysFile options) ;;;
  translationKeys <- loadTranslationKeys (keysFile options) ;;
  log LInfo (str "Loaded " ++ decimal (length translationKeys)
             ++ str " translation keys") ;;;
  fileList <- glob ;;
  log LInfo (str "Found " ++ decimal (length fileList)
             ++ str " TypeScript files") ;;;
  st <- replaceLoop fileList translationKeys (backup options)
          (dryRun options) 0 [] ;;
  log LSuccess (str "Replacement completed! Total replacements: "
                ++ decimal (fst st)) ;;;
  match snd st with
  | [] => ret tt
  | rows =>
      log LSection (str "Replacement Summary") ;;;
      forEach (map summaryRow rows) emit
  end.

End Replacer.

(** ** Specification-side notions *)

Module Spec.
Import JS Regex.

(** The successive matches of a [while (exec)] loop that ends: each match
    is found by [exec] from the end of the one before, and the last [exec]
    fails. *)
Inductive matchChain (r : regexp) (content : list ascii)
  : nat -> list result -> Prop :=
| chain_end lastIndex :
    exec r content lastIndex = None ->
    matchChain r content lastIndex []
| chain_step lastIndex res ms :
    exec r content lastIndex = Some res ->
    matchChain r content (endIndex res) ms ->
    matchChain r content lastIndex (res :: ms).

(** A state reached from [x] by moving forward in the same input. *)
Definition reaches (x y : mstate) : Prop :=
  pos x <= pos y /\ pos y + length (rest y) = pos x + length (rest x).

(** A lower bound on the length of the matches of a pattern. *)
Fixpoint minLen (r : regexp) : nat :=
  match r with
  | Chr _ | ChrI _ | Cls _ => 1
  | Seq r1 r2 => minLen r1 + minLen r2
  | Alt r1 r2 => Nat.min (minLen r1) (minLen r2)
  | Rep _ (S _) (Some (S _)) r' | Rep _ (S _) None r' => minLen r'
  | Grp _ r' => minLen r'
  | _ => 0
  end.

(** The successive matches of the [while (exec)] loop, as a list: at most
    [fuel] of them. *)
Fixpoint successive (fuel : nat) (r : regexp) (content : list ascii)
  (lastIndex : nat) : list result :=
  match fuel with
  | 0 => []
  | S fuel' =>
      match exec r content lastIndex with
      | None => []
      | Some res => res :: successive fuel' r content (endIndex res)
      end
  end.
Definition matchesOf (r : regexp) (content : list ascii) : list result :=
  successive (S (length content)) r content 0.

(** The entries of one file: pattern after pattern in the order given, and
    for each pattern its matches in the order found. *)
Definition fileEntries (ctx : SecurityContext) (filePath content : list ascii)
  (patterns : list ExtractionPattern) (includeComments : bool)
  : list TranslationKey :=
  let comments :=
    if includeComments then Extractor.extractComments content else [] in
  flat_map
    (fun pattern =>
       omap (Extractor.processMatch ctx filePath content includeComments
               comments pattern)
         (matchesOf (regex pattern) content))
    patterns.

(** The entries of a list of files, file after file. *)
Definition allEntries (ctx : SecurityContext) (w : World)
  (fileList : list (list ascii)) (patterns : list ExtractionPattern)
  (includeComments : bool) : list TranslationKey :=
  flat_map
    (fun f =>
       match files w !! f with
       | Some content => fileEntries ctx f content patterns includeComments
       | None => []
       end)
    fileList.

(** The order of the scan: ascending priority. *)
Definition byPriority (a b : ExtractionPattern) : Prop :=
  (Extractor.priorityOf a <= Extractor.priorityOf b)%Z.

Definition hasPriority (z : Z) (q : ExtractionPattern) : bool :=
  (Extractor.priorityOf q =? z)%Z.

(** What a file contributes to a batch: the value of its promise when it
    is fulfilled, nothing when it is rejected. *)
Definition settled (extractOne : list ascii -> outcome (list TranslationKey))
  (f : list ascii) : list TranslationKey :=
  match extractOne f with Ret v => v | _ => [] end.

(** A promise that settles: fulfilled or rejected. *)
Definition settles {A} (o : outcome A) : Prop :=
  (exists v, o = Ret v) \/ (exists e, o = Throw e).

(** Two matches, the first one earlier in the input. *)
Definition before (a b : result) : Prop := index a < index b.

(** The characters allowed in a key by the data model: letters, digits,
    underscores and dots. *)
Definition legalChar (c : ascii) : bool := isWord c || eqc c ".".

(** The characters of a normalized text: capitals, digits, underscore. *)
Definition upperWordChar (c : ascii) : bool :=
  isUpper c || isDigit c || (code c =? 95).

(** The write events of a trace. *)
Definition isWrite (e : Event) : bool :=
  match e with EWrite _ _ => true | _ => false end.
Definition writesOf (l : list Event) : list Event := List.filter isWrite l.

(** A computation that writes nothing: whatever the world, it leaves the
    files, the dataset files, the enumeration and the clock as they are,
    and adds no write to the trace. *)
Definition readOnly {A} (c : M A) : Prop :=
  forall w,
    files (snd (c w)) = files w
    /\ sizes (snd (c w)) = sizes w
    /\ json (snd (c w)) = json w
    /\ tsFiles (snd (c w)) = tsFiles w
    /\ now (snd (c w)) = now w
    /\ writesOf (events (snd (c w))) = writesOf (events w).

(** The world after a list of events: the writes update the files, all
    events join the trace. *)
Definition step (w : World) (e : Event) : World :=
  {| files := match e with
              | EWrite p c => <[p := c]> (files w)
              | _ => files w
              end;
     sizes := match e with
              | EWrite p c => <[p := length c]> (sizes w)
              | _ => sizes w
              end;
     json := json w; tsFiles := tsFiles w; now := now w;
     events := events w ++ [e] |}.
Definition push (w : World) (evs : list Event) : World :=
  fold_left step evs w.

(** A computation that, at the time [t], returns [a] after the events
    [evs], whatever the rest of the world. *)
Definition emits {A} (t : list ascii) (c : M A) (a : A) (evs : list Event)
  : Prop :=
  forall w, now w = t -> c w = (Ret a, push w evs).

(** A character kept by a global replacement: no match starts at it, or
    only an empty one. *)
Definition keptAt (r : regexp) (p : option ascii) (c : ascii)
  (t : list ascii) (i : nat) : Prop :=
  match matchAt r p (c :: t) i with
  | None => True
  | Some res => endIndex res - i = 0
  end.

(** The number of replacements that [replaceInFile] computes for a
    content. *)
Definition replacementCount (filePath : list ascii)
  (translationKeys : list TranslationKey) (content : list ascii) : nat :=
  snd (fst (Replacer.applyPatterns filePath
              (Replacer.patterns (Replacer.textToKeyMap translationKeys))
              content 0 [])).

(** The files of one service: [en.json], then one template for each
    requested language other than [en] when templates are asked for, then
    the README. *)
Definition translationsDirOf (st : Generator.ServiceTranslation)
  : list ascii :=
  Path.join [Generator.serviceName st; str "src"; str "translations"].

Definition enWrite (st : Generator.ServiceTranslation) : Event :=
  EWrite (Path.join [translationsDirOf st; str "en.json"])
    (JSObject.stringify2 (Generator.translations st)).

Definition templateWrite (st : Generator.ServiceTranslation)
  (lang : list ascii) : Event :=
  EWrite (Path.join [translationsDirOf st; lang ++ str ".json"])
    (JSObject.stringify2
       (Generator.createTemplateTranslations (Generator.translations st)
          lang)).

Definition readmeWrite (st : Generator.ServiceTranslation)
  (languages : list (list ascii)) (t : list ascii) : Event :=
  EWrite (Path.join [translationsDirOf st; str "README.md"])
    (Generator.readmeContent (Generator.serviceName st)
       (Generator.totalKeys st) languages t).

Definition serviceWrites (languages : list (list ascii)) (template : bool)
  (t : list ascii) (st : Generator.ServiceTranslation) : list Event :=
  [enWrite st]
  ++ (if template
      then map (templateWrite st)
             (List.filter (fun lang => negb (eqs lang (str "en"))) languages)
      else [])
  ++ [readmeWrite st languages t].

(** The events of [generateServiceTranslations] for one language and for
    one service. *)
Definition templateEvents (st : Generator.ServiceTranslation)
  (lang : list ascii) : list Event :=
  if eqs lang (str "en") then []
  else [templateWrite st lang;
        ELog LInfo (str "Generated template "
                    ++ Path.join [translationsDirOf st; lang ++ str ".json"])].

Definition serviceEvents (languages : list (list ascii)) (template : bool)
  (t : list ascii) (st : Generator.ServiceTranslation) : list Event :=
  [ELog LSection (str "Generating translations for "
                  ++ Generator.serviceName st)]
  ++ [ELog LInfo (str "Total keys: " ++ decimal (Generator.totalKeys st))]
  ++ [EEnsureDir (translationsDirOf st)]
  ++ [enWrite st]
  ++ [ELog LSuccess
        (str "Generated " ++ Path.join [translationsDirOf st; str "en.json"]
         ++ str " with " ++ decimal (Generator.totalKeys st)
         ++ str " translations")]
  ++ (if template then flat_map (templateEvents st) languages else [])
  ++ ([readmeWrite st languages t]
      ++ [ELog LInfo (str "Generated "
                      ++ Path.join [translationsDirOf st; str "README.md"])]).

(** The [Map] that [groupByService] builds, started from [serviceMap]. *)
Definition serviceMapOf (ks : list TranslationKey)
  (serviceMap : list (list ascii * list TranslationKey))
  : list (list ascii * list TranslationKey) :=
  fold_left
    (fun mp k =>
       Generator.addToService (Generator.firstSegment (file k)) k mp)
    ks serviceMap.

End Spec.

(** ** Sample inputs *)

Module Samples.
Import JS Extractor.

Definition sampleContext : SecurityContext := {| sanitizeOutputs := true |}.

Definition timestamp : list ascii := str "2024-01-01T00:00:00.000Z".

(** A file whose first line holds a [message] property and whose second
    line throws an exception. *)
Definition twoLines : list ascii :=
  str "message: 'Saved ok';" ++ ["010"%char]
  ++ str "throw new BadException('Cannot save');".

Definition twoLinesWorld : World :=
  {| files := {[ str "shop/src/cart.ts" := twoLines ]};
     sizes := {[ str "shop/src/cart.ts" := length twoLines ]};
     json := ∅;
     tsFiles := [str "shop/src/cart.ts"];
     now := timestamp;
     events := [] |}.

Definition defaultOptions : ExtractionOptions :=
  {| path := str ".";
     patterns := defaultPatterns;
     validate := true;
     maxFileSize := 10;
     concurrency := 4;
     includeComments := false |}.

(** A text of [n] characters inside a [message] property. *)
Definition messageOfLength (n : nat) : list ascii :=
  str "message: '" ++ List.repeat "a"%char n ++ str "'".

Definition authServicePath : list ascii :=
  str "auth/src/services/auth.service.ts".
Definition validationFailed : list ascii :=
  str "return { message: 'Validation failed' };".

Definition authWorld : World :=
  {| files := {[ authServicePath := validationFailed ]};
     sizes := {[ authServicePath := length validationFailed ]};
     json := ∅;
     tsFiles := [authServicePath];
     now := timestamp;
     events := [] |}.

(** A dataset entry with a given key and text. *)
Definition entry (k t : list ascii) : TranslationKey :=
  {| key := k; text := t; type := str "EXCEPTION"; file := authServicePath;
     line := 1; context := None; priority := None; category := None |}.

(** The exception of the test suite, thrown with a second argument. *)
Definition userExists : TranslationKey :=
  entry (str "AUTH.AUTH_SERVICE.EXCEPTION.USER_ALREADY_EXISTS")
    (str "User already exists with this email").

Definition throwWithObject : list ascii :=
  str "throw new BadRequestException('User already exists with this email', { userId: 123 });".

Definition throwWorld : World :=
  {| files := {[ authServicePath := throwWithObject ]};
     sizes := {[ authServicePath := length throwWithObject ]};
     json := {[ str "translation-keys.json"
                := {| keys := Some [userExists] |} ]};
     tsFiles := [authServicePath];
     now := timestamp;
     events := [] |}.

(** The same world without the dataset file. *)
Definition noDatasetWorld : World :=
  {| files := {[ authServicePath := throwWithObject ]};
     sizes := {[ authServicePath := length throwWithObject ]};
     json := ∅;
     tsFiles := [authServicePath];
     now := timestamp;
     events := [] |}.

(** The two files of the workflow test of the repository. *)
Definition profileControllerPath : list ascii :=
  str "profile/src/controllers/profile.controller.ts".

Definition authServiceContent : list ascii :=
  str "
        throw new BadRequestException('User already exists with this email');
        return { message: 'Validation failed' };
        errors.push(`The field '${fieldName}' is required`);
      ".

Definition profileControllerContent : list ascii :=
  str "
        throw new NotFoundException('Profile not found');
        return { message: 'Profile updated successfully' };
      ".

Definition workflowWorld : World :=
  {| files := {[ authServicePath := authServiceContent;
                 profileControllerPath := profileControllerContent ]};
     sizes := {[ authServicePath := length authServiceContent;
                 profileControllerPath := length profileControllerContent ]};
     json := ∅;
     tsFiles := [authServicePath; profileControllerPath];
     now := timestamp;
     events := [] |}.

Definition workflowOptions : ExtractionOptions :=
  {| path := str ".";
     patterns := defaultPatterns;
     validate := false;
     maxFileSize := 100;
     concurrency := 4;
     includeComments := false |}.

Definition replaceOptions (dry : bool) : Replacer.ReplaceOptions :=
  {| Replacer.path := str ".";
     Replacer.keysFile := str "translation-keys.json";
     Replacer.backup := true;
     Replacer.dryRun := dry;
     Replacer.verbose := false |}.

Definition generationOptions (langs : list (list ascii)) (tpl : bool)
  : Generator.GenerationOptions :=
  {| Generator.input := str "translation-keys.json";
     Generator.languages := langs;
     Generator.template := tpl;
     Generator.verbose := false |}.

End Samples.

(** ** [Validator]: the validation methods

    The results of the validation methods of [utils/validator.ts], with
    their errors and warnings.  The fields [type], [message], [file],
    [line] and [code] of a [ValidationError] are named [errorType],
    [errorMessage], [errorFile], [errorLine] and [errorCode]; the fields
    [message], [suggestion], [file] and [line] of a [ValidationWarning] are
    named [warningMessage], [suggestion], [warningFile] and
    [warningLine]. *)

Module Validation.
Import JS Regex.

Inductive ErrorType : Type := critical | error | warning.

Record ValidationError : Type := {
  errorType : ErrorType;
  errorMessage : list ascii;
  errorFile : option (list ascii);
  errorLine : option nat;
  errorCode : option (list ascii)
}.

Record ValidationWarning : Type := {
  warningMessage : list ascii;
  suggestion : option (list ascii);
  warningFile : option (list ascii);
  warningLine : option nat
}.

Record ValidationResult : Type := {
  isValid : bool;
  errors : list ValidationError;
  warnings : list ValidationWarning
}.

(** [{ isValid: errors.length === 0, errors, warnings }] *)
Definition result (errors : list ValidationError)
  (warnings : list ValidationWarning) : ValidationResult :=
  {| isValid := length errors =? 0; errors := errors; warnings := warnings |}.

(** The fields of the [SecurityContext] that the validation methods read:
    the largest size of a file in megabytes, the largest length of a key
    and the extensions allowed. *)
Record Limits : Type := {
  maxFileSize : nat;
  maxKeyLength : nat;
  allowedFileTypes : list (list ascii)
}.

(** What the validator sees of the file system: [fs.existsSync] and
    [fs.statSync], which gives the size in bytes or throws an error with a
    message. *)
Record FileSystem : Type := {
  existsSync : list ascii -> bool;
  statSync : list ascii -> nat + list ascii
}.

(** The file system of a world. *)
Definition fileSystemOf (w : World) : FileSystem :=
  {| existsSync := fun p => match sizes w !! p with
                            | Some _ => true
                            | None => false
                            end;
     statSync := fun p => match sizes w !! p with
                          | Some size => inl size
                          | None => inr readError
                          end |}.

(** [(num / den).toFixed(2)] for a quotient that is represented exactly:
    the nearest multiple of 0.01, the larger one in a tie. *)
Definition toFixed2 (num den : nat) : list ascii :=
  let n := (200 * num + den) / (2 * den) in
  decimal (n / 100) ++ str "."
  ++ [digitChar (n mod 100 / 10); digitChar (n mod 10)].

Definition megabyte : nat := 1024 * 1024.

(** The part of a file name before its last dot and the part from this dot
    on. *)
Fixpoint splitLastDot (s : list ascii) : option (list ascii * list ascii) :=
  match s with
  | [] => None
  | c :: t =>
      match splitLastDot t with
      | Some (before, ext) => Some (c :: before, ext)
      | None => if eqc c "." then Some ([], c :: t) else None
      end
  end.

(** [path.extname]: the extension of the last portion of the path, from
    its last dot on; empty when there is no dot, when the only dot is the
    first character of the portion and when the portion is [..]. *)
Definition extname (p : list ascii) : list ascii :=
  match splitLastDot (Path.lastPart p) with
  | None => []
  | Some ([], _) => []
  | Some (_, ext) => if eqs (Path.lastPart p) (str "..") then [] else ext
  end.

Definition unsafePath (p : list ascii) : bool :=
  includes p (str "..") || includes p (str "~").

(** [validateFilePath] *)
Definition validateFilePath (ctx : Limits) (fs : FileSystem)
  (filePath : list ascii) : ValidationResult :=
  if negb (existsSync fs filePath) then
    {| isValid := false;
       errors := [ {| errorType := error;
                      errorMessage := str "File does not exist: " ++ filePath;
                      errorFile := Some filePath;
                      errorLine := None; errorCode := None |} ];
       warnings := [] |}
  else
    let sizeErrors :=
      match statSync fs filePath with
      | inl size =>
          if maxFileSize ctx * megabyte <? size then
            [ {| errorType := error;
                 errorMessage :=
                   str "File size (" ++ toFixed2 size megabyte
                   ++ str "MB) exceeds maximum allowed size ("
                   ++ decimal (maxFileSize ctx) ++ str "MB)";
                 errorFile := Some filePath;
                 errorLine := None; errorCode := None |} ]
          else []
      | inr message =>
          [ {| errorType := error;
               errorMessage := str "Cannot access file: " ++ message;
               errorFile := Some filePath;
               errorLine := None; errorCode := None |} ]
      end in
    let ext := toLowerCase (extname filePath) in
    let typeErrors :=
      if negb (existsb (eqs ext) (allowedFileTypes ctx)) then
        [ {| errorType := error;
             errorMessage :=
               str "File type " ++ ext
               ++ str " is not allowed. Allowed types: "
               ++ join (str ", ") (allowedFileTypes ctx);
             errorFile := Some filePath;
             errorLine := None; errorCode := None |} ]
      else [] in
    let pathWarnings :=
      if unsafePath filePath then
        [ {| warningMessage :=
               str "File path contains potentially unsafe patterns";
             suggestion :=
               Some (str "Use absolute paths or relative paths without parent directory references");
             warningFile := Some filePath; warningLine := None |} ]
      else [] in
    result (sizeErrors ++ typeErrors) pathWarnings.

(** [containsSuspiciousContent]: the eleven patterns, each tried from the
    start of the text. *)
Definition suspiciousPatterns : list regexp :=
  [ Validator.scriptTag;
    Validator.javascriptProtocol;
    Validator.dataTextHtml;
    LitI (str "vbscript:");
    Validator.eventHandler;
    Validator.call (str "eval");
    LitI (str "document.");
    LitI (str "window.");
    Validator.call (str "alert");
    Validator.call (str "confirm");
    Validator.call (str "prompt") ].

Definition containsSuspiciousContent (text : list ascii) : bool :=
  existsb (fun pattern => test pattern text) suspiciousPatterns.

(** [!s || s.trim().length === 0] *)
Definition blank (s : list ascii) : bool :=
  match s with
  | [] => true
  | _ => length (trim s) =? 0
  end.

(** [s && c] for a string [s]. *)
Definition nonEmptyAnd (s : list ascii) (c : bool) : bool :=
  match s with
  | [] => false
  | _ => c
  end.

(** [validateTranslationKey] *)
Definition validateTranslationKey (ctx : Limits) (fs : FileSystem)
  (k : TranslationKey) : ValidationResult :=
  let at_ (t : ErrorType) (message : list ascii) (code : option (list ascii)) :=
    {| errorType := t; errorMessage := message;
       errorFile := Some (file k); errorLine := Some (line k);
       errorCode := code |} in
  let keyErrors :=
    if blank (key k)
    then [at_ critical (str "Translation key is empty") None] else [] in
  let lengthErrors :=
    if nonEmptyAnd (key k) (maxKeyLength ctx <? length (key k))
    then [at_ error
            (str "Translation key length (" ++ decimal (length (key k))
             ++ str ") exceeds maximum allowed length ("
             ++ decimal (maxKeyLength ctx) ++ str ")")
            (Some (key k))]
    else [] in
  let textErrors :=
    if blank (text k)
    then [at_ critical (str "Translation text is empty") None] else [] in
  let textWarnings :=
    if nonEmptyAnd (text k) (containsSuspiciousContent (text k))
    then [ {| warningMessage :=
                str "Translation text contains potentially suspicious content";
              suggestion :=
                Some (str "Review the text for security implications");
              warningFile := Some (file k);
              warningLine := Some (line k) |} ]
    else [] in
  let fileValidation := validateFilePath ctx fs (file k) in
  let lineErrors :=
    if line k <? 1
    then [at_ error (str "Invalid line number") None] else [] in
  result
    (keyErrors ++ lengthErrors ++ textErrors ++ errors fileValidation
     ++ lineErrors)
    (textWarnings ++ warnings fileValidation).

(** The warning for a key that several entries have. *)
Definition duplicateWarning (group : list ascii * list TranslationKey)
  : list ValidationWarning :=
  match snd group with
  | first :: _ :: _ =>
      [ {| warningMessage :=
             str "Duplicate translation key found: " ++ fst group;
           suggestion :=
             Some (str "Consider consolidating duplicate keys or using different keys");
           warningFile := Some (file first);
           warningLine := Some (line first) |} ]
  | _ => []
  end.

(** The [Map] [duplicateKeys]: for each key that is not empty, the entries
    that have it, the keys in the order in which they are first met. *)
Definition duplicateKeys (keys : list TranslationKey)
  : list (list ascii * list TranslationKey) :=
  fold_left
    (fun groups k =>
       match key k with
       | [] => groups
       | _ => Generator.addToService (key k) k groups
       end)
    keys [].

(** [validateTranslationKeys] *)
Definition validateTranslationKeys (ctx : Limits) (fs : FileSystem)
  (keys : list TranslationKey) : ValidationResult :=
  result
    (flat_map (fun k => errors (validateTranslationKey ctx fs k)) keys)
    (flat_map (fun k => warnings (validateTranslationKey ctx fs k)) keys
     ++ flat_map duplicateWarning (duplicateKeys keys)).

(** [validateInputString] *)
Definition validateInputString (input context : list ascii)
  : ValidationResult :=
  result
    (if blank input
     then [ {| errorType := error;
               errorMessage := context ++ str " cannot be empty";
               errorFile := None; errorLine := None; errorCode := None |} ]
     else [])
    ((if nonEmptyAnd input (1000 <? length input)
      then [ {| warningMessage :=
                  context ++ str " is very long ("
                  ++ decimal (length input) ++ str " characters)";
                suggestion :=
                  Some (str "Consider breaking it into smaller parts");
                warningFile := None; warningLine := None |} ]
      else [])
     ++ (if nonEmptyAnd input (containsSuspiciousContent input)
         then [ {| warningMessage :=
                     context ++ str " contains potentially suspicious content";
                   suggestion :=
                     Some (str "Review the input for security implications");
                   warningFile := None; warningLine := None |} ]
         else [])).

(** [validatePath] *)
Definition validatePath (p : list ascii) : ValidationResult :=
  result
    ((if blank p
      then [ {| errorType := error;
                errorMessage := str "Path cannot be empty";
                errorFile := None; errorLine := None; errorCode := None |} ]
      else [])
     ++ (if existsb (fun c => code c =? 0) p
         then [ {| errorType := critical;
                   errorMessage := str "Path contains null bytes";
                   errorFile := None; errorLine := None;
                   errorCode := None |} ]
         else []))
    (if unsafePath p
     then [ {| warningMessage :=
                 str "Path contains potentially unsafe patterns";
               suggestion :=
                 Some (str "Use absolute paths or relative paths without parent directory references");
               warningFile := None; warningLine := None |} ]
     else []).

End Validation.

(** ** [Logger] ([utils/logger.ts])

    The state of the logger and what its methods do to it.  The levels
    ['debug'], ['info'], ['warn'] and ['error'] are [Debug], [Info], [Warn]
    and [Error]; the formats ['text'] and ['json'] are [FText] and [FJson];
    the outputs ['console'], ['file'] and ['both'] are [OConsole], [OFile]
    and [OBoth].  The type of the metadata of an entry, which the logger
    only passes on, is left open. *)

Module Logger.
Import JS.

Inductive LogLevel : Type := Debug | Info | Warn | Error.
Inductive LogFormat : Type := FText | FJson.
Inductive LogOutput : Type := OConsole | OFile | OBoth.

Section WithMetadata.
Variable Metadata : Type.

Record LogEntry : Type := {
  timestamp : list ascii;
  level : LogLevel;
  message : list ascii;
  logContext : option (list ascii);          (* the field [context] *)
  metadata : option Metadata
}.

Record State : Type := {
  verbose : bool;
  logLevel : LogLevel;
  logFormat : LogFormat;
  logOutput : LogOutput;
  logFilePath : option (list ascii);
  logBuffer : list LogEntry
}.

Definition maxBufferSize : nat := 1000.

(** The logger when it is created. *)
Definition initial : State :=
  {| verbose := false; logLevel := Info; logFormat := FText;
     logOutput := OConsole; logFilePath := None; logBuffer := [] |}.

(** [Partial<CLIConfig['logging']>] *)
Record LoggingConfig : Type := {
  configLevel : option LogLevel;              (* the field [level] *)
  configFormat : option LogFormat;            (* the field [format] *)
  configOutput : option LogOutput;            (* the field [output] *)
  configFilePath : option (list ascii)        (* the field [filePath] *)
}.

(** [configure] *)
Definition configure (config : LoggingConfig) (s : State) : State :=
  {| verbose := verbose s;
     logLevel := match configLevel config with
                 | Some l => l
                 | None => logLevel s
                 end;
     logFormat := match configFormat config with
                  | Some f => f
                  | None => logFormat s
                  end;
     logOutput := match configOutput config with
                  | Some o => o
                  | None => logOutput s
                  end;
     logFilePath := match configFilePath config with
                    | Some (c :: p) => Some (c :: p)
                    | _ => logFilePath s
                    end;
     logBuffer := logBuffer s |}.

(** [setVerbose] *)
Definition setVerbose (v : bool) (s : State) : State :=
  {| verbose := v;
     logLevel := if v then Debug else Info;
     logFormat := logFormat s; logOutput := logOutput s;
     logFilePath := logFilePath s; logBuffer := logBuffer s |}.

(** [{ debug: 0, info: 1, warn: 2, error: 3 }] *)
Definition levels (l : LogLevel) : nat :=
  match l with Debug => 0 | Info => 1 | Warn => 2 | Error => 3 end.

(** [shouldLog] *)
Definition shouldLog (s : State) (l : LogLevel) : bool :=
  levels (logLevel s) <=? levels l.

(** [logBuffer.push(entry)], then [logBuffer.shift()] when the buffer is
    longer than [maxBufferSize]. *)
Definition buffered (entry : LogEntry) (buffer : list LogEntry)
  : list LogEntry :=
  let pushed := buffer ++ [entry] in
  if maxBufferSize <? length pushed then tl pushed else pushed.

(** [writeLog], reduced to the state it leaves: the entry joins the
    buffer (what is appended to the log file and printed on the console
    does not change the state). *)
Definition writeLog (entry : LogEntry) (s : State) : State :=
  {| verbose := verbose s; logLevel := logLevel s;
     logFormat := logFormat s; logOutput := logOutput s;
     logFilePath := logFilePath s;
     logBuffer := buffered entry (logBuffer s) |}.

(** A call of one of the methods [info], [success], [warning], [error]
    and [debug], with the time of the call. *)
Inductive Method : Type := MInfo | MSuccess | MWarning | MError | MDebug.

(** The level that the method checks and gives to its entry. *)
Definition methodLevel (mth : Method) : LogLevel :=
  match mth with
  | MInfo | MSuccess => Info
  | MWarning => Warn
  | MError => Error
  | MDebug => Debug
  end.

Record Call : Type := {
  method : Method;
  callTime : list ascii;                (* new Date().toISOString() *)
  callMessage : list ascii;
  callContext : option (list ascii);
  callMetadata : option Metadata
}.

(** [createLogEntry] *)
Definition createLogEntry (c : Call) : LogEntry :=
  {| timestamp := callTime c; level := methodLevel (method c);
     message := callMessage c; logContext := callContext c;
     metadata := callMetadata c |}.

(** The methods [info], [success], [warning], [error] and [debug]. *)
Definition call (c : Call) (s : State) : State :=
  if shouldLog s (methodLevel (method c))
  then writeLog (createLogEntry c) s
  else s.

(** A sequence of calls. *)
Definition calls (cs : list Call) (s : State) : State :=
  fold_left (fun s c => call c s) cs s.

(** [getLogBuffer] and [clearLogBuffer] *)
Definition getLogBuffer (s : State) : list LogEntry := logBuffer s.
Definition clearLogBuffer (s : State) : State :=
  {| verbose := verbose s; logLevel := logLevel s;
     logFormat := logFormat s; logOutput := logOutput s;
     logFilePath := logFilePath s; logBuffer := [] |}.

End WithMetadata.

Arguments timestamp {Metadata}.
Arguments level {Metadata}.
Arguments message {Metadata}.
Arguments logContext {Metadata}.
Arguments metadata {Metadata}.
Arguments verbose {Metadata}.
Arguments logLevel {Metadata}.
Arguments logFormat {Metadata}.
Arguments logOutput {Metadata}.
Arguments logFilePath {Metadata}.
Arguments logBuffer {Metadata}.
Arguments configure {Metadata}.
Arguments setVerbose {Metadata}.
Arguments shouldLog {Metadata}.
Arguments buffered {Metadata}.
Arguments writeLog {Metadata}.
Arguments method {Metadata}.
Arguments callMessage {Metadata}.
Arguments createLogEntry {Metadata}.
Arguments getLogBuffer {Metadata}.
Arguments clearLogBuffer {Metadata}.
Arguments methodLevel : clear implicits.
Arguments call {Metadata}.
Arguments calls {Metadata}.

End Logger.

(** ** The summary of [extract] ([groupByService] of the extractor)

    The object [types] of a service counts the entries of each type.  Its
    values are numbers, except under the names that an object inherits
    from [Object.prototype]: there [(types[name] || 0) + 1] appends [1] to
    a value that is not a number and gives a string (which the assignment
    to [__proto__] ignores). *)

Module Summary.
Import JS.

Inductive Value : Type :=
| Number (n : nat)
| Text.                         (* some string *)

(** The names that an object literal inherits. *)
Definition inheritedNames : list (list ascii) :=
  [str "constructor"; str "hasOwnProperty"; str "isPrototypeOf";
   str "propertyIsEnumerable"; str "toLocaleString"; str "toString";
   str "valueOf"; str "__proto__"; str "__defineGetter__";
   str "__defineSetter__"; str "__lookupGetter__"; str "__lookupSetter__"].

(** The own property [name]. *)
Fixpoint own (name : list ascii) (types : list (list ascii * Value))
  : option Value :=
  match types with
  | [] => None
  | (n, v) :: types' => if eqs n name then Some v else own name types'
  end.

(** [types[name] = v] for a name that is not [__proto__]. *)
Fixpoint assign (name : list ascii) (v : Value)
  (types : list (list ascii * Value)) : list (list ascii * Value) :=
  match types with
  | [] => [(name, v)]
  | (n, v') :: types' =>
      if eqs n name then (n, v) :: types'
      else (n, v') :: assign name v types'
  end.

(** [types[name] = (types[name] || 0) + 1] *)
Definition bump (name : list ascii) (types : list (list ascii * Value))
  : list (list ascii * Value) :=
  match own name types with
  | Some (Number n) => assign name (Number (n + 1)) types
  | Some Text => assign name Text types
  | None =>
      if existsb (eqs name) inheritedNames then
        if eqs name (str "__proto__") then types
        else assign name Text types
      else assign name (Number 1) types
  end.

(** The value of the [Map] for a service. *)
Record Counts : Type := {
  total : nat;
  types : list (list ascii * Value)
}.

(** One iteration of [strings.forEach]: the entry of the service is
    created when it is missing, its total grows by one and the count of
    the type is bumped. *)
Fixpoint addItem (serviceName type : list ascii)
  (serviceMap : list (list ascii * Counts)) : list (list ascii * Counts) :=
  match serviceMap with
  | [] => [(serviceName, {| total := 1; types := bump type [] |})]
  | (n, c) :: serviceMap' =>
      if eqs n serviceName
      then (n, {| total := S (total c); types := bump type (types c) |})
           :: serviceMap'
      else (n, c) :: addItem serviceName type serviceMap'
  end.

(** [data.types.NAME || 0] for a name that objects do not inherit: a
    number, or [None] for a value that is not a number. *)
Definition numberOf (name : list ascii) (types : list (list ascii * Value))
  : option Z :=
  match own name types with
  | Some (Number n) => Some (Z.of_nat n)
  | Some Text => None
  | None => Some 0%Z
  end.

(** A row of the table; [None] stands for a value that is not a number. *)
Record Row : Type := {
  service : list ascii;                 (* Service *)
  totalKeys : nat;                      (* 'Total Keys' *)
  exceptionKeys : option Z;             (* 'Exception Keys' *)
  templateKeys : option Z;              (* 'Template Keys' *)
  otherKeys : option Z                  (* 'Other Keys' *)
}.

Definition rowOf (e : list ascii * Counts) : Row :=
  let exceptions := numberOf (str "EXCEPTION") (types (snd e)) in
  let templates := numberOf (str "TEMPLATE_LITERAL") (types (snd e)) in
  {| service := fst e;
     totalKeys := total (snd e);
     exceptionKeys := exceptions;
     templateKeys := templates;
     otherKeys :=
       match exceptions, templates with
       | Some x, Some t => Some (Z.of_nat (total (snd e)) - x - t)%Z
       | _, _ => None
       end |}.

(** [groupByService] *)
Definition groupByService (strings : list TranslationKey) : list Row :=
  map rowOf
    (fold_left
       (fun serviceMap item =>
          addItem (Generator.firstSegment (file item)) (type item) serviceMap)
       strings []).

End Summary.

(** ** [ConfigManager] ([utils/config.ts])

    The numbers of the configuration are integers or [NaN], which is what
    [parseInt] gives for a text that does not start with a number; every
    comparison with [NaN] is false and [Math.min] gives [NaN] as soon as
    one argument is [NaN]. *)

Module Config.
Import JS.

Inductive Number : Type := NaN | Int (z : Z).

(** [a < b] and [a > b] *)
Definition lt (a b : Number) : bool :=
  match a, b with
  | Int x, Int y => (x <? y)%Z
  | _, _ => false
  end.
Definition gt (a b : Number) : bool := lt b a.

(** [Math.min(a, b)] *)
Definition min (a b : Number) : Number :=
  match a, b with
  | Int x, Int y => Int (Z.min x y)
  | _, _ => NaN
  end.

Record Logging : Type := {
  level : list ascii;
  format : list ascii;
  output : list ascii;
  filePath : option (list ascii)
}.

Record Performance : Type := {
  maxConcurrency : Number;
  maxFileSize : Number;
  timeout : Number
}.

Record Security : Type := {
  validateInputs : bool;
  sanitizeOutputs : bool;
  maxKeyLength : Number
}.

Record Features : Type := {
  enableValidation : bool;
  enableBackup : bool;
  enableDryRun : bool;
  enableProgressBar : bool
}.

Record CLIConfig : Type := {
  version : list ascii;
  environment : list ascii;
  logging : Logging;
  performance : Performance;
  security : Security;
  features : Features
}.

(** [validateConfig]: the list of the errors; the configuration is valid
    when it is empty. *)
Definition outside (lo hi : Z) (n : Number) : bool :=
  lt n (Int lo) || gt n (Int hi).

Definition validateConfig (config : CLIConfig) : list (list ascii) :=
  (match version config with
   | [] => [str "Version is required"]
   | _ => []
   end)
  ++ (if negb (existsb (eqs (environment config))
                 [str "development"; str "staging"; str "production"])
      then [str "Environment must be one of: development, staging, production"]
      else [])
  ++ (if outside 1 20 (maxConcurrency (performance config))
      then [str "Max concurrency must be between 1 and 20"] else [])
  ++ (if outside 1 100 (maxFileSize (performance config))
      then [str "Max file size must be between 1 and 100 MB"] else [])
  ++ (if outside 30 3600 (timeout (performance config))
      then [str "Timeout must be between 30 and 3600 seconds"] else [])
  ++ (if outside 10 500 (maxKeyLength (security config))
      then [str "Max key length must be between 10 and 500 characters"]
      else []).

Definition isValid (config : CLIConfig) : bool :=
  length (validateConfig config) =? 0.

(** [getEnvironmentConfig] *)
Definition getEnvironmentConfig (config : CLIConfig) : CLIConfig :=
  if eqs (environment config) (str "production") then
    {| version := version config;
       environment := environment config;
       logging := {| level := str "warn";
                     format := str "json";
                     output := output (logging config);
                     filePath := filePath (logging config) |};
       performance :=
         {| maxConcurrency :=
              min (maxConcurrency (performance config)) (Int 8);
            maxFileSize := maxFileSize (performance config);
            timeout := timeout (performance config) |};
       security := {| validateInputs := true;
                      sanitizeOutputs := true;
                      maxKeyLength := maxKeyLength (security config) |};
       features := features config |}
  else if eqs (environment config) (str "staging") then
    {| version := version config;
       environment := environment config;
       logging := {| level := str "info";
                     format := format (logging config);
                     output := output (logging config);
                     filePath := filePath (logging config) |};
       performance := performance config;
       security := {| validateInputs := true;
                      sanitizeOutputs := sanitizeOutputs (security config);
                      maxKeyLength := maxKeyLength (security config) |};
       features := features config |}
  else config.

End Config.

(** ** Further notions used to state properties *)

Module Notions.
Import JS Regex.

(** The length of the longest prefix of [s] made of characters of the
    class [q]. *)
Fixpoint runLength (q : ascii -> bool) (s : list ascii) : nat :=
  match s with
  | c :: t => if q c then S (runLength q t) else 0
  | [] => 0
  end.

(** [s] with every maximal run of characters of the class [q] replaced by
    [by_]; [inRun] tells that the character before [s] belongs to a run
    that has been replaced already. *)
Fixpoint collapse (q : ascii -> bool) (by_ : list ascii) (inRun : bool)
  (s : list ascii) : list ascii :=
  match s with
  | [] => []
  | c :: t =>
      if q c then (if inRun then [] else by_) ++ collapse q by_ true t
      else c :: collapse q by_ false t
  end.

(** The characters that the normalization of a text keeps. *)
Definition wordOrSpace (c : ascii) : bool := isWord c || isSpace c.

(** The number of lines of a text. *)
Definition lineCount (content : list ascii) : nat :=
  length (split "010" content).

(** An angle bracket. *)
Definition isAngle (c : ascii) : bool := eqc c "<" || eqc c ">".

(** The content that [replaceInFile] computes for a file. *)
Definition replacedContent (filePath : list ascii)
  (translationKeys : list TranslationKey) (content : list ascii)
  : list ascii :=
  fst (fst (Replacer.applyPatterns filePath
              (Replacer.patterns (Replacer.textToKeyMap translationKeys))
              content 0 [])).

(** Two worlds that differ by events that are not writes. *)
Definition quiet (w w' : World) : Prop :=
  files w' = files w /\ sizes w' = sizes w /\ json w' = json w
  /\ tsFiles w' = tsFiles w /\ now w' = now w
  /\ Spec.writesOf (events w') = Spec.writesOf (events w).

(** [data.keys || []] *)
Definition keysOrEmpty (data : JsonData) : list TranslationKey :=
  match keys data with Some ks => ks | None => [] end.

(** The keys of the service [name] in a [Map] of services. *)
Definition keysOfService (name : list ascii)
  (serviceMap : list (list ascii * list TranslationKey))
  : list TranslationKey :=
  match find (fun e => eqs (fst e) name) serviceMap with
  | Some e => snd e
  | None => []
  end.

(** The entries of a dataset whose file lies under the directory [name]. *)
Definition inService (name : list ascii) (ks : list TranslationKey)
  : list TranslationKey :=
  List.filter (fun k => eqs (Generator.firstSegment (file k)) name) ks.

(** A property whose name is an array index. *)
Definition hasIndexName (e : list ascii * list ascii) : bool :=
  match JSObject.arrayIndex (fst e) with Some _ => true | None => false end.

(** The value of a template for the text [value]. *)
Definition todo (lang value : list ascii) : list ascii :=
  str "TODO: Translate " ++ [dquote] ++ value ++ [dquote]
  ++ str " to " ++ lang.

(** The lines that [replaceInFile] logs for the replacements in a file. *)
Definition loggedChanges (filePath : list ascii)
  (translationKeys : list TranslationKey) (content : list ascii)
  : list Event :=
  snd (Replacer.applyPatterns filePath
         (Replacer.patterns (Replacer.textToKeyMap translationKeys))
         content 0 []).

(** The events of [replaceInFile] on a file that holds [content]. *)
Definition fileEvents (filePath : list ascii)
  (translationKeys : list TranslationKey) (backup dryRun : bool)
  (content : list ascii) : list Event :=
  let n := Spec.replacementCount filePath translationKeys content in
  let newContent := replacedContent filePath translationKeys content in
  loggedChanges filePath translationKeys content
  ++ (if (0 <? n) && negb dryRun then
        (if backup
         then [EWrite (filePath ++ str ".backup") content;
               ELog LDebug (str "Created backup: " ++ filePath
                            ++ str ".backup")]
         else [])
        ++ [EWrite filePath newContent;
            ELog LInfo (str "Updated " ++ filePath ++ str " with "
                        ++ decimal n ++ str " replacements")]
      else if (0 <? n) && dryRun then
        [ELog LInfo (str "[DRY RUN] Would update " ++ filePath
                     ++ str " with " ++ decimal n ++ str " replacements")]
      else if n =? 0 then
        [ELog LDebug (str "No replacements needed for " ++ filePath)]
      else []).

(** The line that closes a run of [replace]. *)
Definition completed (total : nat) : Event :=
  ELog LSuccess (str "Replacement completed! Total replacements: "
                 ++ decimal total).

(** The table that closes a run of [replace]. *)
Definition summaryEvents (rows : list (list ascii * nat)) : list Event :=
  match rows with
  | [] => []
  | _ => ELog LSection (str "Replacement Summary")
         :: map Replacer.summaryRow rows
  end.

(** The lines that open a run of [replace]. *)
Definition replaceOpening (options : Replacer.ReplaceOptions)
  (loaded found : nat) : list Event :=
  [ELog LHeader (str "Translation String Replacement");
   ELog LInfo (str "Searching in: " ++ Replacer.path options);
   ELog LInfo (str "Using keys from: " ++ Replacer.keysFile options);
   ELog LInfo (str "Loaded " ++ decimal loaded ++ str " translation keys");
   ELog LInfo (str "Found " ++ decimal found ++ str " TypeScript files")].

(** The rows of the summary of a dry run: the files that can be read and
    where something would be replaced, with the number of replacements. *)
Definition dryRows (w : World) (translationKeys : list TranslationKey)
  (fileList : list (list ascii)) : list (list ascii * nat) :=
  omap (fun f =>
          match files w !! f with
          | Some content =>
              let n := Spec.replacementCount f translationKeys content in
              if 0 <? n then Some (f, n) else None
          | None => None
          end)
    fileList.

(** The number of entries of a given type. *)
Definition ofType (name : list ascii) (ks : list TranslationKey) : nat :=
  length (List.filter (fun k => eqs (type k) name) ks).

(** The counts of a service in the [Map] of the summary. *)
Definition countsOf (n : list ascii)
  (serviceMap : list (list ascii * Summary.Counts))
  : option Summary.Counts :=
  match find (fun e => eqs (fst e) n) serviceMap with
  | Some e => Some (snd e)
  | None => None
  end.

(** The counts of a service after some more of its entries. *)
Definition fed (c0 : option Summary.Counts) (items : list TranslationKey)
  : option Summary.Counts :=
  fold_left
    (fun oc item =>
       Some match oc with
            | Some c =>
                {| Summary.total := S (Summary.total c);
                   Summary.types :=
                     Summary.bump (type item) (Summary.types c) |}
            | None =>
                {| Summary.total := 1;
                   Summary.types := Summary.bump (type item) [] |}
            end)
    items c0.

(** The last [n] elements of a list. *)
Definition lastN {A} (n : nat) (l : list A) : list A :=
  skipn (length l - n) l.

End Notions.

(** * Proofs *)

Import JS Regex Spec.

(** * Properties of the matcher *)

Lemma reaches_refl x : reaches x x.
Proof. split; lia. Qed.

Lemma reaches_trans x y z : reaches x y -> reaches y z -> reaches x z.
Proof. unfold reaches; intros [? ?] [? ?]; split; lia. Qed.

Lemma reaches_advance x c t : rest x = c :: t -> reaches x (advance x c t).
Proof. unfold reaches; intros E; rewrite E; simpl; lia. Qed.

(** The continuation of a quantifier is only called further on. *)
Lemma repeat_sound mr gs greedy k :
  (forall x k' z, mr x k' = Some z -> exists y, k' y = Some z /\ reaches x y) ->
  forall fuel mn mx x z,
    repeat mr gs greedy k fuel mn mx x = Some z ->
    exists y, k y = Some z /\ reaches x y.
Proof.
  intros Hmr fuel.
  induction fuel as [|fuel IHf]; intros mn mx x z H; [done|].
  simpl in H.
  assert (Hk : forall z', k x = Some z' ->
            exists y, k y = Some z' /\ reaches x y).
  { intros z' Hz'. exists x; split; [done | apply reaches_refl]. }
  assert (Hiter : forall z',
    mr (clearCaps gs x)
       (fun y => if (mn =? 0) && (pos y =? pos x) then None
                 else repeat mr gs greedy k fuel (Nat.pred mn)
                        (option_map Nat.pred mx) y) = Some z' ->
    exists y, k y = Some z' /\ reaches x y).
  { intros z' Hz'. apply Hmr in Hz' as (y & Hy & Hxy).
    destruct ((mn =? 0) && (pos y =? pos x)); [done|].
    apply IHf in Hy as (y' & Hy' & Hyy').
    exists y'; split; [done|].
    eapply reaches_trans; [|exact Hyy']. exact Hxy. }
  assert (Hcases :
    (if 0 <? mn
     then mr (clearCaps gs x)
            (fun y => if (mn =? 0) && (pos y =? pos x) then None
                      else repeat mr gs greedy k fuel (Nat.pred mn)
                             (option_map Nat.pred mx) y)
     else if greedy
          then orElse
                 (mr (clearCaps gs x)
                    (fun y => if (mn =? 0) && (pos y =? pos x) then None
                              else repeat mr gs greedy k fuel (Nat.pred mn)
                                     (option_map Nat.pred mx) y)) (k x)
          else orElse (k x)
                 (mr (clearCaps gs x)
                    (fun y => if (mn =? 0) && (pos y =? pos x) then None
                              else repeat mr gs greedy k fuel (Nat.pred mn)
                                     (option_map Nat.pred mx) y))) = Some z ->
    exists y, k y = Some z /\ reaches x y).
  { intros Hc. destruct (0 <? mn); [by apply Hiter|].
    destruct greedy; unfold orElse in Hc.
    - destruct (mr _ _) eqn:E.
      + injection Hc as <-. by apply Hiter.
      + by apply Hk.
    - destruct (k x) eqn:E.
      + injection Hc as <-. by apply Hk.
      + by apply Hiter. }
  destruct mx as [[|mx]|]; [by apply Hk | by apply Hcases | by apply Hcases].
Qed.

(** A successful match calls its continuation on a state further on in
    the same input. *)
Lemma m_sound r : forall x k z,
  m r x k = Some z -> exists y, k y = Some z /\ reaches x y.
Proof.
  induction r as [ | c | c | p | r1 IH1 r2 IH2 | r1 IH1 r2 IH2
                 | g mn mx r IH | n r IH | r IH | | ];
    intros x k z H; [simpl in H .. | | simpl in H | simpl in H | simpl in H | simpl in H].
  - exists x; split; [done | apply reaches_refl].
  - destruct (rest x) as [|c' t] eqn:E; [done|].
    destruct (eqc c c'); [|done].
    eexists; split; [exact H | by apply reaches_advance].
  - destruct (rest x) as [|c' t] eqn:E; [done|].
    destruct (eqc _ _); [|done].
    eexists; split; [exact H | by apply reaches_advance].
  - destruct (rest x) as [|c' t] eqn:E; [done|].
    destruct (p c'); [|done].
    eexists; split; [exact H | by apply reaches_advance].
  - apply IH1 in H as (y & Hy & Hxy).
    apply IH2 in Hy as (y' & Hy' & Hyy').
    exists y'; split; [done | eapply reaches_trans; eauto].
  - unfold orElse in H. destruct (m r1 x k) eqn:E1.
    + injection H as <-. by apply IH1.
    + by apply IH2.
  - eapply repeat_sound; [|exact H]. exact IH.
  - apply IH in H as (y & Hy & Hxy).
    eexists; split; [exact Hy | exact Hxy].
  - destruct (m r x Some); [done|].
    exists x; split; [done | apply reaches_refl].
  - destruct (xorb _ _); [|done].
    exists x; split; [done | apply reaches_refl].
  - destruct (rest x) as [|c t] eqn:E.
    + exists x; split; [done | apply reaches_refl].
    + destruct (isLineTerminator c); [|done].
      exists x; split; [done | apply reaches_refl].
Qed.

(** A match at a position starts there and ends within the input. *)
Lemma matchAt_bounds r p s i res :
  matchAt r p s i = Some res ->
  index res = i /\ i <= endIndex res /\ endIndex res <= i + length s.
Proof.
  unfold matchAt. destruct (m r _ Some) as [y|] eqn:E; [|done].
  intros [= <-]. apply m_sound in E as (y' & Hy' & [H1 H2]).
  simplify_eq. simpl in *. lia.
Qed.

(** The position in an input: the character before it, the rest. *)
Lemma charBefore_S s i c t :
  skipn i s = c :: t -> charBefore s (S i) = Some c /\ skipn (S i) s = t.
Proof.
  revert s; induction i as [|i IH]; intros [|a s] E; simpl in *; try done.
  - by injection E as -> ->.
  - exact (IH s E).
Qed.

(** [scan] finds a match at some position at or after its start, and the
    search from that position finds the same match. *)
Lemma scan_found r content : forall n i res,
  i + n = length content ->
  scan r (charBefore content i) (skipn i content) i = Some res ->
  i <= index res /\ index res <= endIndex res
  /\ endIndex res <= length content
  /\ scan r (charBefore content (index res)) (skipn (index res) content)
       (index res) = Some res.
Proof.
  induction n as [|n IH]; intros i res Hlen H.
  - assert (Hs : skipn i content = []) by (apply skipn_all2; lia).
    rewrite Hs in H. simpl in H.
    destruct (matchAt r _ [] i) as [res'|] eqn:E; [|done].
    injection H as ->. pose proof (matchAt_bounds _ _ _ _ _ E) as (H1 & H2 & H3).
    simpl in H3. rewrite H1, Hs. simpl. rewrite E. repeat split; lia.
  - destruct (skipn i content) as [|c t] eqn:Hs.
    { assert (length (skipn i content) = S n) by (rewrite length_skipn; lia).
      rewrite Hs in H0. done. }
    simpl in H.
    destruct (matchAt r _ (c :: t) i) as [res'|] eqn:E.
    + injection H as ->.
      pose proof (matchAt_bounds _ _ _ _ _ E) as (H1 & H2 & H3).
      assert (length (c :: t) = S n) by (rewrite <- Hs, length_skipn; lia).
      rewrite H1, Hs. simpl. rewrite E. repeat split; lia.
    + destruct (charBefore_S _ _ _ _ Hs) as [Hc Ht].
      rewrite <- Hc, <- Ht in H.
      apply IH in H; [|lia]. destruct H as (? & ? & ? & ?).
      repeat split; try lia; done.
Qed.

(** [exec] finds a match between [lastIndex] and the end of the input, and
    [exec] from the start of that match finds it again. *)
Lemma exec_bounds r content lastIndex res :
  exec r content lastIndex = Some res ->
  lastIndex <= index res /\ index res <= endIndex res
  /\ endIndex res <= length content
  /\ exec r content (index res) = Some res.
Proof.
  unfold exec. destruct (length content <? lastIndex) eqn:E; [done|].
  apply Nat.ltb_ge in E. intros H.
  apply (scan_found r content (length content - lastIndex)) in H; [|lia].
  destruct H as (H1 & H2 & H3 & H4). repeat split; try done.
  assert (E' : (length content <? index res) = false) by (apply Nat.ltb_ge; lia).
  by rewrite E'.
Qed.

(** * The fuel of the quantifier is never the reason of a failure *)

Lemma repeat_ext mr gs greedy :
  (forall x k1 k2, (forall y, reaches x y -> k1 y = k2 y) ->
                   mr x k1 = mr x k2) ->
  forall fuel mn mx x k1 k2,
    (forall y, reaches x y -> k1 y = k2 y) ->
    repeat mr gs greedy k1 fuel mn mx x = repeat mr gs greedy k2 fuel mn mx x.
Proof.
  intros Hmr fuel. induction fuel as [|fuel IH]; intros mn mx x k1 k2 Hk;
    [done|].
  simpl. rewrite (Hk x (reaches_refl x)).
  assert (Hd : mr (clearCaps gs x)
                 (fun y => if (mn =? 0) && (pos y =? pos x) then None
                           else repeat mr gs greedy k1 fuel (Nat.pred mn)
                                  (option_map Nat.pred mx) y)
               = mr (clearCaps gs x)
                   (fun y => if (mn =? 0) && (pos y =? pos x) then None
                             else repeat mr gs greedy k2 fuel (Nat.pred mn)
                                    (option_map Nat.pred mx) y)).
  { apply Hmr. intros y Hy. destruct (_ && _); [done|].
    apply IH. intros z Hz. apply Hk. eapply reaches_trans; [exact Hy|done]. }
  by rewrite Hd.
Qed.

(** The result of a match depends on its continuation only at the states
    further on in the input. *)
Lemma m_ext r : forall x k1 k2,
  (forall y, reaches x y -> k1 y = k2 y) -> m r x k1 = m r x k2.
Proof.
  induction r as [ | c | c | p | r1 IH1 r2 IH2 | r1 IH1 r2 IH2
                 | g mn mx r IH | n r IH | r IH | | ];
    intros x k1 k2 Hk.
  - apply Hk, reaches_refl.
  - simpl. destruct (rest x) as [|c' t] eqn:E; [done|].
    destruct (eqc c c'); [|done]. by apply Hk, reaches_advance.
  - simpl. destruct (rest x) as [|c' t] eqn:E; [done|].
    destruct (eqc _ _); [|done]. by apply Hk, reaches_advance.
  - simpl. destruct (rest x) as [|c' t] eqn:E; [done|].
    destruct (p c'); [|done]. by apply Hk, reaches_advance.
  - simpl. apply IH1. intros y Hy. apply IH2. intros z Hz.
    apply Hk. eapply reaches_trans; eauto.
  - simpl. by rewrite (IH1 x k1 k2 Hk), (IH2 x k1 k2 Hk).
  - change (m (Rep g mn mx r) x k1) with
      (repeat (m r) (groupsOf r) g k1 (S (mn + length (rest x))) mn mx x).
    change (m (Rep g mn mx r) x k2) with
      (repeat (m r) (groupsOf r) g k2 (S (mn + length (rest x))) mn mx x).
    by apply repeat_ext.
  - simpl. apply IH. intros y Hy. by apply Hk.
  - simpl. by rewrite (Hk x (reaches_refl x)).
  - simpl. by rewrite (Hk x (reaches_refl x)).
  - simpl. by rewrite (Hk x (reaches_refl x)).
Qed.

(** More fuel than the bound changes nothing. *)
Lemma repeat_fuel r gs greedy k : forall fuel1 fuel2 mn mx x,
  mn + length (rest x) < fuel1 -> mn + length (rest x) < fuel2 ->
  repeat (m r) gs greedy k fuel1 mn mx x
  = repeat (m r) gs greedy k fuel2 mn mx x.
Proof.
  induction fuel1 as [|fuel1 IH]; intros fuel2 mn mx x H1 H2; [lia|].
  destruct fuel2 as [|fuel2]; [lia|]. simpl.
  assert (Hd : m r (clearCaps gs x)
                 (fun y => if (mn =? 0) && (pos y =? pos x) then None
                           else repeat (m r) gs greedy k fuel1 (Nat.pred mn)
                                  (option_map Nat.pred mx) y)
               = m r (clearCaps gs x)
                   (fun y => if (mn =? 0) && (pos y =? pos x) then None
                             else repeat (m r) gs greedy k fuel2 (Nat.pred mn)
                                    (option_map Nat.pred mx) y)).
  { apply m_ext. intros y [Hy1 Hy2]. simpl in Hy1, Hy2.
    destruct (mn =? 0) eqn:Emn, (pos y =? pos x) eqn:Epos; simpl; try done.
    - apply Nat.eqb_eq in Emn. apply Nat.eqb_neq in Epos.
      apply IH; subst; simpl; lia.
    - apply Nat.eqb_neq in Emn. apply IH; lia.
    - apply Nat.eqb_neq in Emn. apply IH; lia. }
  by rewrite Hd.
Qed.

Lemma m_Rep_fuel greedy mn mx r x k fuel :
  mn + length (rest x) < fuel ->
  m (Rep greedy mn mx r) x k = repeat (m r) (groupsOf r) greedy k fuel mn mx x.
Proof. intros H. apply repeat_fuel; lia. Qed.

(** * The [while (exec)] loop of [extractFromFile] *)

Section WhileExec.
Import Extractor.
Variable body : result -> option TranslationKey.
Variable r : regexp.
Variable content : list ascii.

(** A match that leaves [lastIndex] where it was is found again at every
    iteration: the loop never ends. *)
Lemma whileExec_stuck lastIndex res :
  exec r content lastIndex = Some res ->
  endIndex res = lastIndex ->
  forall fuel, whileExec fuel body r content lastIndex = None.
Proof.
  intros He Hend fuel. induction fuel as [|fuel IH]; [done|].
  simpl. rewrite He, Hend, IH. done.
Qed.

Lemma chain_not_stuck lastIndex ms :
  matchChain r content lastIndex ms ->
  forall res, exec r content lastIndex = Some res ->
              endIndex res <> lastIndex.
Proof.
  induction 1 as [L Hn | L res0 ms He Hc IH]; intros res Hres Hend.
  - congruence.
  - rewrite He in Hres. injection Hres as ->.
    apply (IH res); [by rewrite Hend | by rewrite Hend].
Qed.

(** In a loop that ends every match moves [lastIndex] forward. *)
Lemma chain_progress lastIndex res ms :
  matchChain r content lastIndex (res :: ms) ->
  lastIndex < endIndex res /\ endIndex res <= length content.
Proof.
  intros Hc. pose proof (chain_not_stuck _ _ Hc) as Hns.
  inversion Hc as [|L res' ms' He Hc']; subst.
  destruct (exec_bounds _ _ _ _ He) as (H1 & H2 & H3 & _).
  specialize (Hns _ He). lia.
Qed.

(** The matches of a loop that ends are found at strictly increasing
    positions, and none overlaps the next. *)
Lemma chain_sorted lastIndex ms :
  matchChain r content lastIndex ms ->
  Forall (fun a => lastIndex <= index a) ms
  /\ StronglySorted (fun a b => index a < index b) ms.
Proof.
  induction 1 as [L Hn | L res ms He Hc [IH1 IH2]].
  - split; constructor.
  - destruct (exec_bounds _ _ _ _ He) as (H1 & H2 & H3 & H4).
    assert (Hlt : index res < endIndex res).
    { destruct (Nat.eq_dec (index res) (endIndex res)) as [E|]; [|lia].
      exfalso. rewrite E in H4.
      destruct ms as [|res' ms'].
      - inversion Hc; congruence.
      - eapply (chain_not_stuck _ _ Hc); eauto. }
    split.
    + constructor; [done|].
      eapply Forall_impl; [exact IH1|]. simpl. intros; lia.
    + constructor; [done|].
      eapply Forall_impl; [exact IH1|]. simpl. intros; lia.
Qed.

Lemma chain_length lastIndex ms :
  matchChain r content lastIndex ms ->
  length ms <= length content - lastIndex.
Proof.
  induction 1 as [L Hn | L res ms He Hc IH]; simpl; [lia|].
  assert (Hp : L < endIndex res /\ endIndex res <= length content).
  { eapply chain_progress. econstructor; eauto. }
  lia.
Qed.

Lemma chain_deterministic lastIndex ms1 :
  matchChain r content lastIndex ms1 ->
  forall ms2, matchChain r content lastIndex ms2 -> ms1 = ms2.
Proof.
  induction 1 as [L Hn | L res ms He Hc IH]; intros ms2 H2;
    inversion H2; subst; try congruence.
  assert (res0 = res) by congruence. subst. f_equal. by apply IH.
Qed.

(** The loop returns exactly when its chain of matches is finite, and then
    it returns the entries of the matches of the chain, in order. *)
Lemma whileExec_chain fuel : forall lastIndex results,
  whileExec fuel body r content lastIndex = Some results ->
  exists ms, matchChain r content lastIndex ms /\ results = omap body ms.
Proof.
  induction fuel as [|fuel IH]; intros L results H; [done|].
  simpl in H. destruct (exec r content L) as [res|] eqn:He.
  - destruct (whileExec fuel body r content (endIndex res)) as [rs|] eqn:Hw;
      [|done].
    apply IH in Hw as (ms & Hc & ->). injection H as <-.
    exists (res :: ms). split; [by econstructor|].
    simpl. by destruct (body res).
  - injection H as <-. exists []. split; [by constructor | done].
Qed.

Lemma chain_whileExec lastIndex ms :
  matchChain r content lastIndex ms ->
  forall fuel, length ms < fuel ->
    whileExec fuel body r content lastIndex = Some (omap body ms).
Proof.
  induction 1 as [L Hn | L res ms He Hc IH]; intros fuel Hf.
  - destruct fuel; [simpl in Hf; lia|]. simpl. by rewrite Hn.
  - destruct fuel; [simpl in Hf; lia|]. simpl in *. rewrite He.
    rewrite IH by lia. by destruct (body res).
Qed.

(** The fuel given by [extractFromFile] is enough for every loop that
    ends: with it the loop fails to return only when it never ends. *)
Lemma whileExec_enough ms :
  matchChain r content 0 ms ->
  whileExec (S (length content)) body r content 0 = Some (omap body ms).
Proof.
  intros Hc. apply chain_whileExec; [done|].
  pose proof (chain_length _ _ Hc). lia.
Qed.

End WhileExec.

(** * Patterns whose matches cannot be empty *)

Lemma repeat_minlen mr gs greedy k n :
  (forall x k' z, mr x k' = Some z ->
     exists y, k' y = Some z /\ reaches x y /\ pos x + n <= pos y) ->
  forall fuel mn mx x z,
    repeat mr gs greedy k fuel mn mx x = Some z ->
    exists y, k y = Some z /\ reaches x y
      /\ pos x + match mn, mx with
                 | S _, Some (S _) | S _, None => n
                 | _, _ => 0
                 end <= pos y.
Proof.
  intros Hmr fuel mn mx x z H.
  assert (Hmr' : forall x k' z, mr x k' = Some z ->
            exists y, k' y = Some z /\ reaches x y).
  { intros x0 k' z0 Hz0. apply Hmr in Hz0 as (y0 & ? & ? & ?). eauto. }
  destruct (repeat_sound mr gs greedy k Hmr' _ _ _ _ _ H) as (y0 & Hy0 & Hr0).
  destruct mn as [|mn];
    [exists y0; split; [done|]; split; [done|]; destruct Hr0; lia|].
  destruct mx as [[|mx]|];
    [exists y0; split; [done|]; split; [done|]; destruct Hr0; lia| |].
  - destruct fuel as [|fuel]; [done|]. simpl in H.
    apply Hmr in H as (y & Hy & Hxy & Hn). simpl in Hy.
    destruct (repeat_sound mr gs greedy k Hmr' _ _ _ _ _ Hy)
      as (y' & Hy' & Hyy').
    exists y'. split; [done|]. split.
    + eapply reaches_trans; [exact Hxy | exact Hyy'].
    + destruct Hyy'. simpl in *. lia.
  - destruct fuel as [|fuel]; [done|]. simpl in H.
    apply Hmr in H as (y & Hy & Hxy & Hn). simpl in Hy.
    destruct (repeat_sound mr gs greedy k Hmr' _ _ _ _ _ Hy)
      as (y' & Hy' & Hyy').
    exists y'. split; [done|]. split.
    + eapply reaches_trans; [exact Hxy | exact Hyy'].
    + destruct Hyy'. simpl in *. lia.
Qed.

Lemma m_minlen r : forall x k z,
  m r x k = Some z ->
  exists y, k y = Some z /\ reaches x y /\ pos x + minLen r <= pos y.
Proof.
  induction r as [ | c | c | p | r1 IH1 r2 IH2 | r1 IH1 r2 IH2
                 | g mn mx r IH | n r IH | r IH | | ];
    intros x k z H.
  1, 9, 10, 11:
    apply m_sound in H as (y & Hy & Hr); exists y; split; [done|];
    split; [done|]; destruct Hr; simpl; lia.
  - simpl in H. destruct (rest x) as [|c' t] eqn:E; [done|].
    destruct (eqc c c'); [|done].
    eexists; split; [exact H|]. split; [by apply reaches_advance|simpl; lia].
  - simpl in H. destruct (rest x) as [|c' t] eqn:E; [done|].
    destruct (eqc _ _); [|done].
    eexists; split; [exact H|]. split; [by apply reaches_advance|simpl; lia].
  - simpl in H. destruct (rest x) as [|c' t] eqn:E; [done|].
    destruct (p c'); [|done].
    eexists; split; [exact H|]. split; [by apply reaches_advance|simpl; lia].
  - simpl in H. apply IH1 in H as (y & Hy & Hxy & Hn).
    apply IH2 in Hy as (y' & Hy' & Hyy' & Hn').
    exists y'; split; [done|]. split; [eapply reaches_trans; eauto|].
    simpl. lia.
  - simpl in H. unfold orElse in H. destruct (m r1 x k) eqn:E1.
    + injection H as <-. apply IH1 in E1 as (y & ? & Hr & ?).
      exists y; split; [done|]. split; [done|]. simpl. lia.
    + apply IH2 in H as (y & ? & Hr & ?).
      exists y; split; [done|]. split; [done|]. simpl. lia.
  - change (m (Rep g mn mx r) x k) with
      (repeat (m r) (groupsOf r) g k (S (mn + length (rest x))) mn mx x) in H.
    eapply repeat_minlen in H; [|exact IH].
    destruct H as (y & Hy & Hr & Hn). exists y; split; [done|].
    split; [done|].
    simpl. destruct mn as [|mn]; [lia|]. destruct mx as [[|mx]|]; lia.
  - simpl in H. apply IH in H as (y & Hy & Hxy & Hn).
    eexists; split; [exact Hy|]. split; [exact Hxy | simpl; lia].
Qed.

Lemma matchAt_minlen r p s i res :
  matchAt r p s i = Some res -> index res + minLen r <= endIndex res.
Proof.
  unfold matchAt. destruct (m r _ Some) as [y|] eqn:E; [|done].
  intros [= <-]. apply m_minlen in E as (y' & Hy' & _ & Hn).
  simplify_eq. simpl in *. lia.
Qed.

Lemma scan_minlen r : forall s p i res,
  scan r p s i = Some res -> index res + minLen r <= endIndex res.
Proof.
  induction s as [|c s IH]; intros p i res H; simpl in H.
  - destruct (matchAt r p [] i) eqn:E; [|done]. injection H as ->.
    by eapply matchAt_minlen.
  - destruct (matchAt r p (c :: s) i) eqn:E.
    + injection H as ->. by eapply matchAt_minlen.
    + by eapply IH.
Qed.

Lemma exec_minlen r content lastIndex res :
  exec r content lastIndex = Some res ->
  index res + minLen r <= endIndex res.
Proof.
  unfold exec. destruct (_ <? _); [done|]. apply scan_minlen.
Qed.

(** A pattern that cannot match the empty string has a finite chain of
    matches from every position: its loop ends. *)
Lemma chain_exists r content :
  0 < minLen r ->
  forall n lastIndex, length content < lastIndex + n ->
    exists ms, matchChain r content lastIndex ms.
Proof.
  intros Hpos n. induction n as [|n IH]; intros L HL.
  - exists []. constructor. unfold exec.
    assert (E : (length content <? L) = true) by (apply Nat.ltb_lt; lia).
    by rewrite E.
  - destruct (exec r content L) as [res|] eqn:He.
    + pose proof (exec_minlen _ _ _ _ He).
      destruct (exec_bounds _ _ _ _ He) as (H1 & H2 & H3 & _).
      destruct (IH (endIndex res)) as [ms Hms]; [lia|].
      exists (res :: ms). by econstructor.
    + exists []. by constructor.
Qed.

Lemma matchesOf_chain r content ms :
  matchChain r content 0 ms -> matchesOf r content = ms.
Proof.
  intros Hc. unfold matchesOf.
  pose proof (chain_length _ _ _ _ Hc) as Hlen.
  assert (Hf : length ms < S (length content)) by lia.
  revert Hf. generalize (S (length content)) as fuel. clear Hlen.
  induction Hc as [L Hn | L res ms He Hc IH]; intros fuel Hf.
  - destruct fuel; [done|]. simpl. by rewrite Hn.
  - destruct fuel; [simpl in Hf; lia|]. simpl in *. rewrite He.
    f_equal. apply IH. lia.
Qed.

(** * The order of the patterns *)

Section Sorting.
Import Extractor.

Lemma insertByPriority_elem p l q :
  q ∈ insertByPriority p l <-> q = p \/ q ∈ l.
Proof.
  induction l as [|a l IH]; simpl.
  - rewrite list_elem_of_singleton, elem_of_nil. tauto.
  - destruct (priorityOf p <=? priorityOf a)%Z;
      rewrite ?elem_of_cons, ?IH; tauto.
Qed.

Lemma insertByPriority_sorted p l :
  StronglySorted byPriority l ->
  StronglySorted byPriority (insertByPriority p l).
Proof.
  induction 1 as [|a l Hs IH Ha]; simpl.
  - repeat constructor.
  - destruct (priorityOf p <=? priorityOf a)%Z eqn:E.
    + apply Z.leb_le in E. constructor; [by constructor|].
      constructor; [done|].
      eapply Forall_impl; [exact Ha|]. unfold byPriority. simpl; lia.
    + apply Z.leb_gt in E. constructor; [done|].
      apply Forall_forall. intros q Hq.
      apply insertByPriority_elem in Hq as [->|Hq].
      * unfold byPriority; lia.
      * rewrite Forall_forall in Ha. by apply Ha.
Qed.

(** The patterns are scanned by ascending priority. *)
Lemma sortPatterns_sorted l : StronglySorted byPriority (sortPatterns l).
Proof.
  induction l as [|p l IH]; simpl; [constructor|].
  by apply insertByPriority_sorted.
Qed.

Lemma insertByPriority_perm p l : Permutation (p :: l) (insertByPriority p l).
Proof.
  induction l as [|a l IH]; simpl; [done|].
  destruct (priorityOf p <=? priorityOf a)%Z; [done|].
  rewrite perm_swap. by constructor.
Qed.

Lemma sortPatterns_perm l : Permutation l (sortPatterns l).
Proof.
  induction l as [|p l IH]; simpl; [done|].
  rewrite <- insertByPriority_perm. by constructor.
Qed.

Lemma insertByPriority_filter z p l :
  StronglySorted byPriority l ->
  List.filter (hasPriority z) (insertByPriority p l)
  = List.filter (hasPriority z) (p :: l).
Proof.
  induction 1 as [|a l Hs IH Ha]; [done|].
  simpl. destruct (priorityOf p <=? priorityOf a)%Z eqn:E; [done|].
  apply Z.leb_gt in E. simpl. simpl in IH. rewrite IH.
  unfold hasPriority.
  destruct (priorityOf p =? z)%Z eqn:Ep, (priorityOf a =? z)%Z eqn:Ea; try done.
  apply Z.eqb_eq in Ep, Ea. lia.
Qed.

(** The sort is stable: patterns of equal priority keep their order. *)
Lemma sortPatterns_stable z l :
  List.filter (hasPriority z) (sortPatterns l)
  = List.filter (hasPriority z) l.
Proof.
  induction l as [|p l IH]; [done|].
  simpl sortPatterns. rewrite insertByPriority_filter
    by apply sortPatterns_sorted.
  simpl. by rewrite IH.
Qed.

End Sorting.

(** * [extractFromFile] and [extract] *)

Section Extraction.
Import Extractor.
Variable ctx : SecurityContext.

Lemma forEachPattern_ret scanWith ps results :
  forEachPattern scanWith ps = Some results ->
  exists rs, Forall2 (fun p r => scanWith p = Some r) ps rs
             /\ results = concat rs.
Proof.
  revert results. induction ps as [|p ps IH]; intros results H; simpl in H.
  - injection H as <-. exists []. split; [constructor | done].
  - destruct (scanWith p) as [r|] eqn:E; [|done].
    destruct (forEachPattern scanWith ps) as [r'|] eqn:E'; [|done].
    injection H as <-. destruct (IH _ eq_refl) as (rs & Hrs & ->).
    exists (r :: rs). split; [by constructor | done].
Qed.

(** When the scan of a file returns, it returns the entries of the
    patterns in the order given, each with its matches in the order
    found. *)
Lemma extractFromContent_ret filePath content ps inc results :
  extractFromContent ctx filePath content ps inc = Some results ->
  results = fileEntries ctx filePath content ps inc
  /\ Forall (fun p => matchChain (regex p) content 0
                        (matchesOf (regex p) content)) ps.
Proof.
  unfold extractFromContent, fileEntries.
  set (comments := if inc then extractComments content else []).
  revert results. induction ps as [|p ps IH]; intros results H;
    cbn [forEachPattern] in H.
  - injection H as <-. split; [done | constructor].
  - destruct (whileExec _ _ _ _ _) as [r|] eqn:E; [|done].
    destruct (forEachPattern _ ps) as [r'|] eqn:E'; [|done].
    injection H as <-. destruct (IH _ eq_refl) as [-> Hall].
    apply whileExec_chain in E as (ms & Hc & ->).
    pose proof (matchesOf_chain _ _ _ Hc) as Hm.
    split; [simpl; by rewrite Hm | constructor; [by rewrite Hm | done]].
Qed.

(** Conversely the scan returns as soon as every pattern has a finite
    chain of matches. *)
Lemma extractFromContent_total filePath content ps inc :
  Forall (fun p => exists ms, matchChain (regex p) content 0 ms) ps ->
  extractFromContent ctx filePath content ps inc
  = Some (fileEntries ctx filePath content ps inc).
Proof.
  unfold extractFromContent, fileEntries.
  set (comments := if inc then extractComments content else []).
  induction 1 as [|p ps [ms Hc] Hall IH]; [done|].
  cbn [forEachPattern flat_map]. rewrite (whileExec_enough _ _ _ _ Hc), IH.
  by rewrite (matchesOf_chain _ _ _ Hc).
Qed.

Lemma settleAll_ret extractOne batch v :
  settleAll (map extractOne batch) = Ret v ->
  v = flat_map (settled extractOne) batch
  /\ Forall (fun f => settles (extractOne f)) batch.
Proof.
  revert v. induction batch as [|f batch IH]; intros v H; simpl in H.
  - injection H as <-. split; [done | constructor].
  - simpl. unfold settled at 1, settles.
    destruct (extractOne f) as [a|e| |] eqn:Ef; try done.
    + destruct (settleAll _) as [vs| | |]; try done.
      injection H as <-. destruct (IH _ eq_refl) as [-> Hall].
      split; [done|]. constructor; [|done]. left; eauto.
    + destruct (IH _ H) as [-> Hall].
      split; [done|]. constructor; [|done]. right; eauto.
Qed.

Lemma skipn_batch {A} (l : list A) batchSize i :
  firstn batchSize (skipn i l) ++ skipn (i + batchSize) l = skipn i l.
Proof.
  transitivity (firstn batchSize (skipn i l) ++ skipn batchSize (skipn i l));
    [|apply firstn_skipn].
  f_equal. rewrite skipn_skipn. f_equal. lia.
Qed.

(** When the loop over the batches returns, every file has settled and
    the values are appended in the order of the files. *)
Lemma batchLoop_ret extractOne validFiles batchSize fuel : forall i out,
  batchLoop fuel extractOne validFiles batchSize i = Ret out ->
  out = flat_map (settled extractOne) (skipn i validFiles)
  /\ Forall (fun f => settles (extractOne f)) (skipn i validFiles).
Proof.
  induction fuel as [|fuel IH]; intros i out H; [done|].
  simpl in H. destruct (i <? length validFiles) eqn:E.
  - destruct (settleAll _) as [v| | |] eqn:Es; try done.
    destruct (batchLoop fuel _ _ _ _) as [vs| | |] eqn:Eb; try done.
    injection H as <-. apply settleAll_ret in Es as [-> Hall1].
    apply IH in Eb as [-> Hall2].
    rewrite <- (skipn_batch validFiles batchSize i) at 2 3.
    rewrite flat_map_app. split; [done|]. by apply Forall_app.
  - injection H as <-. apply Nat.ltb_ge in E.
    rewrite skipn_all2 by done. split; [done | constructor].
Qed.

Lemma settleAll_total extractOne batch :
  (forall f, f ∈ batch -> settles (extractOne f)) ->
  settleAll (map extractOne batch)
  = Ret (flat_map (settled extractOne) batch).
Proof.
  induction batch as [|f batch IH]; intros Hok; [done|].
  simpl. unfold settled at 1.
  rewrite IH by (intros; apply Hok; by right).
  destruct (Hok f) as [[v ->]|[e ->]]; [by left | done | done].
Qed.

Lemma batchLoop_S fuel extractOne validFiles batchSize i :
  batchLoop (S fuel) extractOne validFiles batchSize i
  = if i <? length validFiles then
      match settleAll (map extractOne
                         (firstn batchSize (skipn i validFiles))) with
      | Ret v =>
          match batchLoop fuel extractOne validFiles batchSize
                  (i + batchSize) with
          | Ret vs => Ret (v ++ vs)
          | o => o
          end
      | o => o
      end
    else Ret [].
Proof. reflexivity. Qed.

(** With a positive batch size the loop over the batches ends. *)
Lemma batchLoop_total extractOne validFiles batchSize :
  0 < batchSize ->
  (forall f, f ∈ validFiles -> settles (extractOne f)) ->
  forall fuel i, length validFiles <= i + fuel ->
    batchLoop (S fuel) extractOne validFiles batchSize i
    = Ret (flat_map (settled extractOne) (skipn i validFiles)).
Proof.
  intros Hpos Hok fuel. induction fuel as [|fuel IH]; intros i Hf.
  - simpl. assert (E : (i <? length validFiles) = false)
      by (apply Nat.ltb_ge; lia).
    rewrite E. by rewrite skipn_all2 by lia.
  - rewrite batchLoop_S. destruct (i <? length validFiles) eqn:E.
    + rewrite settleAll_total.
      2:{ intros f Hf'. apply Hok.
          eapply elem_of_sublist; [exact Hf'|].
          etrans; [apply sublist_take | apply sublist_drop]. }
      rewrite IH by lia. rewrite <- flat_map_app.
      by rewrite skipn_batch.
    + apply Nat.ltb_ge in E. by rewrite skipn_all2 by lia.
Qed.


End Extraction.

(** * The order of the dataset *)

Section Order.
Import Extractor.

Lemma flat_map_ext_elem {A B} (f g : A -> list B) l :
  (forall x, x ∈ l -> f x = g x) -> flat_map f l = flat_map g l.
Proof.
  induction l as [|a l IH]; intros H; [done|].
  simpl. rewrite H by (apply elem_of_cons; by left).
  rewrite IH; [done|]. intros x Hx. apply H. apply elem_of_cons; by right.
Qed.

(** When [extract] returns, the dataset is the deduplication of the
    entries of the files, file after file; every scan has ended, so that
    within a pattern the matches are at increasing positions. *)
Lemma extract_ret ctx w options out :
  extract ctx w options = Ret out ->
  let validFiles :=
    filterFilesBySize w (tsFiles w) (maxFileSize options) in
  let sorted := sortPatterns (patterns options) in
  out = removeDuplicates
          (allEntries ctx w validFiles sorted (includeComments options))
  /\ forall f content p,
       f ∈ validFiles -> files w !! f = Some content -> p ∈ sorted ->
       StronglySorted before (matchesOf (regex p) content).
Proof.
  intros H validFiles sorted. unfold extract in H.
  destruct (validate options && _); [done|].
  fold validFiles sorted in H.
  destruct (batchLoop _ _ _ _ _) as [allStrings| | |] eqn:Eb; try done.
  injection H as <-. apply batchLoop_ret in Eb as [-> Hall].
  simpl in Hall. rewrite Forall_forall in Hall.
  split.
  - f_equal. unfold allEntries. simpl. apply flat_map_ext_elem.
    intros f Hf. specialize (Hall f Hf).
    unfold settled, extractFromFile in *.
    destruct (files w !! f) as [content|]; [|done].
    destruct (extractFromContent _ _ _ _ _) as [rs|] eqn:Ec.
    + by apply extractFromContent_ret in Ec as [-> _].
    + destruct Hall as [[v Hv]|[e He]]; done.
  - intros f content p Hf Hcontent Hp. specialize (Hall f Hf).
    unfold extractFromFile in Hall. rewrite Hcontent in Hall.
    destruct (extractFromContent _ _ _ _ _) as [rs|] eqn:Ec.
    + apply extractFromContent_ret in Ec as [_ Hchains].
      rewrite Forall_forall in Hchains.
      by apply (chain_sorted _ _ _ _ (Hchains p Hp)).
    + destruct Hall as [[v Hv]|[e He]]; done.
Qed.

(** [extract] returns whenever no pattern can match the empty string, the
    batch size is positive and the search path passes validation. *)
Lemma extract_total ctx w options :
  Forall (fun p => 0 < minLen (regex p)) (patterns options) ->
  0 < concurrency options ->
  validate options && negb (Validator.validatePath (path options)) = false ->
  extract ctx w options
  = Ret (removeDuplicates
           (allEntries ctx w
              (filterFilesBySize w (tsFiles w) (maxFileSize options))
              (sortPatterns (patterns options)) (includeComments options))).
Proof.
  intros Hmin Hc Hv. unfold extract. rewrite Hv.
  set (validFiles := filterFilesBySize _ _ _).
  set (sorted := sortPatterns _).
  assert (Hsorted : Forall (fun p => 0 < minLen (regex p)) sorted).
  { unfold sorted. by rewrite <- sortPatterns_perm. }
  assert (Hfile : forall f, extractFromFile ctx w f sorted
                              (includeComments options)
                            = match files w !! f with
                              | Some content =>
                                  Ret (fileEntries ctx f content sorted
                                         (includeComments options))
                              | None => Throw readError
                              end).
  { intros f. unfold extractFromFile.
    destruct (files w !! f) as [content|]; [|done].
    rewrite extractFromContent_total; [done|].
    eapply Forall_impl; [exact Hsorted|]. simpl. intros p Hp.
    apply (chain_exists _ content Hp (S (length content))). lia. }
  rewrite batchLoop_total; [| done | | lia].
  - simpl. f_equal. f_equal. unfold allEntries. apply flat_map_ext_elem.
    intros f _. unfold settled. rewrite Hfile.
    by destruct (files w !! f).
  - intros f _. rewrite Hfile. unfold settles.
    destruct (files w !! f); [left | right]; eauto.
Qed.

Lemma defaultPatterns_nonempty :
  Forall (fun p => 0 < minLen (regex p)) defaultPatterns.
Proof. repeat constructor; vm_compute; lia. Qed.

Lemma sortPatterns_default : sortPatterns defaultPatterns = defaultPatterns.
Proof. reflexivity. Qed.

End Order.

(** * Claims about extraction *)

Section ExtractionClaims.
Import Extractor Samples.





(** C4, as stated, fails: in this file the [message] property is on line 1
    and the exception on line 2, yet the entry of the exception, found by
    the pattern of priority 1, comes first in the dataset. *)
Lemma position_order_counterexample :
  exists e1 e2,
    extract sampleContext twoLinesWorld defaultOptions = Ret [e1; e2]
    /\ type e1 = str "EXCEPTION" /\ text e1 = str "Cannot save"
    /\ line e1 = 2
    /\ type e2 = str "MESSAGE_PROPERTY" /\ text e2 = str "Saved ok"
    /\ line e2 = 1.
Proof.
  eexists _, _. split; [vm_compute; reflexivity|].
  repeat split; reflexivity.
Qed.

(** C4, amended: when [extract] returns, the dataset is the
    deduplication (first occurrence kept) of the entries of the files,
    taken file after file in the order of the enumeration; the entries of
    one file are those of the first pattern in priority order, then those
    of the second, and so on (patterns of equal priority in the order
    given), and the entries of one pattern are in the order of the
    positions of its matches. *)
Theorem dataset_order ctx w options out :
  extract ctx w options = Ret out ->
  let validFiles :=
    filterFilesBySize w (tsFiles w) (maxFileSize options) in
  let sorted := sortPatterns (patterns options) in
  out = removeDuplicates
          (allEntries ctx w validFiles sorted (includeComments options))
  /\ StronglySorted byPriority sorted
  /\ (forall z, List.filter (hasPriority z) sorted
                = List.filter (hasPriority z) (patterns options))
  /\ (forall f content p,
        f ∈ validFiles -> files w !! f = Some content -> p ∈ sorted ->
        StronglySorted before (matchesOf (regex p) content)).
Proof.
  intros H validFiles sorted.
  destruct (extract_ret _ _ _ _ H) as [Hout Hpos].
  split; [exact Hout|]. split; [apply sortPatterns_sorted|].
  split; [intros z; apply sortPatterns_stable | exact Hpos].
Qed.

Lemma dataset_order_witness :
  exists out,
    extract sampleContext twoLinesWorld defaultOptions = Ret out
    /\ out = removeDuplicates
               (allEntries sampleContext twoLinesWorld
                  (filterFilesBySize twoLinesWorld (tsFiles twoLinesWorld)
                     (maxFileSize defaultOptions))
                  (sortPatterns (patterns defaultOptions))
                  (includeComments defaultOptions)).
Proof.
  eexists. split; [vm_compute; reflexivity|].
  apply (dataset_order sampleContext twoLinesWorld defaultOptions).
  vm_compute; reflexivity.
Defined.

Lemma omap_processMatch ctx filePath content inc comments p ms :
  omap (processMatch ctx filePath content inc comments p) ms
  = map (entryOf ctx filePath content inc comments p)
      (List.filter (fun res => retained (candidate res)) ms).
Proof.
  induction ms as [|res ms IH]; [done|].
  cbn [omap list_omap List.filter].
  change (list_omap ?f ?l) with (omap f l). rewrite IH.
  unfold processMatch.
  by destruct (retained (candidate res)).
Qed.

Lemma retained_iff t : retained t = true <-> 3 <= length t <= 500.
Proof.
  unfold retained. rewrite negb_true_iff, orb_false_iff.
  rewrite !Nat.ltb_ge. lia.
Qed.

(** The four boundaries on the default patterns. *)
Example candidate_of_3_kept :
  option_map (map text)
    (extractFromContent sampleContext (str "a.ts") (messageOfLength 3)
       defaultPatterns false)
  = Some [str "aaa"].
Proof. vm_compute; reflexivity. Qed.

Example candidate_of_2_dropped :
  extractFromContent sampleContext (str "a.ts") (messageOfLength 2)
    defaultPatterns false = Some [].
Proof. vm_compute; reflexivity. Qed.

Example candidate_of_500_kept :
  option_map (map (fun e => length (text e)))
    (extractFromContent sampleContext (str "a.ts") (messageOfLength 500)
       defaultPatterns false)
  = Some [500].
Proof. vm_compute; reflexivity. Qed.

Example candidate_of_501_dropped :
  extractFromContent sampleContext (str "a.ts") (messageOfLength 501)
    defaultPatterns false = Some [].
Proof. vm_compute; reflexivity. Qed.

(** The test bears on the captured candidate, not on the stored text: a
    candidate of 3 characters is kept, and the text stored under its entry
    is what [sanitizeOutput] leaves of it. *)
Example candidate_of_3_sanitized :
  option_map (map text)
    (extractFromContent sampleContext (str "a.ts") (str "message: '<a>'")
       defaultPatterns false)
  = Some [str "a"].
Proof. vm_compute; reflexivity. Qed.

(** C7: the file [auth/src/services/auth.service.ts] with the content
    [return { message: 'Validation failed' };] is read and scanned with the
    default patterns; the scan returns, and its results hold an entry whose
    text is [Validation failed], whose type is [RETURN_MESSAGE] and whose
    key is [AUTH.AUTH_SERVICE.RETURN_MESSAGE.VALIDATION_FAILED], whatever
    the security context and with or without the comments. *)
Theorem basic_extraction ctx w inc :
  files w !! authServicePath = Some validationFailed ->
  exists results e,
    extractFromFile ctx w authServicePath (sortPatterns defaultPatterns) inc
    = Ret results
    /\ e ∈ results
    /\ text e = str "Validation failed"
    /\ type e = str "RETURN_MESSAGE"
    /\ key e = str "AUTH.AUTH_SERVICE.RETURN_MESSAGE.VALIDATION_FAILED".
Proof.
  intros Hfile. unfold extractFromFile. rewrite Hfile.
  destruct ctx as [[|]], inc.
  all: eexists _, _; split; [vm_compute; reflexivity|].
  all: split; [apply elem_of_cons; left; reflexivity|].
  all: repeat split; reflexivity.
Qed.


Lemma basic_extraction_witness :
  files authWorld !! authServicePath = Some validationFailed
  /\ exists results e,
    extractFromFile sampleContext authWorld authServicePath
      (sortPatterns defaultPatterns) false = Ret results
    /\ e ∈ results
    /\ text e = str "Validation failed"
    /\ type e = str "RETURN_MESSAGE"
    /\ key e = str "AUTH.AUTH_SERVICE.RETURN_MESSAGE.VALIDATION_FAILED".
Proof.
  assert (H : files authWorld !! authServicePath = Some validationFailed)
    by (vm_compute; reflexivity).
  split; [exact H|].
  exact (basic_extraction sampleContext authWorld false H).
Defined.

End ExtractionClaims.

(** * The Deduplicator *)

Section Dedup.
Import Extractor.

Lemma removeDuplicatesFrom_snoc l : forall seen x,
  removeDuplicatesFrom seen (l ++ [x])
  = removeDuplicatesFrom seen l
    ++ (if decide (dedupKey x ∈ seen \/ dedupKey x ∈ map dedupKey l)
        then [] else [x]).
Proof.
  induction l as [|a l IH]; intros seen x; simpl.
  - destruct (decide (dedupKey x ∈ seen)) as [Hin|Hnin];
      destruct (decide _) as [H|H]; try done.
    + exfalso. apply H. by left.
    + destruct H as [H|H]; [done | by apply elem_of_nil in H].
  - destruct (decide (dedupKey a ∈ seen)) as [Ha|Ha].
    + rewrite IH. f_equal.
      destruct (decide _) as [H|H], (decide _) as [H'|H']; try done.
      * exfalso. apply H'. destruct H as [H|H]; [by left|].
        right. apply elem_of_cons. by right.
      * exfalso. apply H. destruct H' as [H'|H']; [by left|].
        apply elem_of_cons in H' as [H'|H']; [|by right].
        left. by rewrite H'.
    + simpl. rewrite IH. f_equal.
      destruct (decide _) as [H|H], (decide _) as [H'|H']; try done.
      * exfalso. apply H'. destruct H as [H|H]; [|right; apply elem_of_cons; by right].
        apply elem_of_union in H as [H|H]; [|by left].
        apply elem_of_singleton in H. right. apply elem_of_cons. by left.
      * exfalso. apply H. destruct H' as [H'|H'].
        -- left. apply elem_of_union. by right.
        -- apply elem_of_cons in H' as [H'|H']; [|by right].
           left. apply elem_of_union. left. by apply elem_of_singleton.
Qed.

Lemma removeDuplicatesFrom_spec l : forall seen,
  removeDuplicatesFrom seen l `sublist_of` l
  /\ NoDup (map dedupKey (removeDuplicatesFrom seen l))
  /\ (forall y, y ∈ removeDuplicatesFrom seen l -> dedupKey y ∉ seen)
  /\ (forall x, x ∈ l -> dedupKey x ∈ seen
                \/ exists y, y ∈ removeDuplicatesFrom seen l
                             /\ dedupKey y = dedupKey x).
Proof.
  induction l as [|a l IH]; intros seen; simpl.
  - split; [apply sublist_nil|]. split; [constructor|]. split.
    + intros y Hy. by apply elem_of_nil in Hy.
    + intros x Hx. by apply elem_of_nil in Hx.
  - destruct (decide (dedupKey a ∈ seen)) as [Ha|Ha].
    + destruct (IH seen) as (H1 & H2 & H3 & H4).
      split; [by apply sublist_cons|]. split; [done|]. split; [done|].
      intros x Hx. apply elem_of_cons in Hx as [->|Hx]; [by left|].
        by apply H4.
    + destruct (IH ({[dedupKey a]} ∪ seen)) as (H1 & H2 & H3 & H4).
      split; [by apply sublist_skip|]. split; [|split].
      * simpl. constructor; [|done]. intros Hin.
        apply list_elem_of_fmap in Hin as (y & Hy & Hin).
        apply (H3 y Hin). rewrite <- Hy. apply elem_of_union. left.
        by apply elem_of_singleton.
      * intros y Hy. apply elem_of_cons in Hy as [->|Hy]; [done|].
        intros Hin. apply (H3 y Hy). apply elem_of_union. by right.
      * intros x Hx. apply elem_of_cons in Hx as [->|Hx].
        -- right. exists a. split; [apply elem_of_cons; by left | done].
        -- destruct (H4 x Hx) as [Hin|(y & Hy & Hyx)].
           ++ apply elem_of_union in Hin as [Hin|Hin]; [|by left].
              apply elem_of_singleton in Hin. right. exists a.
              split; [apply elem_of_cons; by left | done].
           ++ right. exists y. split; [apply elem_of_cons; by right | done].
Qed.

(** Without a colon in the keys the identity string determines the pair. *)
Lemma dedupKey_inj_aux (k1 k2 t1 t2 : list ascii) :
  ":"%char ∉ k1 -> ":"%char ∉ k2 ->
  k1 ++ ":"%char :: t1 = k2 ++ ":"%char :: t2 -> k1 = k2 /\ t1 = t2.
Proof.
  revert k2. induction k1 as [|a k1 IH]; intros [|b k2] H1 H2 E; simpl in E.
  - by injection E as ->.
  - injection E as <- E. exfalso. apply H2. apply elem_of_cons. by left.
  - injection E as -> E. exfalso. apply H1. apply elem_of_cons. by left.
  - injection E as -> E.
    destruct (IH k2) as [-> ->]; try done.
    + intros Hin. apply H1. apply elem_of_cons. by right.
    + intros Hin. apply H2. apply elem_of_cons. by right.
Qed.

Lemma dedupKey_inj x y :
  ":"%char ∉ key x -> ":"%char ∉ key y ->
  dedupKey x = dedupKey y -> key x = key y /\ text x = text y.
Proof. unfold dedupKey. simpl. apply dedupKey_inj_aux. Qed.

End Dedup.

Section DedupClaims.
Import Extractor Samples.


(** C3, as stated, fails: these two matches differ in both key and text,
    but the strings [key + ":" + text] coincide, and the second match is
    dropped. *)
Lemma dedup_pairs_counterexample :
  let first := entry (str "A:B") (str "c") in
  let second := entry (str "A") (str "B:c") in
  (key first, text first) <> (key second, text second)
  /\ removeDuplicates [first; second] = [first]
  /\ ~ (exists y, y ∈ removeDuplicates [first; second]
                 /\ key y = key second /\ text y = text second).
Proof.
  intros first second.
  assert (E : removeDuplicates [first; second] = [first])
    by (vm_compute; reflexivity).
  split; [intros [= Hk _]; vm_compute in Hk; discriminate|].
  split; [exact E|]. rewrite E. intros (y & Hy & Hk & _).
  apply list_elem_of_singleton in Hy. subst y.
  vm_compute in Hk. discriminate.
Qed.

(** C3, amended: the output is the subsequence of the input at the first
    occurrence of each identity string [key + ":" + text]: an entry is kept
    exactly when no earlier entry has the same string, so that the output
    holds one entry for each such string, in the order of the input; when
    no key holds a colon, this is one entry for each distinct pair of key
    and text. *)
Theorem removeDuplicates_first_seen (l : list TranslationKey) :
  removeDuplicates l `sublist_of` l
  /\ NoDup (map dedupKey (removeDuplicates l))
  /\ (forall l1 x,
        removeDuplicates (l1 ++ [x])
        = removeDuplicates l1
          ++ (if decide (dedupKey x ∈ map dedupKey l1) then [] else [x]))
  /\ (forall x, x ∈ l ->
        exists y, y ∈ removeDuplicates l /\ dedupKey y = dedupKey x)
  /\ ((forall x, x ∈ l -> ":"%char ∉ key x) ->
      forall x, x ∈ l ->
        exists y, y ∈ removeDuplicates l
                  /\ key y = key x /\ text y = text x).
Proof.
  unfold removeDuplicates.
  destruct (removeDuplicatesFrom_spec l ∅) as (H1 & H2 & _ & H4).
  assert (H4' : forall x, x ∈ l ->
            exists y, y ∈ removeDuplicatesFrom ∅ l
                      /\ dedupKey y = dedupKey x).
  { intros x Hx. destruct (H4 x Hx) as [Hin|Hy]; [|done].
    by apply elem_of_empty in Hin. }
  split; [done|]. split; [done|]. split; [|split; [done|]].
  - intros l1 x. rewrite removeDuplicatesFrom_snoc. f_equal.
    destruct (decide _) as [H|H], (decide _) as [H'|H']; try done.
    + destruct H as [H|H]; [by apply elem_of_empty in H | done].
    + exfalso. apply H. by right.
  - intros Hcolon x Hx. destruct (H4' x Hx) as (y & Hy & Hyx).
    exists y. split; [done|]. apply dedupKey_inj; [| by apply Hcolon | done].
    apply Hcolon. eapply elem_of_sublist; eauto.
Qed.

Lemma removeDuplicates_first_seen_witness :
  let l := [entry (str "A") (str "x"); entry (str "B") (str "y");
            entry (str "A") (str "x")] in
  (forall x, x ∈ l -> ":"%char ∉ key x)
  /\ forall x, x ∈ l ->
       exists y, y ∈ removeDuplicates l /\ key y = key x /\ text y = text x.
Proof.
  intros l.
  assert (H : forall x, x ∈ l -> ":"%char ∉ key x).
  { intros x Hx. unfold l in Hx.
    repeat (apply elem_of_cons in Hx as [->|Hx]); try (by apply elem_of_nil in Hx).
    all: vm_compute; intros Hin; repeat (apply elem_of_cons in Hin as [Hin|Hin]; [done|]);
      by apply elem_of_nil in Hin. }
  split; [exact H|].
  exact (proj2 (proj2 (proj2 (proj2 (removeDuplicates_first_seen l)))) H).
Defined.

End DedupClaims.

(** * The Key Generator *)

Section KeyGenerator.
Import Extractor.

(** The result of a global replacement is made of replacement texts and
    of kept characters of the input. *)
Lemma pieces_Forall (P Q : ascii -> Prop) r f :
  (forall res, Forall P (f res)) ->
  (forall p c t i, Q c -> keptAt r p c t i -> P c) ->
  forall s p i skip,
    Forall Q s -> Forall P (flat_map (render f) (pieces r p s i skip)).
Proof.
  intros Hf Hkept.
  induction s as [|c s IH]; intros p i skip HQ.
  - destruct skip; simpl; [|constructor].
    destruct (matchAt r p [] i); simpl; [|constructor].
    rewrite app_nil_r. apply Hf.
  - apply Forall_cons in HQ as [Hc HQ].
    destruct skip as [|skip]; simpl; [|by apply IH].
    destruct (matchAt r p (c :: s) i) as [res|] eqn:E; simpl.
    + apply Forall_app. split; [apply Hf|].
      destruct (endIndex res - i) eqn:En; [|by apply IH].
      simpl. constructor; [|by apply IH].
      apply (Hkept p c s i Hc). unfold keptAt. by rewrite E.
    + constructor; [|by apply IH].
      apply (Hkept p c s i Hc). unfold keptAt. by rewrite E.
Qed.

Lemma replaceAll_Forall (P Q : ascii -> Prop) r f s :
  (forall res, Forall P (f res)) ->
  (forall p c t i, Q c -> keptAt r p c t i -> P c) ->
  Forall Q s -> Forall P (replaceAll r f s).
Proof. intros Hf Hkept HQ. by eapply pieces_Forall. Qed.

Lemma matchAt_Cls q p c t i :
  matchAt (Cls q) p (c :: t) i
  = if q c then Some (Result i (S i) (firstn (S i - i) (c :: t)) [])
    else None.
Proof. unfold matchAt. simpl. by destruct (q c). Qed.

Lemma repeat_optional_some mr gs k fuel mx x :
  is_Some (k x) -> is_Some (repeat mr gs true k (S fuel) 0 mx x).
Proof.
  intros [z Hz]. simpl. rewrite Hz.
  destruct mx as [[|mx]|]; [done | |]; simpl; unfold orElse;
    by destruct (mr _ _).
Qed.

Lemma m_Plus_Cls q x c t :
  rest x = c :: t -> q c = true -> is_Some (m (Plus (Cls q)) x Some).
Proof.
  intros Hrest Hq.
  change (m (Plus (Cls q)) x Some)
    with (repeat (m (Cls q)) [] true Some (S (1 + length (rest x))) 1 None x).
  change (repeat (m (Cls q)) [] true Some (S (1 + length (rest x))) 1 None x)
    with (m (Cls q) (clearCaps [] x)
            (fun y => repeat (m (Cls q)) [] true Some (1 + length (rest x)) 0
                        None y)).
  cbn [m clearCaps rest]. rewrite Hrest, Hq.
  by apply repeat_optional_some.
Qed.

Lemma matchAt_Plus_Cls q p c t i :
  q c = true -> is_Some (matchAt (Plus (Cls q)) p (c :: t) i).
Proof.
  intros Hq. unfold matchAt.
  destruct (m_Plus_Cls q (MState p (c :: t) i []) c t eq_refl Hq) as [y ->].
  done.
Qed.

Lemma upperChar_word c : isWord c = true -> upperWordChar (upperChar c) = true.
Proof.
  destruct c as [[] [] [] [] [] [] [] []]; vm_compute; intros; congruence.
Qed.

Lemma upperChar_legal c : legalChar c = true -> legalChar (upperChar c) = true.
Proof.
  destruct c as [[] [] [] [] [] [] [] []]; vm_compute; intros; congruence.
Qed.

Lemma upperWordChar_legal c : upperWordChar c = true -> legalChar c = true.
Proof.
  destruct c as [[] [] [] [] [] [] [] []]; vm_compute; intros; congruence.
Qed.

(** The normalized text holds capitals, digits and underscores only. *)
Lemma cleanText_charset text :
  Forall (fun c => upperWordChar c = true) (cleanText text).
Proof.
  unfold cleanText, toUpperCase. apply Forall_map.
  eapply Forall_impl; [|intros c Hc; apply upperChar_word; exact Hc].
  apply (replaceAll_Forall (fun c => isWord c = true)
           (fun c => isWord c || isSpace c = true)).
  - intros _. by repeat constructor.
  - intros p c t i Hc Hk.
    destruct (isSpace c) eqn:Es; [|by rewrite orb_false_r in Hc].
    exfalso. unfold keptAt in Hk.
    destruct (matchAt_Plus_Cls isSpace p c t i Es) as [res Hres].
    rewrite Hres in Hk.
    pose proof (matchAt_minlen _ _ _ _ _ Hres) as Hmin.
    destruct (matchAt_bounds _ _ _ _ _ Hres) as (Hi & _).
    simpl in Hmin. lia.
  - apply (replaceAll_Forall _ (fun _ => True)).
    + intros _. constructor.
    + intros p c t i _ Hk. unfold keptAt in Hk.
      rewrite matchAt_Cls in Hk.
      destruct (isWord c || isSpace c); [done|]. simpl in Hk. lia.
    + by apply Forall_true.
Qed.

Lemma split_Forall (P : ascii -> bool) sep s :
  Forall (fun c => P c || eqc c sep = true) s ->
  Forall (fun part => Forall (fun c => P c = true) part) (split sep s).
Proof.
  induction s as [|c s IH]; intros H; simpl.
  - by repeat constructor.
  - apply Forall_cons in H as [Hc Hs]. specialize (IH Hs).
    destruct (eqc c sep) eqn:E; [by constructor|].
    rewrite orb_false_r in Hc.
    destruct (split sep s) as [|part parts]; [by repeat constructor|].
    apply Forall_cons in IH as [Hp Hps].
    constructor; [by constructor | done].
Qed.

Lemma find_elem {A} (f : A -> bool) l x : find f l = Some x -> x ∈ l.
Proof.
  induction l as [|a l IH]; simpl; [done|].
  destruct (f a); [intros [= ->]; apply elem_of_cons; by left|].
  intros H. apply elem_of_cons. right. by apply IH.
Qed.

Lemma beforeSrc_elem parts x : beforeSrc parts = Some x -> x ∈ parts.
Proof.
  unfold beforeSrc. destruct (findIndex _ _) as [[|i]|]; try done.
  intros H. apply list_elem_of_In. by eapply nth_error_In.
Qed.

Lemma dropTrailingSeps_Forall (Q : ascii -> Prop) s :
  Forall Q s -> Forall Q (Path.dropTrailingSeps s).
Proof.
  induction 1 as [|c s Hc Hs IH]; simpl; [constructor|].
  destruct (Path.dropTrailingSeps s).
  - destruct (eqc c Path.sep); by repeat constructor.
  - by constructor.
Qed.

Lemma last_Forall {A} (Q : A -> Prop) l d :
  Forall Q l -> Q d -> Q (List.last l d).
Proof.
  induction 1 as [|a l Ha Hl IH]; intros Hd; simpl; [done|].
  destruct l; [done | by apply IH].
Qed.

Lemma stripPrefix_app p : forall s t, stripPrefix p s = Some t -> s = p ++ t.
Proof.
  induction p as [|a p IH]; intros [|b s] t H; simpl in H; try done.
  - by injection H as <-.
  - by injection H as <-.
  - unfold eqc in H. destruct (Ascii.eqb a b) eqn:E; [|done].
    apply Ascii.eqb_eq in E as ->. simpl. f_equal. by apply IH.
Qed.

Lemma stripSuffix_app suffix s t :
  Path.stripSuffix suffix s = Some t -> s = t ++ suffix.
Proof.
  unfold Path.stripSuffix.
  destruct (stripPrefix _ _) as [u|] eqn:E; [|done]. intros [= <-].
  apply stripPrefix_app in E.
  rewrite <- (rev_involutive s), E, rev_app_distr. by rewrite rev_involutive.
Qed.

Lemma lastPart_Forall (P : ascii -> bool) s :
  Forall (fun c => P c || eqc c Path.sep = true) s ->
  Forall (fun c => P c = true) (Path.lastPart s).
Proof.
  intros H. unfold Path.lastPart.
  apply (last_Forall (fun part => Forall (fun c => P c = true) part));
    [|constructor].
  apply split_Forall. by apply dropTrailingSeps_Forall.
Qed.

Lemma basename_Forall (P : ascii -> bool) s suffix :
  Forall (fun c => P c || eqc c Path.sep = true) s ->
  Forall (fun c => P c = true) (Path.basename s suffix).
Proof.
  intros H. unfold Path.basename.
  destruct (eqs s suffix); [constructor|].
  pose proof (lastPart_Forall P s H) as Hb.
  destruct suffix as [|a suffix]; [done|].
  destruct (Path.stripSuffix _ _) as [[|c t]|] eqn:E; try done.
  apply stripSuffix_app in E. rewrite E in Hb.
  by apply Forall_app in Hb as [? _].
Qed.

Lemma replaceFirstChar_Forall (Q : ascii -> Prop) c by_ s :
  Forall Q by_ -> Forall Q s -> Forall Q (replaceFirstChar c by_ s).
Proof.
  intros Hby. induction 1 as [|a s Ha Hs IH]; simpl; [constructor|].
  destruct (eqc a c); [by apply Forall_app | by constructor].
Qed.

Lemma toUpperCase_legal s :
  Forall (fun c => legalChar c = true) s ->
  Forall (fun c => legalChar c = true) (toUpperCase s).
Proof.
  intros H. unfold toUpperCase. apply Forall_map.
  eapply Forall_impl; [exact H|]. apply upperChar_legal.
Qed.

Lemma serviceNameOf_legal filePath :
  Forall (fun c => legalChar c || eqc c Path.sep = true) filePath ->
  Forall (fun c => legalChar c = true) (serviceNameOf filePath).
Proof.
  intros H. apply split_Forall in H. rewrite Forall_forall in H.
  unfold serviceNameOf.
  destruct (find _ _) as [part|] eqn:E.
  - apply H. by eapply find_elem.
  - destruct (beforeSrc _) as [part|] eqn:E'.
    + apply H. by eapply beforeSrc_elem.
    + by repeat constructor.
Qed.

Lemma fileNameOf_legal filePath :
  Forall (fun c => legalChar c || eqc c Path.sep = true) filePath ->
  Forall (fun c => legalChar c = true) (fileNameOf filePath).
Proof.
  intros H. unfold fileNameOf. apply replaceFirstChar_Forall.
  - by repeat constructor.
  - by apply basename_Forall.
Qed.

End KeyGenerator.

Section KeyClaims.
Import Extractor.

(** C5, as stated, fails: the hyphens of the directory and of the file
    name are copied into the key. *)
Lemma key_charset_counterexample :
  generateKey (str "Saved") (str "EXCEPTION")
    (str "my-service/src/user-profile.ts")
  = str "MY-SERVICE.USER-PROFILE.EXCEPTION.SAVED"
  /\ forallb legalChar
       (generateKey (str "Saved") (str "EXCEPTION")
          (str "my-service/src/user-profile.ts")) = false.
Proof. split; vm_compute; reflexivity. Qed.

(** C5, amended: the normalized text at the end of the key holds capital
    letters, digits and underscores only, and the whole key holds letters,
    digits, underscores and dots only when the type tag and the segments of
    the file path do; the other characters of the path segment that gives
    the service and of the base name of the file are copied into the key
    (in upper case). *)
Theorem generateKey_charset text type filePath :
  generateKey text type filePath
  = toUpperCase (serviceNameOf filePath) ++ str "."
    ++ toUpperCase (fileNameOf filePath) ++ str "."
    ++ type ++ str "." ++ cleanText text
  /\ Forall (fun c => upperWordChar c = true) (cleanText text)
  /\ (Forall (fun c => legalChar c || eqc c Path.sep = true) filePath ->
      Forall (fun c => legalChar c = true) type ->
      Forall (fun c => legalChar c = true) (generateKey text type filePath)).
Proof.
  split; [done|]. split; [apply cleanText_charset|].
  intros Hpath Htype. unfold generateKey.
  apply Forall_app; split;
    [apply toUpperCase_legal; by apply serviceNameOf_legal|].
  apply Forall_app; split; [by repeat constructor|].
  apply Forall_app; split;
    [apply toUpperCase_legal; by apply fileNameOf_legal|].
  apply Forall_app; split; [by repeat constructor|].
  apply Forall_app; split; [exact Htype|].
  apply Forall_app; split; [by repeat constructor|].
  eapply Forall_impl; [apply cleanText_charset|].
  apply upperWordChar_legal.
Qed.

Lemma generateKey_charset_witness :
  Forall (fun c => legalChar c || eqc c Path.sep = true)
    (str "auth/src/services/auth.service.ts")
  /\ Forall (fun c => legalChar c = true) (str "RETURN_MESSAGE")
  /\ Forall (fun c => legalChar c = true)
       (generateKey (str "Validation failed") (str "RETURN_MESSAGE")
          (str "auth/src/services/auth.service.ts")).
Proof.
  assert (H1 : Forall (fun c => legalChar c || eqc c Path.sep = true)
                 (str "auth/src/services/auth.service.ts"))
    by (repeat constructor).
  assert (H2 : Forall (fun c => legalChar c = true) (str "RETURN_MESSAGE"))
    by (repeat constructor).
  split; [exact H1|]. split; [exact H2|].
  exact (proj2 (proj2 (generateKey_charset (str "Validation failed")
                         (str "RETURN_MESSAGE")
                         (str "auth/src/services/auth.service.ts"))) H1 H2).
Defined.

(** C9: the key is a function of the text, the type and the file path
    alone: equal arguments give equal keys, and the key of an entry built
    during a scan does not depend on the security context, on the content
    of the file, on the comments or on the place of the match. *)
Theorem generateKey_deterministic text1 type1 filePath1 text2 type2 filePath2 :
  text1 = text2 -> type1 = type2 -> filePath1 = filePath2 ->
  generateKey text1 type1 filePath1 = generateKey text2 type2 filePath2
  /\ forall ctx1 ctx2 content1 content2 inc1 inc2 comments1 comments2
       p1 p2 res1 res2,
       candidate res1 = text1 -> candidate res2 = text2 ->
       ptype p1 = type1 -> ptype p2 = type2 ->
       key (entryOf ctx1 filePath1 content1 inc1 comments1 p1 res1)
       = key (entryOf ctx2 filePath2 content2 inc2 comments2 p2 res2).
Proof.
  intros -> -> ->. split; [reflexivity|].
  intros. simpl. congruence.
Qed.

Lemma generateKey_deterministic_witness :
  str "Validation failed" = str "Validation failed"
  /\ generateKey (str "Validation failed") (str "RETURN_MESSAGE")
    (str "auth/src/services/auth.service.ts")
  = generateKey (str "Validation failed") (str "RETURN_MESSAGE")
      (str "auth/src/services/auth.service.ts").
Proof.
  split; [reflexivity|].
  exact (proj1 (generateKey_deterministic
                  (str "Validation failed") (str "RETURN_MESSAGE")
                  (str "auth/src/services/auth.service.ts")
                  (str "Validation failed") (str "RETURN_MESSAGE")
                  (str "auth/src/services/auth.service.ts")
                  eq_refl eq_refl eq_refl)).
Defined.

End KeyClaims.

(** * Computations that write nothing *)

Section ReadOnly.

Lemma readOnly_ret {A} (a : A) : readOnly (ret a).
Proof. by intros w. Qed.

Lemma readOnly_bind {A B} (c : M A) (f : A -> M B) :
  readOnly c -> (forall a, readOnly (f a)) -> readOnly (bind c f).
Proof.
  intros Hc Hf w. unfold bind.
  destruct (Hc w) as (H1 & H2 & H3 & H4 & H5 & H6).
  destruct (c w) as [[a|e|n|] w'] eqn:E; simpl in *; try done.
  destruct (Hf a w') as (G1 & G2 & G3 & G4 & G5 & G6).
  by rewrite G1, G2, G3, G4, G5, G6.
Qed.

Lemma writesOf_app l1 l2 : writesOf (l1 ++ l2) = writesOf l1 ++ writesOf l2.
Proof. unfold writesOf. apply List.filter_app. Qed.

Lemma readOnly_emit e : isWrite e = false -> readOnly (emit e).
Proof.
  intros He w. simpl. repeat split; try done.
  rewrite writesOf_app. simpl. rewrite He. apply app_nil_r.
Qed.

Lemma readOnly_log level message : readOnly (log level message).
Proof. by apply readOnly_emit. Qed.

Lemma readOnly_readFile p : readOnly (readFile p).
Proof. intros w. unfold readFile. by destruct (files w !! p). Qed.

Lemma readOnly_readJson p : readOnly (readJson p).
Proof. intros w. unfold readJson. by destruct (json w !! p). Qed.

Lemma readOnly_glob : readOnly glob.
Proof. by intros w. Qed.

Lemma readOnly_exit {A} n : readOnly (@exit A n).
Proof. by intros w. Qed.

Lemma readOnly_throw {A} e : readOnly (@throw A e).
Proof. by intros w. Qed.

Lemma readOnly_tryCatch {A} (c : M A) handler :
  readOnly c -> (forall e, readOnly (handler e)) ->
  readOnly (tryCatch c handler).
Proof.
  intros Hc Hh w. unfold tryCatch.
  destruct (Hc w) as (H1 & H2 & H3 & H4 & H5 & H6).
  destruct (c w) as [[a|e|n|] w'] eqn:E; simpl in *; try done.
  destruct (Hh e w') as (G1 & G2 & G3 & G4 & G5 & G6).
  by rewrite G1, G2, G3, G4, G5, G6.
Qed.

Lemma readOnly_forEach {A} (l : list A) body :
  (forall x, readOnly (body x)) -> readOnly (forEach l body).
Proof.
  intros Hb. induction l as [|x l IH]; simpl.
  - apply readOnly_ret.
  - apply readOnly_bind; [apply Hb | by intros _].
Qed.

Lemma readOnly_forEach_emit l :
  Forall (fun e => isWrite e = false) l -> readOnly (forEach l emit).
Proof.
  induction 1 as [|e l He Hl IH]; simpl.
  - apply readOnly_ret.
  - apply readOnly_bind; [by apply readOnly_emit | by intros _].
Qed.

(** Emitting a list of events appends it to the trace. *)
Lemma forEach_emit_run l : forall w,
  forEach l emit w
  = (Ret tt, {| files := files w; sizes := sizes w; json := json w;
                tsFiles := tsFiles w; now := now w;
                events := events w ++ l |}).
Proof.
  induction l as [|e l IH]; intros w; simpl.
  - unfold ret. rewrite app_nil_r. by destruct w.
  - unfold bind, emit at 1. rewrite IH. simpl.
    by rewrite <- app_assoc.
Qed.

End ReadOnly.

(** * The Replacement Engine *)

Section Replacement.
Import Replacer.

Lemma applyPatterns_logged filePath ps : forall content n logged,
  Forall (fun e => isWrite e = false) logged ->
  Forall (fun e => isWrite e = false)
    (snd (applyPatterns filePath ps content n logged)).
Proof.
  induction ps as [|[r f] ps IH]; intros content n logged H; simpl; [done|].
  apply IH. apply Forall_app. split; [done|].
  apply Forall_map. by apply Forall_true.
Qed.

(** The count of [applyPatterns] does not depend on what was logged. *)
Lemma loadTranslationKeys_readOnly keysFile :
  readOnly (loadTranslationKeys keysFile).
Proof.
  unfold loadTranslationKeys. apply readOnly_tryCatch.
  - apply readOnly_bind; [apply readOnly_readJson|].
    intros a. apply readOnly_ret.
  - intros e. repeat (apply readOnly_bind; [apply readOnly_log|]; intros _).
    apply readOnly_exit.
Qed.

Lemma replaceInFile_dry_readOnly filePath translationKeys backup :
  readOnly (replaceInFile filePath translationKeys backup true).
Proof.
  unfold replaceInFile. apply readOnly_bind; [apply readOnly_readFile|].
  intros content.
  pose proof (applyPatterns_logged filePath
                (patterns (textToKeyMap translationKeys)) content 0 []
                (List.Forall_nil _)) as Hl.
  destruct (applyPatterns _ _ _ _ _) as [[newContent n] logged].
  simpl in Hl.
  apply readOnly_bind; [by apply readOnly_forEach_emit|].
  intros _. apply readOnly_bind; [|intros _; apply readOnly_ret].
  rewrite andb_false_r, andb_true_r.
  destruct (0 <? n); [apply readOnly_log|].
  destruct (n =? 0); [apply readOnly_log | apply readOnly_ret].
Qed.

Lemma replaceLoop_dry_readOnly translationKeys backup fileList :
  forall total summary,
    readOnly (replaceLoop fileList translationKeys backup true total summary).
Proof.
  induction fileList as [|f fileList IH]; intros total summary; simpl.
  - apply readOnly_ret.
  - apply readOnly_bind; [|intros st; apply IH].
    apply readOnly_tryCatch.
    + apply readOnly_bind; [apply replaceInFile_dry_readOnly|].
      intros n. destruct (0 <? n); apply readOnly_ret.
    + intros e. apply readOnly_bind; [apply readOnly_log|].
      intros _. apply readOnly_ret.
Qed.

Lemma replace_dry_readOnly options :
  dryRun options = true -> readOnly (replace options).
Proof.
  intros Hdry. unfold replace. rewrite Hdry.
  repeat (apply readOnly_bind; [apply readOnly_log|]; intros _).
  apply readOnly_bind; [apply loadTranslationKeys_readOnly|].
  intros ks. apply readOnly_bind; [apply readOnly_log|]. intros _.
  apply readOnly_bind; [apply readOnly_glob|]. intros fileList.
  apply readOnly_bind; [apply readOnly_log|]. intros _.
  apply readOnly_bind; [apply replaceLoop_dry_readOnly|]. intros st.
  apply readOnly_bind; [apply readOnly_log|]. intros _.
  destruct (snd st) as [|row rows]; [apply readOnly_ret|].
  apply readOnly_bind; [apply readOnly_log|]. intros _.
  apply readOnly_forEach_emit. apply Forall_map. by apply Forall_true.
Qed.

(** The value returned by [replaceInFile] on a readable file, with or
    without dry-run. *)
Lemma replaceInFile_count filePath translationKeys backup dry w content :
  files w !! filePath = Some content ->
  fst (replaceInFile filePath translationKeys backup dry w)
  = Ret (replacementCount filePath translationKeys content).
Proof.
  intros Hfile. unfold replaceInFile, replacementCount, bind at 1, readFile.
  rewrite Hfile.
  destruct (applyPatterns _ _ _ _ _) as [[newContent n] logged].
  unfold bind at 1. rewrite forEach_emit_run. simpl.
  destruct (0 <? n), dry, backup, (n =? 0); reflexivity.
Qed.

(** In dry-run mode a positive count is reported on the log. *)
Lemma replaceInFile_dry_report filePath translationKeys backup w content :
  files w !! filePath = Some content ->
  0 < replacementCount filePath translationKeys content ->
  ELog LInfo
    (str "[DRY RUN] Would update " ++ filePath ++ str " with "
     ++ decimal (replacementCount filePath translationKeys content)
     ++ str " replacements")
  ∈ events (snd (replaceInFile filePath translationKeys backup true w)).
Proof.
  intros Hfile Hpos.
  unfold replaceInFile, replacementCount in *. unfold bind at 1, readFile.
  rewrite Hfile.
  destruct (applyPatterns _ _ _ _ _) as [[newContent n] logged].
  simpl in Hpos. unfold bind at 1. rewrite forEach_emit_run.
  apply Nat.ltb_lt in Hpos. rewrite Hpos. simpl.
  apply elem_of_app. right. apply elem_of_cons. by left.
Qed.

End Replacement.

Section ReplacementClaims.
Import Replacer Samples.

(** C8: with dry-run enabled the Replacement Engine writes nothing (the
    files are as they were, no backup is created, no write is issued),
    whatever the files and the dataset, while [replaceInFile] returns the
    same count as without dry-run and reports a positive count on the
    log. *)
Theorem dry_run_no_writes filePath translationKeys backup options w :
  let r := replaceInFile filePath translationKeys backup true w in
  files (snd r) = files w
  /\ writesOf (events (snd r)) = writesOf (events w)
  /\ (dryRun options = true ->
      files (snd (replace options w)) = files w
      /\ writesOf (events (snd (replace options w))) = writesOf (events w))
  /\ (forall content,
        files w !! filePath = Some content ->
        let n := replacementCount filePath translationKeys content in
        fst r = Ret n
        /\ fst (replaceInFile filePath translationKeys backup false w) = Ret n
        /\ (0 < n ->
            ELog LInfo
              (str "[DRY RUN] Would update " ++ filePath ++ str " with "
               ++ decimal n ++ str " replacements") ∈ events (snd r))).
Proof.
  intros r.
  destruct (replaceInFile_dry_readOnly filePath translationKeys backup w)
    as (H1 & _ & _ & _ & _ & H5).
  split; [exact H1|]. split; [exact H5|]. split.
  - intros Hdry.
    destruct (replace_dry_readOnly options Hdry w)
      as (G1 & _ & _ & _ & _ & G5).
    by split.
  - intros content Hfile n. split; [by apply replaceInFile_count|].
    split; [by apply replaceInFile_count|].
    intros Hpos. by apply replaceInFile_dry_report.
Qed.

Lemma dry_run_no_writes_witness :
  dryRun (replaceOptions true) = true
  /\ files throwWorld !! authServicePath = Some throwWithObject
  /\ 0 < replacementCount authServicePath [userExists] throwWithObject
  /\ files (snd (replace (replaceOptions true) throwWorld))
     = files throwWorld
  /\ fst (replaceInFile authServicePath [userExists] true true throwWorld)
     = Ret 1.
Proof.
  pose proof (dry_run_no_writes authServicePath [userExists] true
                (replaceOptions true) throwWorld) as (_ & _ & Hrun & Hfile).
  assert (Hdry : dryRun (replaceOptions true) = true) by reflexivity.
  assert (Hread : files throwWorld !! authServicePath = Some throwWithObject)
    by (vm_compute; reflexivity).
  assert (Hcount : replacementCount authServicePath [userExists]
                     throwWithObject = 1) by (vm_compute; reflexivity).
  split; [exact Hdry|]. split; [exact Hread|].
  split; [rewrite Hcount; lia|].
  split; [exact (proj1 (Hrun Hdry))|].
  rewrite <- Hcount. exact (proj1 (Hfile _ Hread)).
Defined.

(** C1 on the input of the test suite: the call is thrown with a second
    argument, the text of its first argument is in the dataset; the whole
    argument list is replaced and the second argument is gone from the file
    that is written. *)
Lemma exception_object_argument_dropped :
  files (snd (replaceInFile authServicePath [userExists] true false
                throwWorld)) !! authServicePath
  = Some (str "throw new BadRequestException(this.translate('AUTH.AUTH_SERVICE.EXCEPTION.USER_ALREADY_EXISTS'));")
  /\ includes throwWithObject (str "{ userId: 123 }") = true
  /\ forall written,
       files (snd (replaceInFile authServicePath [userExists] true false
                     throwWorld)) !! authServicePath = Some written ->
       includes written (str "{ userId: 123 }") = false.
Proof.
  assert (E : files (snd (replaceInFile authServicePath [userExists] true
                            false throwWorld)) !! authServicePath
              = Some (str "throw new BadRequestException(this.translate('AUTH.AUTH_SERVICE.EXCEPTION.USER_ALREADY_EXISTS'));"))
    by (vm_compute; reflexivity).
  split; [exact E|]. split; [vm_compute; reflexivity|].
  intros written Hw. rewrite E in Hw. injection Hw as <-.
  vm_compute; reflexivity.
Qed.

End ReplacementClaims.

(** * Computations with a known trace *)

Section Emits.

Lemma push_app w l1 l2 : push w (l1 ++ l2) = push (push w l1) l2.
Proof. apply fold_left_app. Qed.

Lemma push_now l : forall w, now (push w l) = now w.
Proof. induction l as [|e l IH]; intros w; [done|]. simpl. by rewrite IH. Qed.

Lemma push_events l : forall w, events (push w l) = events w ++ l.
Proof.
  induction l as [|e l IH]; intros w; simpl; [by rewrite app_nil_r|].
  rewrite IH. simpl. by rewrite <- app_assoc.
Qed.

Lemma emits_ret {A} t (a : A) : emits t (ret a) a [].
Proof. by intros w _. Qed.

Lemma emits_bind {A B} t (c : M A) (f : A -> M B) a b e1 e2 :
  emits t c a e1 -> emits t (f a) b e2 -> emits t (bind c f) b (e1 ++ e2).
Proof.
  intros Hc Hf w Hw. unfold bind. rewrite (Hc w Hw).
  rewrite (Hf (push w e1)) by (by rewrite push_now).
  by rewrite push_app.
Qed.

Lemma emits_emit t e :
  (match e with EWrite _ _ => False | _ => True end) ->
  emits t (emit e) tt [e].
Proof. intros He w _. unfold emit, push, step. simpl. by destruct e. Qed.

Lemma emits_log t level message :
  emits t (log level message) tt [ELog level message].
Proof. by apply emits_emit. Qed.

Lemma emits_ensureDir t p : emits t (ensureDir p) tt [EEnsureDir p].
Proof. by apply emits_emit. Qed.

Lemma emits_writeFile t p c : emits t (writeFile p c) tt [EWrite p c].
Proof. by intros w _. Qed.

Lemma emits_forEach {A} t (l : list A) body evs :
  (forall x, emits t (body x) tt (evs x)) ->
  emits t (forEach l body) tt (flat_map evs l).
Proof.
  intros Hb. induction l as [|x l IH]; simpl.
  - apply emits_ret.
  - eapply emits_bind; [apply Hb | apply IH].
Qed.

End Emits.

(** * The Template Generator *)

Section Generation.
Import Generator.

Lemma generateReadme_emits t name dir n languages :
  emits t (generateReadme name dir n languages) tt
    [EWrite (Path.join [dir; str "README.md"])
       (readmeContent name n languages t);
     ELog LInfo (str "Generated " ++ Path.join [dir; str "README.md"])].
Proof.
  intros w Hw. unfold generateReadme. rewrite Hw.
  apply (emits_bind t _ _ tt tt [_] [_]); [apply emits_writeFile | | done].
  apply emits_log.
Qed.

Lemma generateServiceTranslations_emits t st languages template :
  emits t (generateServiceTranslations st languages template) tt
    (serviceEvents languages template t st).
Proof.
  unfold generateServiceTranslations, serviceEvents.
  eapply emits_bind; [apply emits_log|].
  eapply emits_bind; [apply emits_log|].
  eapply emits_bind; [apply emits_ensureDir|].
  eapply emits_bind; [apply emits_writeFile|].
  eapply emits_bind; [apply emits_log|].
  eapply emits_bind; [|apply generateReadme_emits].
  destruct template; [|apply emits_ret].
  apply emits_forEach. intros lang. unfold templateEvents.
  destruct (eqs lang (str "en")); [apply emits_ret|].
  apply (emits_bind t _ _ tt tt [_] [_]); [apply emits_writeFile|].
  apply emits_log.
Qed.

Lemma writesOf_templateEvents st languages :
  writesOf (flat_map (templateEvents st) languages)
  = map (templateWrite st)
      (List.filter (fun lang => negb (eqs lang (str "en"))) languages).
Proof.
  induction languages as [|lang languages IH]; [done|].
  cbn [flat_map List.filter]. rewrite writesOf_app, IH.
  unfold templateEvents.
  by destruct (eqs lang (str "en")).
Qed.

Lemma writesOf_serviceEvents languages template t st :
  writesOf (serviceEvents languages template t st)
  = serviceWrites languages template t st.
Proof.
  unfold serviceEvents, serviceWrites.
  rewrite !writesOf_app. simpl. f_equal. f_equal.
  destruct template; [apply writesOf_templateEvents | done].
Qed.

Lemma writesOf_flat_map {A} (f : A -> list Event) l :
  writesOf (flat_map f l) = flat_map (fun x => writesOf (f x)) l.
Proof.
  induction l as [|x l IH]; [done|]. simpl. by rewrite writesOf_app, IH.
Qed.

Lemma bind_run {A B} (c : M A) (f : A -> M B) w a w' :
  c w = (Ret a, w') -> bind c f w = f a w'.
Proof. intros H. unfold bind. by rewrite H. Qed.

Lemma loadTranslationKeys_found inputFile w data :
  json w !! inputFile = Some data ->
  loadTranslationKeys inputFile w = (Ret data, w).
Proof.
  intros H. unfold loadTranslationKeys, tryCatch, readJson. by rewrite H.
Qed.

(** A run of [generate] on a dataset that is not empty. *)
Lemma generate_run options w data ks :
  json w !! input options = Some data ->
  keys data = Some ks -> ks <> [] ->
  generate options w
  = (Ret tt,
     push w
       ([ELog LHeader (str "Translation File Generation")]
        ++ [ELog LInfo (str "Loaded " ++ decimal (length ks)
                        ++ str " translation keys")]
        ++ [ELog LInfo (str "Found "
                        ++ decimal (length (groupByService ks))
                        ++ str " services")]
        ++ flat_map (serviceEvents (languages options) (template options)
                       (now w))
             (groupByService ks)
        ++ [ELog LSuccess (str "Translation files generated successfully!")])).
Proof.
  intros Hjson Hkeys Hne. unfold generate.
  rewrite (push_app w [_]).
  set (w1 := push w [ELog LHeader (str "Translation File Generation")]).
  assert (Hnow : now w1 = now w) by apply push_now.
  erewrite bind_run; [|by apply (emits_log (now w))]. fold w1.
  erewrite bind_run; [|by apply loadTranslationKeys_found].
  rewrite Hkeys.
  destruct ks as [|k ks']; [done|]. set (ks := k :: ks').
  assert (Hlen : (length ks =? 0) = false) by done. rewrite Hlen.
  apply (emits_bind (now w) _ _ tt tt [_]); [apply emits_log | | done].
  apply (emits_bind (now w) _ _ tt tt [_]); [apply emits_log|].
  eapply emits_bind; [|apply emits_log].
  apply emits_forEach. intros st. apply generateServiceTranslations_emits.
Qed.

End Generation.

(** * The translation objects *)

Section Objects.
Import Generator.

Lemma eqs_true a : forall b, eqs a b = true <-> a = b.
Proof.
  induction a as [|x a IH]; intros [|y b]; simpl; try done.
  unfold eqc. rewrite andb_true_iff, Ascii.eqb_eq, IH.
  split; [by intros [-> ->] | by intros [= -> ->]].
Qed.

Lemma get_define k k' v obj :
  JSObject.get k (JSObject.define k' v obj)
  = if eqs k' k then Some v else JSObject.get k obj.
Proof.
  induction obj as [|[k0 v0] obj IH]; simpl.
  - done.
  - destruct (eqs k0 k') eqn:E0; simpl.
    + apply eqs_true in E0 as ->. by destruct (eqs k' k).
    + destruct (eqs k0 k) eqn:E1; [|exact IH].
      apply eqs_true in E1 as ->.
      destruct (eqs k' k) eqn:E2; [|done].
      apply eqs_true in E2 as ->.
      assert (eqs k k = true) by (by apply eqs_true). congruence.
Qed.

Lemma get_set k k' v obj :
  JSObject.get k (JSObject.set k' v obj)
  = if eqs k' (str "__proto__") then JSObject.get k obj
    else if eqs k' k then Some v else JSObject.get k obj.
Proof.
  unfold JSObject.set. destruct (eqs k' (str "__proto__")); [done|].
  apply get_define.
Qed.

(** Each property of the object built from a list of keys holds the text,
    unchanged, of an entry of the list with that key (the last one); the
    name [__proto__] is never defined. *)
Lemma createTranslationObject_get l : forall obj k,
  k <> str "__proto__" ->
  (exists e, e ∈ l /\ key e = k
             /\ JSObject.get k
                  (fold_left (fun o e => JSObject.set (key e) (text e) o) l obj)
                = Some (text e))
  \/ (JSObject.get k
        (fold_left (fun o e => JSObject.set (key e) (text e) o) l obj)
      = JSObject.get k obj
      /\ forall e, e ∈ l -> key e <> k).
Proof.
  induction l as [|a l IH]; intros obj k Hk; simpl.
  - right. split; [done|]. intros e He. by apply elem_of_nil in He.
  - destruct (IH (JSObject.set (key a) (text a) obj) k Hk)
      as [(e & He & Hke & Hg)|[Hg Hno]].
    + left. exists e. split; [apply elem_of_cons; by right | done].
    + rewrite get_set in Hg. destruct (eqs (key a) k) eqn:E.
      * apply eqs_true in E.
        destruct (eqs (key a) (str "__proto__")) eqn:Ep;
          [apply eqs_true in Ep; congruence|].
        left. exists a. split; [apply elem_of_cons; by left | done].
      * right. split; [by destruct (eqs (key a) (str "__proto__"))|].
        intros e He.
        apply elem_of_cons in He as [->|He]; [|by apply Hno].
        intros Heq. apply eqs_true in Heq. congruence.
Qed.

Lemma createTranslationObject_verbatim l e :
  e ∈ l -> key e <> str "__proto__" ->
  exists e', e' ∈ l /\ key e' = key e
             /\ JSObject.get (key e) (createTranslationObject l)
                = Some (text e').
Proof.
  intros He Hk. unfold createTranslationObject.
  destruct (createTranslationObject_get l [] (key e) Hk)
    as [(e' & He' & Hke & Hg)|[_ Hno]]; [by exists e'|].
  by destruct (Hno e He).
Qed.

(** The map of [groupByService] files every key under the first segment of
    its path, and holds nothing else. *)
Lemma addToService_new name k serviceMap :
  exists l, (name, l) ∈ addToService name k serviceMap /\ k ∈ l.
Proof.
  induction serviceMap as [|[n l] serviceMap IH]; simpl.
  - exists [k]. split; apply elem_of_cons; by left.
  - destruct (eqs n name) eqn:E.
    + apply eqs_true in E as ->. exists (l ++ [k]).
      split; [apply elem_of_cons; by left|].
      apply elem_of_app. right. apply elem_of_cons. by left.
    + destruct IH as (l' & Hin & Hk). exists l'.
      split; [apply elem_of_cons; by right | done].
Qed.

Lemma addToService_old name k serviceMap n l e :
  (n, l) ∈ serviceMap -> e ∈ l ->
  exists l', (n, l') ∈ addToService name k serviceMap /\ e ∈ l'.
Proof.
  induction serviceMap as [|[n0 l0] serviceMap IH]; intros Hin He.
  - by apply elem_of_nil in Hin.
  - simpl. apply elem_of_cons in Hin as [[= -> ->]|Hin].
    + destruct (eqs n0 name).
      * exists (l0 ++ [k]). split; [apply elem_of_cons; by left|].
        apply elem_of_app. by left.
      * exists l0. split; [apply elem_of_cons; by left | done].
    + destruct (eqs n0 name).
      * exists l. split; [apply elem_of_cons; by right | done].
      * destruct (IH Hin He) as (l' & Hin' & He'). exists l'.
        split; [apply elem_of_cons; by right | done].
Qed.

Lemma addToService_origin name k serviceMap n l e :
  (n, l) ∈ addToService name k serviceMap -> e ∈ l ->
  (e = k /\ n = name) \/ exists l', (n, l') ∈ serviceMap /\ e ∈ l'.
Proof.
  induction serviceMap as [|[n0 l0] serviceMap IH]; simpl; intros Hin He.
  - apply list_elem_of_singleton in Hin as [= -> ->].
    apply list_elem_of_singleton in He. by left.
  - destruct (eqs n0 name) eqn:E.
    + apply elem_of_cons in Hin as [[= -> ->]|Hin].
      * apply elem_of_app in He as [He|He].
        -- right. exists l0. split; [apply elem_of_cons; by left | done].
        -- apply list_elem_of_singleton in He. apply eqs_true in E. by left.
      * right. exists l. split; [apply elem_of_cons; by right | done].
    + apply elem_of_cons in Hin as [[= -> ->]|Hin].
      * right. exists l0. split; [apply elem_of_cons; by left | done].
      * destruct (IH Hin He) as [?|(l' & Hin' & He')]; [by left|].
        right. exists l'. split; [apply elem_of_cons; by right | done].
Qed.

Lemma serviceMapOf_spec ks : forall serviceMap,
  (forall e, e ∈ ks ->
     exists l, (firstSegment (file e), l) ∈ serviceMapOf ks serviceMap
               /\ e ∈ l)
  /\ (forall n l e, (n, l) ∈ serviceMap -> e ∈ l ->
        exists l', (n, l') ∈ serviceMapOf ks serviceMap /\ e ∈ l')
  /\ (forall n l e, (n, l) ∈ serviceMapOf ks serviceMap -> e ∈ l ->
        (e ∈ ks /\ n = firstSegment (file e))
        \/ exists l', (n, l') ∈ serviceMap /\ e ∈ l').
Proof.
  induction ks as [|k ks IH]; intros serviceMap; simpl.
  - split; [intros e He; by apply elem_of_nil in He|].
    split; [intros n l e Hin He; by exists l|].
    intros n l e Hin He. right. by exists l.
  - destruct (IH (addToService (firstSegment (file k)) k serviceMap))
      as (H1 & H2 & H3).
    split; [|split].
    + intros e He. apply elem_of_cons in He as [->|He]; [|by apply H1].
      destruct (addToService_new (firstSegment (file k)) k serviceMap)
        as (l & Hin & Hk).
      by apply (H2 _ l).
    + intros n l e Hin He.
      destruct (addToService_old (firstSegment (file k)) k _ _ _ _ Hin He)
        as (l' & Hin' & He').
      by apply (H2 _ l').
    + intros n l e Hin He.
      destruct (H3 n l e Hin He) as [[Hks ->]|(l' & Hin' & He')].
      * left. split; [apply elem_of_cons; by right | done].
      * destruct (addToService_origin _ _ _ _ _ _ Hin' He')
          as [[-> ->]|(l'' & Hin'' & He'')].
        -- left. split; [apply elem_of_cons; by left | done].
        -- right. by exists l''.
Qed.

(** Every key of the dataset has its service, and the object of the service
    maps the key to the text of an entry of that dataset and service with
    this key. *)
Lemma groupByService_verbatim ks e :
  e ∈ ks -> key e <> str "__proto__" ->
  exists st e',
    st ∈ groupByService ks
    /\ serviceName st = firstSegment (file e)
    /\ e' ∈ ks /\ key e' = key e
    /\ firstSegment (file e') = firstSegment (file e)
    /\ JSObject.get (key e) (translations st) = Some (text e').
Proof.
  intros He Hproto. destruct (serviceMapOf_spec ks []) as (H1 & _ & H3).
  destruct (H1 e He) as (l & Hin & Hel).
  destruct (createTranslationObject_verbatim l e Hel Hproto)
    as (e' & He' & Hk & Hg).
  exists {| serviceName := firstSegment (file e);
            translations := createTranslationObject l;
            totalKeys := length l |}, e'.
  split.
  { unfold groupByService. apply list_elem_of_In, in_map_iff.
    exists (firstSegment (file e), l). split; [done|].
    by apply list_elem_of_In. }
  split; [done|].
  destruct (H3 _ _ e' Hin He') as [[Hks Hseg]|(l' & Habs & _)];
    [|by apply elem_of_nil in Habs].
  by repeat split.
Qed.

End Objects.

Section GenerationClaims.
Import Generator Samples.

(** C10: on a dataset that is not empty the generator writes, for every
    service, the file [en.json] holding the object that maps each key to
    its text, whatever the list of requested languages; the files of the
    other requested languages are written when, and only when, the
    template option is set (without it the only writes are [en.json] and
    the README of each service).  The object of a service maps each key of
    the service to the text, unchanged, of an entry with this key (the
    name [__proto__], which JavaScript does not store, apart). *)
Theorem en_json_unconditional options w data ks :
  json w !! input options = Some data ->
  keys data = Some ks -> ks <> [] ->
  exists w',
    generate options w = (Ret tt, w')
    /\ writesOf (events w')
       = writesOf (events w)
         ++ flat_map (serviceWrites (languages options) (template options)
                        (now w))
              (groupByService ks)
    /\ (forall st, st ∈ groupByService ks -> enWrite st ∈ events w')
    /\ (forall e, e ∈ ks -> key e <> str "__proto__" ->
          exists st e',
            st ∈ groupByService ks
            /\ serviceName st = firstSegment (file e)
            /\ e' ∈ ks /\ key e' = key e
            /\ firstSegment (file e') = firstSegment (file e)
            /\ JSObject.get (key e) (translations st) = Some (text e'))
    /\ (template options = false ->
        writesOf (events w')
        = writesOf (events w)
          ++ flat_map (fun st => [enWrite st;
                                  readmeWrite st (languages options) (now w)])
               (groupByService ks)).
Proof.
  intros Hjson Hkeys Hne. eexists. split; [by eapply generate_run|].
  assert (Hw : writesOf
                 (events
                    (push w
                       ([ELog LHeader (str "Translation File Generation")]
                        ++ [ELog LInfo (str "Loaded " ++ decimal (length ks)
                                        ++ str " translation keys")]
                        ++ [ELog LInfo (str "Found "
                                        ++ decimal (length (groupByService ks))
                                        ++ str " services")]
                        ++ flat_map (serviceEvents (languages options)
                                       (template options) (now w))
                             (groupByService ks)
                        ++ [ELog LSuccess
                              (str "Translation files generated successfully!")])))
               = writesOf (events w)
                 ++ flat_map (serviceWrites (languages options)
                                (template options) (now w))
                      (groupByService ks)).
  { rewrite push_events, !writesOf_app. simpl. rewrite app_nil_r. f_equal.
    rewrite writesOf_flat_map. apply flat_map_ext. intros st.
    apply writesOf_serviceEvents. }
  split; [exact Hw|]. split; [|split].
  - intros st Hst.
    assert (Hin : enWrite st ∈ writesOf (events (push w
       ([ELog LHeader (str "Translation File Generation")]
        ++ [ELog LInfo (str "Loaded " ++ decimal (length ks)
                        ++ str " translation keys")]
        ++ [ELog LInfo (str "Found "
                        ++ decimal (length (groupByService ks))
                        ++ str " services")]
        ++ flat_map (serviceEvents (languages options) (template options)
                       (now w))
             (groupByService ks)
        ++ [ELog LSuccess
              (str "Translation files generated successfully!")])))).
    { rewrite Hw. apply elem_of_app. right.
      apply list_elem_of_In, in_flat_map. exists st.
      split; [by apply list_elem_of_In|]. by left. }
    unfold writesOf in Hin. apply list_elem_of_In, filter_In in Hin as [Hin _].
    by apply list_elem_of_In.
  - intros e He Hproto. by apply groupByService_verbatim.
  - intros Htpl. rewrite Hw. f_equal. apply flat_map_ext. intros st.
    unfold serviceWrites. by rewrite Htpl.
Qed.

Lemma en_json_unconditional_witness :
  json throwWorld !! input (generationOptions [str "fr"; str "de"] false)
  = Some {| keys := Some [userExists] |}
  /\ [userExists] <> []
  /\ exists w',
       generate (generationOptions [str "fr"; str "de"] false) throwWorld
       = (Ret tt, w')
       /\ forall st, st ∈ groupByService [userExists] ->
                     enWrite st ∈ events w'.
Proof.
  assert (Hjson : json throwWorld
                    !! input (generationOptions [str "fr"; str "de"] false)
                  = Some {| keys := Some [userExists] |})
    by (vm_compute; reflexivity).
  assert (Hne : [userExists] <> []) by discriminate.
  split; [exact Hjson|]. split; [exact Hne|].
  destruct (en_json_unconditional
              (generationOptions [str "fr"; str "de"] false) throwWorld
              _ [userExists] Hjson eq_refl Hne) as (w' & Hrun & _ & Hen & _).
  exists w'. by split.
Defined.

(** C2, as stated, fails for the Replacement stage: without the dataset
    file the run logs the error and ends the process with status 1. *)
Lemma missing_dataset_counterexample :
  json noDatasetWorld !! Replacer.keysFile (replaceOptions false) = None
  /\ fst (Replacer.replace (replaceOptions false) noDatasetWorld) = Exit 1.
Proof. split; vm_compute; reflexivity. Qed.

(** C2, amended: when the dataset file cannot be read, neither stage
    throws.  The loader of the Generation stage logs the error and yields
    the empty dataset, with which the stage goes on: it logs that 0 keys
    were loaded and 0 services found and that it skips the generation,
    writes nothing and returns normally.  The loader of the Replacement
    stage logs the error and ends the process with status 1: the stage
    does nothing after it and has written nothing. *)
Theorem missing_dataset goptions roptions w :
  let generationError :=
    [ELog LError (str "Error loading translation keys from "
                  ++ input goptions ++ str ": " ++ readError);
     ELog LInfo
       (str "Run translation-extract first to generate translation keys")] in
  let replacementError :=
    [ELog LError (str "Error loading translation keys from "
                  ++ Replacer.keysFile roptions ++ str ": " ++ readError);
     ELog LInfo
       (str "Run translation extract first to generate translation keys")] in
  (json w !! input goptions = None ->
   loadTranslationKeys (input goptions) w
   = (Ret {| keys := Some [] |}, push w generationError)
   /\ exists w',
        generate goptions w = (Ret tt, w')
        /\ events w'
           = events w
             ++ [ELog LHeader (str "Translation File Generation")]
             ++ generationError
             ++ [ELog LInfo (str "Loaded 0 translation keys");
                 ELog LInfo (str "Found 0 services");
                 ELog LInfo
                   (str "No translation keys found, skipping file generation")]
        /\ files w' = files w
        /\ writesOf (events w') = writesOf (events w))
  /\ (json w !! Replacer.keysFile roptions = None ->
      Replacer.loadTranslationKeys (Replacer.keysFile roptions) w
      = (Exit 1, push w replacementError)
      /\ exists w',
           Replacer.replace roptions w = (Exit 1, w')
           /\ events w'
              = events w
                ++ [ELog LHeader (str "Translation String Replacement");
                    ELog LInfo (str "Searching in: " ++ Replacer.path roptions);
                    ELog LInfo (str "Using keys from: "
                                ++ Replacer.keysFile roptions)]
                ++ replacementError
           /\ files w' = files w
           /\ writesOf (events w') = writesOf (events w)).
Proof.
  intros generationError replacementError.
  split; intros Hjson.
  - split.
    + unfold loadTranslationKeys, tryCatch, readJson. rewrite Hjson.
      reflexivity.
    + eexists. split.
      * unfold generate, bind, log, emit, loadTranslationKeys, tryCatch,
          readJson. cbn [json]. rewrite Hjson. cbn. reflexivity.
      * cbn [events files]. split.
        { rewrite <- !app_assoc. reflexivity. }
        split; [done|]. rewrite !writesOf_app. cbn.
        by rewrite !app_nil_r.
  - split.
    + unfold Replacer.loadTranslationKeys, tryCatch, readJson, bind.
      rewrite Hjson. reflexivity.
    + eexists. split.
      * unfold Replacer.replace, bind, log, emit,
          Replacer.loadTranslationKeys, tryCatch, readJson, bind, exit.
        cbn [json]. rewrite Hjson. cbn. reflexivity.
      * cbn [events files]. split.
        { rewrite <- !app_assoc. reflexivity. }
        split; [done|]. rewrite !writesOf_app. cbn.
        by rewrite !app_nil_r.
Qed.

Lemma missing_dataset_witness :
  json noDatasetWorld !! input (generationOptions [str "en"] true) = None
  /\ json noDatasetWorld !! Replacer.keysFile (replaceOptions false) = None
  /\ (exists w', generate (generationOptions [str "en"] true) noDatasetWorld
                 = (Ret tt, w')
                 /\ ELog LInfo (str "Loaded 0 translation keys") ∈ events w'
                 /\ files w' = files noDatasetWorld)
  /\ (exists w', Replacer.replace (replaceOptions false) noDatasetWorld
                 = (Exit 1, w')
                 /\ ELog LError
                      (str "Error loading translation keys from translation-keys.json: "
                       ++ readError) ∈ events w'
                 /\ files w' = files noDatasetWorld).
Proof.
  assert (H1 : json noDatasetWorld
                 !! input (generationOptions [str "en"] true) = None)
    by (vm_compute; reflexivity).
  assert (H2 : json noDatasetWorld
                 !! Replacer.keysFile (replaceOptions false) = None)
    by (vm_compute; reflexivity).
  split; [exact H1|]. split; [exact H2|].
  destruct (missing_dataset (generationOptions [str "en"] true)
              (replaceOptions false) noDatasetWorld) as [Hg Hr].
  split.
  - destruct (Hg H1) as (_ & w' & Hrun & Hev & Hfiles & _). exists w'.
    split; [exact Hrun|]. split; [|exact Hfiles].
    rewrite Hev. apply elem_of_app. right. apply elem_of_app. right.
    apply elem_of_app. right. apply elem_of_cons. by left.
  - destruct (Hr H2) as (_ & w' & Hrun & Hev & Hfiles & _). exists w'.
    split; [exact Hrun|]. split; [|exact Hfiles].
    rewrite Hev. apply elem_of_app. right. apply elem_of_app. right.
    apply elem_of_cons. by left.
Defined.

End GenerationClaims.

(** * The expectations of the test suite of the repository *)

Section TestSuite.
Import Extractor Samples.

(** The workflow test: seven keys, in this order. *)
Example workflow_extraction :
  match extract sampleContext workflowWorld workflowOptions with
  | Ret out => map (fun e => (type e, text e)) out
  | _ => []
  end
  = [ (str "EXCEPTION", str "User already exists with this email");
      (str "RETURN_MESSAGE", str "Validation failed");
      (str "TEMPLATE_LITERAL", str "The field '${fieldName}' is required");
      (str "MESSAGE_PROPERTY", str "Validation failed");
      (str "EXCEPTION", str "Profile not found");
      (str "RETURN_MESSAGE", str "Profile updated successfully");
      (str "MESSAGE_PROPERTY", str "Profile updated successfully") ].
Proof. vm_compute; reflexivity. Qed.

(** The replacement test on a simple exception: the backup holds the
    original text and the file the call of the lookup. *)
Example simple_exception_replacement :
  let w := {| files := {[ authServicePath
                          := str "throw new BadRequestException('User already exists with this email');" ]};
              sizes := ∅; json := ∅; tsFiles := [authServicePath];
              now := timestamp; events := [] |} in
  let w' := snd (Replacer.replaceInFile authServicePath [userExists]
                   true false w) in
  files w' !! authServicePath
  = Some (str "throw new BadRequestException(this.translate('AUTH.AUTH_SERVICE.EXCEPTION.USER_ALREADY_EXISTS'));")
  /\ files w' !! (authServicePath ++ str ".backup")
     = Some (str "throw new BadRequestException('User already exists with this email');").
Proof. split; vm_compute; reflexivity. Qed.

(** The extraction with the default patterns always returns. *)
Lemma extract_default_returns ctx w options :
  patterns options = defaultPatterns ->
  0 < concurrency options ->
  validate options && negb (Validator.validatePath (path options)) = false ->
  exists out, extract ctx w options = Ret out.
Proof.
  intros Hp Hc Hv. eexists. apply extract_total; [|done|done].
  rewrite Hp. apply defaultPatterns_nonempty.
Qed.

End TestSuite.

(** * Further properties of the matcher *)

Section Replacing.
Import Notions.

(** Replacing every match by itself gives the input back. *)
Lemma pieces_matched r : forall s p i skip,
  flat_map (render matched) (pieces r p s i skip) = skipn skip s.
Proof.
  induction s as [|c t IH]; intros p i skip.
  - destruct skip; simpl; [|done].
    unfold matchAt. destruct (m r _ Some); simpl; [|done].
    by destruct (_ - _).
  - destruct skip as [|k]; [|simpl; apply IH].
    cbn [pieces]. unfold matchAt.
    destruct (m r _ Some) as [y|]; cbn [index endIndex matched].
    + destruct (pos y - i) as [|n] eqn:E; cbn [flat_map render matched].
      * simpl. by rewrite IH.
      * rewrite IH. simpl. by rewrite firstn_skipn.
    + simpl. by rewrite IH.
Qed.

Lemma replaceAll_matched r s : replaceAll r matched s = s.
Proof. unfold replaceAll. by rewrite pieces_matched. Qed.

(** A replacement function that returns the match on the matches it is
    given leaves the input as it is: the replacement and the matches. *)
Lemma pieces_ext r f g : forall s p i skip,
  (forall res, res ∈ hits (pieces r p s i skip) -> f res = g res) ->
  flat_map (render f) (pieces r p s i skip)
  = flat_map (render g) (pieces r p s i skip).
Proof.
  intros s p i skip. induction (pieces r p s i skip) as [|pc ps IH];
    intros H; [done|].
  simpl. destruct pc as [c|res]; simpl.
  - f_equal. apply IH. intros res Hres. apply H. by simpl.
  - rewrite (H res) by (simpl; apply elem_of_cons; by left).
    f_equal. apply IH. intros res' Hres. apply H. simpl.
    apply elem_of_cons. by right.
Qed.

Lemma replaceAll_unchanged r f s :
  (forall res, res ∈ allMatches r s -> f res = matched res) ->
  replaceAll r f s = s.
Proof.
  intros H. rewrite <- (replaceAll_matched r s) at 2.
  by apply pieces_ext.
Qed.

(** Deleting the matches gives a subsequence of the input. *)
Lemma pieces_sublist r : forall s p i skip,
  flat_map (render (fun _ => [])) (pieces r p s i skip) `sublist_of` s.
Proof.
  induction s as [|c t IH]; intros p i skip.
  - destruct skip; simpl; [|done]. by destruct (matchAt r p [] i).
  - destruct skip as [|k]; [|simpl; apply sublist_cons, IH].
    cbn [pieces]. destruct (matchAt r p (c :: t) i) as [res|].
    + cbn [flat_map render app]. destruct (endIndex res - i).
      * simpl. apply sublist_skip, IH.
      * apply sublist_cons, IH.
    + simpl. apply sublist_skip, IH.
Qed.

Lemma remove_sublist r s : Validator.remove r s `sublist_of` s.
Proof. apply pieces_sublist. Qed.

(** Deleting the characters of a class is a filter. *)
Lemma pieces_Cls q : forall s p i,
  flat_map (render (fun _ => [])) (pieces (Cls q) p s i 0)
  = List.filter (fun c => negb (q c)) s.
Proof.
  induction s as [|c t IH]; intros p i; [done|].
  cbn [pieces]. rewrite matchAt_Cls.
  destruct (q c) eqn:Hq; cbn [endIndex List.filter negb].
  - rewrite Hq. simpl negb. cbv iota.
    replace (S i - i) with 1 by lia. simpl. apply IH.
  - rewrite Hq. simpl. f_equal. apply IH.
Qed.

Lemma remove_Cls q s :
  Validator.remove (Cls q) s = List.filter (fun c => negb (q c)) s.
Proof. apply pieces_Cls. Qed.

(** A greedy run of characters of one class. *)
Lemma repeat_S mr gs greedy k fuel mn mx x :
  repeat mr gs greedy k (S fuel) mn mx x
  = match mx with
    | Some 0 => k x
    | _ =>
        let d := fun y =>
          if (mn =? 0) && (pos y =? pos x) then None
          else repeat mr gs greedy k fuel (Nat.pred mn)
                 (option_map Nat.pred mx) y in
        let xr := clearCaps gs x in
        if 0 <? mn then mr xr d
        else if greedy then orElse (mr xr d) (k x)
             else orElse (k x) (mr xr d)
    end.
Proof. reflexivity. Qed.

Lemma m_Cls_eq q x k :
  m (Cls q) x k
  = match rest x with
    | c' :: t => if q c' then k (advance x c' t) else None
    | [] => None
    end.
Proof. reflexivity. Qed.

Lemma clearCaps_nil x : caps x = [] -> clearCaps [] x = x.
Proof. destruct x; simpl; intros ->; reflexivity. Qed.

Lemma repeat_Cls_run q : forall fuel x,
  caps x = [] -> length (rest x) < fuel ->
  exists y,
    repeat (m (Cls q)) [] true Some fuel 0 None x = Some y
    /\ pos y = pos x + runLength q (rest x) /\ caps y = [].
Proof.
  induction fuel as [|fuel IH]; intros x Hc Hl; [lia|].
  rewrite repeat_S. cbv beta zeta. change (0 <? 0) with false. cbv iota.
  rewrite clearCaps_nil by done. rewrite m_Cls_eq.
  destruct (rest x) as [|c t] eqn:Hr; cbn [orElse runLength].
  { exists x. split; [done|]. split; [lia|done]. }
  destruct (q c) eqn:Hq; cbn [orElse].
  2: { exists x. split; [done|]. split; [lia|done]. }
  change (pos (advance x c t)) with (S (pos x)).
  replace (S (pos x) =? pos x) with false
    by (symmetry; apply Nat.eqb_neq; lia).
  rewrite andb_false_r.
  change (Nat.pred 0) with 0. change (option_map Nat.pred None) with (@None nat).
  destruct (IH (advance x c t)) as (y & E & Hp & Hcy);
    [done|simpl in *; lia|].
  rewrite E. exists y. simpl in *. split; [done|]. split; [lia|done].
Qed.

Lemma m_Plus_Cls_run q x :
  caps x = [] ->
  match rest x with
  | c :: t =>
      if q c then
        exists y, m (Plus (Cls q)) x Some = Some y
                  /\ pos y = pos x + runLength q (rest x) /\ caps y = []
      else m (Plus (Cls q)) x Some = None
  | [] => m (Plus (Cls q)) x Some = None
  end.
Proof.
  intros Hc. unfold Plus.
  change (m (Rep true 1 None (Cls q)) x Some)
    with (repeat (m (Cls q)) [] true Some (S (1 + length (rest x))) 1 None x).
  rewrite repeat_S. cbv beta zeta. change (0 <? 1) with true. cbv iota.
  rewrite clearCaps_nil by done. rewrite m_Cls_eq.
  destruct (rest x) as [|c t] eqn:Hr; [done|].
  destruct (q c) eqn:Hq; [|done].
  change (1 =? 0) with false. cbn [andb].
  change (Nat.pred 1) with 0. change (option_map Nat.pred None) with (@None nat).
  destruct (repeat_Cls_run q (1 + length (c :: t)) (advance x c t))
    as (y & E & Hp & Hcy); [done|simpl; lia|].
  exists y. split; [exact E|]. cbn [runLength]. rewrite Hq.
  simpl in *. split; [lia|done].
Qed.

Lemma matchAt_Plus_Cls_run q p s i :
  matchAt (Plus (Cls q)) p s i
  = match s with
    | c :: t =>
        if q c
        then Some (Result i (i + runLength q s) (firstn (runLength q s) s) [])
        else None
    | [] => None
    end.
Proof.
  unfold matchAt.
  pose proof (m_Plus_Cls_run q (MState p s i []) eq_refl) as H.
  cbn [rest pos] in H. destruct s as [|c t]; [by rewrite H|].
  destruct (q c) eqn:Hq; [|by rewrite H].
  destruct H as (y & -> & Hp & Hc). rewrite Hp, Hc.
  replace (i + runLength q (c :: t) - i) with (runLength q (c :: t)) by lia.
  done.
Qed.

(** Replacing the runs of characters of a class. *)
Lemma pieces_Plus_Cls q by_ : forall s p i,
  flat_map (render (fun _ => by_)) (pieces (Plus (Cls q)) p s i 0)
  = collapse q by_ false s
  /\ flat_map (render (fun _ => by_))
       (pieces (Plus (Cls q)) p s i (runLength q s))
     = collapse q by_ true s.
Proof.
  induction s as [|c t IH]; intros p i.
  - cbn [runLength pieces]. by rewrite matchAt_Plus_Cls_run.
  - assert (H0 : flat_map (render (fun _ => by_))
                   (pieces (Plus (Cls q)) p (c :: t) i 0)
                 = collapse q by_ false (c :: t)).
    { cbn [pieces]. rewrite matchAt_Plus_Cls_run.
      cbn [collapse runLength]. destruct (q c) eqn:Hq.
      - cbn [endIndex].
        replace (i + S (runLength q t) - i) with (S (runLength q t)) by lia.
        cbn [flat_map render]. f_equal. apply IH.
      - simpl. f_equal. apply IH. }
    split; [exact H0|].
    cbn [runLength]. destruct (q c) eqn:Hq.
    + cbn [pieces collapse]. rewrite Hq. simpl. apply IH.
    + rewrite H0. cbn [collapse]. by rewrite Hq.
Qed.

Lemma replaceAll_Plus_Cls q by_ s :
  replaceAll (Plus (Cls q)) (fun _ => by_) s = collapse q by_ false s.
Proof. apply pieces_Plus_Cls. Qed.

End Replacing.

(** * Further properties of the extraction *)

Section KeyText.
Import Extractor Notions.

Lemma replaceAll_Cls q s :
  replaceAll (Cls q) (fun _ => []) s = List.filter (fun c => negb (q c)) s.
Proof. apply pieces_Cls. Qed.

(** The normalization of a text without regular expressions. *)
Lemma cleanText_collapse text :
  cleanText text
  = toUpperCase
      (collapse isSpace (str "_") false (List.filter wordOrSpace text)).
Proof.
  unfold cleanText. rewrite replaceAll_Cls, replaceAll_Plus_Cls.
  do 2 f_equal. apply List.filter_ext. intros c. apply negb_involutive.
Qed.

Lemma isSpace_upperChar c : isSpace (upperChar c) = isSpace c.
Proof. destruct c as [[] [] [] [] [] [] [] []]; reflexivity. Qed.

Lemma collapse_upper b s :
  toUpperCase (collapse isSpace (str "_") b s)
  = collapse isSpace (str "_") b (toUpperCase s).
Proof.
  revert b. induction s as [|c t IH]; intros b; [done|].
  cbn [collapse toUpperCase map]. rewrite isSpace_upperChar.
  unfold toUpperCase in *. destruct (isSpace c).
  - rewrite map_app, IH. by destruct b.
  - simpl. by rewrite IH.
Qed.

End KeyText.

Section KeyProperties.
Import Extractor Notions.

(** X1: the text part of a key, without regular expressions: the characters
    other than letters, digits, underscores and white space are dropped,
    every run of white space becomes one underscore, and the result is put
    in upper case. *)
Theorem generateKey_normal_form text type filePath :
  generateKey text type filePath
  = toUpperCase (serviceNameOf filePath) ++ str "."
    ++ toUpperCase (fileNameOf filePath) ++ str "."
    ++ type ++ str "."
    ++ toUpperCase
         (collapse isSpace (str "_") false (List.filter wordOrSpace text)).
Proof. unfold generateKey. by rewrite cleanText_collapse. Qed.

(** X2: two texts that differ only by the case of their letters and by
    characters other than letters, digits, underscores and white space get
    the same key in the same file and for the same type. *)
Theorem generateKey_collision text1 text2 type filePath :
  toUpperCase (List.filter wordOrSpace text1)
  = toUpperCase (List.filter wordOrSpace text2) ->
  generateKey text1 type filePath = generateKey text2 type filePath.
Proof.
  intros H. unfold generateKey. do 6 f_equal.
  by rewrite !cleanText_collapse, !collapse_upper, H.
Qed.

Lemma generateKey_collision_witness :
  toUpperCase (List.filter wordOrSpace (str "User not found!"))
  = toUpperCase (List.filter wordOrSpace (str "user NOT found"))
  /\ generateKey (str "User not found!") (str "EXCEPTION")
       (str "auth/src/auth.service.ts")
     = generateKey (str "user NOT found") (str "EXCEPTION")
         (str "auth/src/auth.service.ts").
Proof.
  assert (H : toUpperCase (List.filter wordOrSpace (str "User not found!"))
              = toUpperCase (List.filter wordOrSpace (str "user NOT found")))
    by (vm_compute; reflexivity).
  split; [exact H|].
  exact (generateKey_collision _ _ (str "EXCEPTION")
           (str "auth/src/auth.service.ts") H).
Defined.

Lemma find_ext_elem {A} (f g : A -> bool) l :
  (forall x, x ∈ l -> f x = g x) -> find f l = find g l.
Proof.
  induction l as [|x l IH]; intros H; [done|].
  simpl. rewrite <- (H x) by (apply elem_of_cons; by left).
  destruct (f x); [done|]. apply IH. intros y Hy. apply H.
  apply elem_of_cons. by right.
Qed.

(** X3: the first component of a key is the category of the entry in upper
    case, for every path that has no segment [bff] (the one service name
    that [determineCategory] knows and [generateKey] does not). *)
Theorem key_service_is_category text type filePath :
  str "bff" ∉ split Path.sep filePath ->
  generateKey text type filePath
  = toUpperCase (determineCategory filePath type) ++ str "."
    ++ toUpperCase (fileNameOf filePath) ++ str "."
    ++ type ++ str "." ++ cleanText text.
Proof.
  intros Hbff. unfold generateKey. f_equal.
  unfold serviceNameOf, determineCategory. cbv zeta.
  rewrite (find_ext_elem
             (fun part => existsb (eqs part)
                            [str "auth"; str "profile"; str "notification";
                             str "location"; str "bff"])
             isServiceDirectory).
  - destruct (find isServiceDirectory _); [done|].
    by destruct (beforeSrc _).
  - intros part Hpart. unfold isServiceDirectory. cbn [existsb].
    assert (eqs part (str "bff") = false) as ->.
    { destruct (eqs part (str "bff")) eqn:E; [|done].
      apply eqs_true in E. by subst. }
    by destruct (eqs part (str "auth")), (eqs part (str "profile")),
      (eqs part (str "notification")), (eqs part (str "location")).
Qed.

Lemma key_service_is_category_witness :
  (str "bff" ∉ split Path.sep (str "auth/src/services/auth.service.ts"))
  /\ generateKey (str "Validation failed") (str "RETURN_MESSAGE")
       (str "auth/src/services/auth.service.ts")
     = toUpperCase (determineCategory
                      (str "auth/src/services/auth.service.ts")
                      (str "RETURN_MESSAGE")) ++ str "."
       ++ toUpperCase (fileNameOf (str "auth/src/services/auth.service.ts"))
       ++ str "." ++ str "RETURN_MESSAGE" ++ str "."
       ++ cleanText (str "Validation failed").
Proof.
  assert (H : str "bff"
              ∉ split Path.sep (str "auth/src/services/auth.service.ts")).
  { vm_compute. intros H. repeat (apply elem_of_cons in H as [H|H]; [done|]).
    by apply elem_of_nil in H. }
  split; [exact H|].
  exact (key_service_is_category _ _ _ H).
Defined.

End KeyProperties.

Section DedupProperties.
Import Extractor.

Lemma removeDuplicatesFrom_id l : forall seen,
  NoDup (map dedupKey l) ->
  (forall x, x ∈ l -> dedupKey x ∉ seen) ->
  removeDuplicatesFrom seen l = l.
Proof.
  induction l as [|item l IH]; intros seen Hnd Hseen; [done|].
  simpl. apply NoDup_cons in Hnd as [Hitem Hnd].
  destruct (decide (dedupKey item ∈ seen)) as [Hin|_].
  { exfalso. apply (Hseen item); [apply elem_of_cons; by left|done]. }
  f_equal. apply IH; [done|]. intros x Hx Hin.
  apply elem_of_union in Hin as [Hin|Hin].
  - apply elem_of_singleton in Hin. apply Hitem. rewrite <- Hin.
    apply list_elem_of_fmap. by exists x.
  - apply (Hseen x); [apply elem_of_cons; by right|done].
Qed.

(** X4: removing the duplicates twice is removing them once; a list is left
    as it is exactly when no two of its entries share the string
    [key + ":" + text]; the output is never longer than the input. *)
Theorem removeDuplicates_idempotent l :
  removeDuplicates (removeDuplicates l) = removeDuplicates l
  /\ (removeDuplicates l = l <-> NoDup (map dedupKey l))
  /\ length (removeDuplicates l) <= length l.
Proof.
  destruct (removeDuplicatesFrom_spec l ∅) as (Hsub & Hnd & _ & _).
  split; [|split].
  - apply removeDuplicatesFrom_id; [exact Hnd|]. intros x _. set_solver.
  - split.
    + intros E. rewrite <- E. exact Hnd.
    + intros H. apply removeDuplicatesFrom_id; [exact H|].
      intros x _. set_solver.
  - by apply sublist_length.
Qed.

End DedupProperties.

Section EntryProperties.
Import Extractor Notions.

Lemma split_length sep s :
  length (split sep s) = S (length (List.filter (fun c => eqc c sep) s)).
Proof.
  induction s as [|c t IH]; [done|].
  simpl. destruct (eqc c sep); simpl; [by rewrite IH|].
  destruct (split sep t); simpl in *; lia.
Qed.

Lemma lineOf_bounds content i :
  1 <= lineOf content i <= lineCount content.
Proof.
  unfold lineOf, lineCount. rewrite !split_length. split; [lia|].
  rewrite <- (firstn_skipn i content) at 2.
  rewrite List.filter_app, length_app. lia.
Qed.

Lemma generateKey_nonempty text type filePath :
  generateKey text type filePath <> [].
Proof.
  unfold generateKey. intros H.
  apply app_eq_nil in H as [_ H]. discriminate H.
Qed.

(** What is known of an entry of a file. *)
Lemma fileEntries_elem ctx filePath content ps inc e :
  e ∈ fileEntries ctx filePath content ps inc ->
  file e = filePath
  /\ 1 <= line e <= lineCount content
  /\ key e <> []
  /\ is_Some (priority e) /\ is_Some (category e)
  /\ (inc = false -> context e = None)
  /\ exists p res,
       p ∈ ps /\ res ∈ matchesOf (regex p) content
       /\ 3 <= length (candidate res) <= 500
       /\ type e = ptype p
       /\ key e = generateKey (candidate res) (ptype p) filePath
       /\ text e = Validator.sanitizeOutput ctx (candidate res)
       /\ line e = lineOf content (index res).
Proof.
  intros He.
  unfold fileEntries in He. apply list_elem_of_In, in_flat_map in He.
  destruct He as (p & Hp & He).
  apply list_elem_of_In in Hp, He.
  apply list_elem_of_omap in He as (res & Hres & Hproc).
  unfold processMatch in Hproc.
  destruct (retained (candidate res)) eqn:Hret; [|done].
  injection Hproc as <-. apply retained_iff in Hret.
  cbn [file line key priority category context text type entryOf].
  split; [done|]. split; [apply lineOf_bounds|].
  split; [apply generateKey_nonempty|].
  split; [by eexists|]. split; [by eexists|].
  split; [by intros ->|].
  exists p, res. repeat split; try done; lia.
Qed.

(** X5: every entry that the scan of a file gives carries the path of the
    file, a line number between 1 and the number of lines of the file, the
    type of one of the patterns, a key that is not empty, a priority and a
    category; it stems from a match of that pattern whose candidate text
    has between 3 and 500 characters, its key is the key of the candidate
    and its text the sanitized candidate; without the comments it has no
    context. *)
Theorem scanned_entry_invariants ctx filePath content ps inc results e :
  extractFromContent ctx filePath content ps inc = Some results ->
  e ∈ results ->
  file e = filePath
  /\ 1 <= line e <= lineCount content
  /\ key e <> []
  /\ is_Some (priority e) /\ is_Some (category e)
  /\ (inc = false -> context e = None)
  /\ exists p res,
       p ∈ ps /\ res ∈ matchesOf (regex p) content
       /\ 3 <= length (candidate res) <= 500
       /\ type e = ptype p
       /\ key e = generateKey (candidate res) (ptype p) filePath
       /\ text e = Validator.sanitizeOutput ctx (candidate res)
       /\ line e = lineOf content (index res).
Proof.
  intros Hscan He.
  apply extractFromContent_ret in Hscan as [-> _].
  by apply fileEntries_elem.
Qed.

Lemma scanned_entry_invariants_witness :
  exists results e,
    extractFromContent Samples.sampleContext Samples.authServicePath
      Samples.validationFailed defaultPatterns false = Some results
    /\ e ∈ results
    /\ file e = Samples.authServicePath
    /\ 1 <= line e <= lineCount Samples.validationFailed.
Proof.
  destruct (extractFromContent Samples.sampleContext Samples.authServicePath
              Samples.validationFailed defaultPatterns false)
    as [results|] eqn:E; [|by vm_compute in E].
  destruct results as [|e results]; [by vm_compute in E|].
  exists (e :: results), e.
  assert (He : e ∈ e :: results) by (apply elem_of_cons; by left).
  split; [done|]. split; [exact He|].
  destruct (scanned_entry_invariants _ _ _ _ _ _ e E He) as (H1 & H2 & _).
  by split.
Defined.

End EntryProperties.

Section Sanitizing.
Import Notions.

Lemma trimStart_suffix s : exists l, s = l ++ trimStart s.
Proof.
  induction s as [|c t [l IH]]; [by exists []|].
  simpl. destruct (isSpace c).
  - exists (c :: l). simpl. by f_equal.
  - by exists [].
Qed.

Lemma trimStart_head s c : head (trimStart s) = Some c -> isSpace c = false.
Proof.
  induction s as [|x t IH]; [done|].
  simpl. destruct (isSpace x) eqn:E; [done|].
  simpl. by intros [= <-].
Qed.

Lemma trimEnd_prefix s : exists l, s = trimEnd s ++ l.
Proof.
  unfold trimEnd. destruct (trimStart_suffix (rev s)) as [l E].
  exists (rev l). rewrite <- rev_app_distr, <- E. by rewrite rev_involutive.
Qed.

Lemma trim_sublist s : trim s `sublist_of` s.
Proof.
  unfold trim.
  destruct (trimStart_suffix s) as [l1 E1].
  destruct (trimEnd_prefix (trimStart s)) as [l2 E2].
  rewrite E1 at 2. apply sublist_inserts_l.
  rewrite E2 at 2. by apply sublist_inserts_r.
Qed.

Lemma last_rev_head {A} (l : list A) : last (rev l) = head l.
Proof. destruct l as [|x l]; [done|]. simpl. by rewrite last_snoc. Qed.

Lemma head_rev_last {A} (l : list A) : head (rev l) = last l.
Proof. by rewrite <- last_rev_head, rev_involutive. Qed.

Lemma last_suffix {A} (l1 l2 : list A) x :
  last l2 = Some x -> last (l1 ++ l2) = Some x.
Proof.
  intros H. destruct l2 as [|y l2] using rev_ind; [done|].
  rewrite last_snoc in H. by rewrite app_assoc, last_snoc.
Qed.

Lemma trim_head s c : head (trim s) = Some c -> isSpace c = false.
Proof.
  unfold trim, trimEnd. rewrite head_rev_last. intros H.
  destruct (trimStart_suffix (rev (trimStart s))) as [l E].
  apply (last_suffix l) in H. rewrite <- E, last_rev_head in H.
  by apply trimStart_head in H.
Qed.

Lemma trim_last s c : last (trim s) = Some c -> isSpace c = false.
Proof.
  unfold trim, trimEnd. rewrite last_rev_head. apply trimStart_head.
Qed.

Lemma sublist_Forall_keeps {A} (P : A -> Prop) (l1 l2 : list A) :
  l1 `sublist_of` l2 -> Forall P l2 -> Forall P l1.
Proof.
  intros Hsub H. apply Forall_forall. intros x Hx.
  rewrite Forall_forall in H. apply H. by eapply elem_of_sublist.
Qed.

Lemma remove_angleBracket s :
  Forall (fun c => isAngle c = false)
    (Validator.remove Validator.angleBracket s).
Proof.
  unfold Validator.angleBracket. rewrite remove_Cls.
  apply Forall_forall. intros c Hc.
  apply list_elem_of_In, filter_In in Hc as [_ Hc].
  unfold oneOf in Hc. simpl in Hc. unfold isAngle.
  by destruct (eqc c "<"), (eqc c ">").
Qed.

(** X6: the sanitized text is a subsequence of the text (characters are
    only taken away, none is added or changed); when sanitization is off
    the text is returned as it is, and when it is on the result holds no
    angle bracket and neither starts nor ends with white space. *)
Theorem sanitizeOutput_properties ctx output :
  Validator.sanitizeOutput ctx output `sublist_of` output
  /\ (sanitizeOutputs ctx = false ->
      Validator.sanitizeOutput ctx output = output)
  /\ (sanitizeOutputs ctx = true ->
      Forall (fun c => isAngle c = false)
        (Validator.sanitizeOutput ctx output)
      /\ (forall c, head (Validator.sanitizeOutput ctx output) = Some c ->
                    isSpace c = false)
      /\ (forall c, last (Validator.sanitizeOutput ctx output) = Some c ->
                    isSpace c = false)).
Proof.
  unfold Validator.sanitizeOutput.
  destruct (sanitizeOutputs ctx); cbn [negb].
  - split; [|split; [done|intros _]].
    + etrans; [apply trim_sublist|].
      do 9 (etrans; [apply remove_sublist|]). done.
    + split; [|split; [apply trim_head|apply trim_last]].
      eapply sublist_Forall_keeps; [apply trim_sublist|].
      do 7 (eapply sublist_Forall_keeps; [apply remove_sublist|]).
      apply remove_angleBracket.
  - split; [done|]. split; [done|]. intros [=].
Qed.

Lemma sanitizeOutput_properties_witness :
  sanitizeOutputs Samples.sampleContext = true
  /\ Forall (fun c => isAngle c = false)
       (Validator.sanitizeOutput Samples.sampleContext
          (str " <b>Saved</b> ")).
Proof.
  assert (H : sanitizeOutputs Samples.sampleContext = true) by reflexivity.
  split; [exact H|].
  exact (proj1 (proj2 (proj2 (sanitizeOutput_properties
                                Samples.sampleContext
                                (str " <b>Saved</b> "))) H)).
Defined.

End Sanitizing.

(** * The length test of the scan and the text that is stored *)

Section LengthTest.
Import Extractor Samples.

Lemma retained_bounds t :
  retained t = (3 <=? length t) && (length t <=? 500).
Proof.
  unfold retained.
  destruct (length t <? 3) eqn:E1, (500 <? length t) eqn:E2,
    (3 <=? length t) eqn:E3, (length t <=? 500) eqn:E4; try done;
    rewrite ?Nat.ltb_lt, ?Nat.ltb_ge, ?Nat.leb_le, ?Nat.leb_gt in *; lia.
Qed.

Lemma sanitizeOutput_sublist ctx output :
  Validator.sanitizeOutput ctx output `sublist_of` output.
Proof.
  unfold Validator.sanitizeOutput.
  destruct (sanitizeOutputs ctx); cbn [negb]; [|done].
  etrans; [apply trim_sublist|].
  do 9 (etrans; [apply remove_sublist|]). done.
Qed.

(** C6, as stated, fails: the candidate [<a>] has 3 characters and is
    retained, and the text that its entry carries in the results is [a], a
    string of 1 character. *)
Lemma short_text_counterexample :
  exists e,
    extractFromContent sampleContext (str "a.ts") (str "message: '<a>'")
      defaultPatterns false = Some [e]
    /\ text e = str "a"
    /\ length (text e) < 3.
Proof.
  eexists. split; [vm_compute; reflexivity|].
  split; [reflexivity | simpl; lia].
Qed.

(** C6, amended: the length test bears on the candidate as the pattern
    captured it (the first capture group that is not empty, or else the
    whole match), before it is sanitized.  With the default patterns the
    scan of a content always returns; the entries of a scan that returns
    are those of the matches whose candidate has between 3 and 500
    characters, in the order of the scan, and nothing else: with the
    default patterns, a [message] text of 3 or of 500 characters is
    retained and one of 2 or of 501 characters is discarded.  The text
    stored in an entry is what [sanitizeOutput] leaves of the candidate: a
    subsequence of it, of at most 500 characters; it is the candidate
    itself, of 3 characters at least, when the sanitization is off, and it
    can be shorter than 3 characters when the sanitization is on (the
    candidate [<a>] is stored as [a]). *)
Theorem length_boundaries ctx filePath inc :
  let inBounds (res : result) :=
    (3 <=? length (candidate res)) && (length (candidate res) <=? 500) in
  let retainedEntries (content : list ascii) (ps : list ExtractionPattern) :=
    flat_map
      (fun p =>
         map (entryOf ctx filePath content inc
                (if inc then extractComments content else []) p)
           (List.filter inBounds (matchesOf (regex p) content)))
      ps in
  let texts (content : list ascii) :=
    option_map (map text)
      (extractFromContent ctx filePath content defaultPatterns inc) in
  (forall content,
     extractFromContent ctx filePath content defaultPatterns inc
     = Some (retainedEntries content defaultPatterns))
  /\ (forall content ps results,
        extractFromContent ctx filePath content ps inc = Some results ->
        results = retainedEntries content ps)
  /\ (forall res,
        candidate res
        = match group 1 res with
          | Some (c :: s) => c :: s
          | _ => match group 2 res with
                 | Some (c :: s) => c :: s
                 | _ => matched res
                 end
          end)
  /\ (forall content ps e,
        e ∈ retainedEntries content ps ->
        exists p res,
          p ∈ ps /\ res ∈ matchesOf (regex p) content
          /\ 3 <= length (candidate res) <= 500
          /\ text e = Validator.sanitizeOutput ctx (candidate res)
          /\ text e `sublist_of` candidate res
          /\ length (text e) <= 500
          /\ (sanitizeOutputs ctx = false ->
              text e = candidate res /\ 3 <= length (text e)))
  /\ texts (messageOfLength 2) = Some []
  /\ texts (messageOfLength 3) = Some [List.repeat "a"%char 3]
  /\ texts (messageOfLength 500) = Some [List.repeat "a"%char 500]
  /\ texts (messageOfLength 501) = Some []
  /\ (sanitizeOutputs ctx = true ->
      texts (str "message: '<a>'") = Some [str "a"]).
Proof.
  intros inBounds retainedEntries texts.
  assert (Hentries : forall content ps,
            fileEntries ctx filePath content ps inc
            = retainedEntries content ps).
  { intros content ps. unfold fileEntries, retainedEntries.
    apply flat_map_ext_elem. intros p _.
    rewrite omap_processMatch. f_equal. apply filter_ext.
    intros res. apply retained_bounds. }
  split.
  { intros content. rewrite extractFromContent_total; [by rewrite Hentries|].
    eapply Forall_impl; [apply defaultPatterns_nonempty|].
    simpl. intros p Hp.
    apply (chain_exists _ content Hp (S (length content))). lia. }
  split.
  { intros content ps results H.
    apply extractFromContent_ret in H as [-> _]. apply Hentries. }
  split.
  { intros res. unfold candidate, truthy.
    by destruct (group 1 res) as [[|c s]|], (group 2 res) as [[|c' s']|]. }
  split.
  { intros content ps e He. rewrite <- Hentries in He.
    apply fileEntries_elem in He
      as (_ & _ & _ & _ & _ & _ & p & res & Hp & Hres & Hlen & _ & _ & Ht & _).
    exists p, res. split; [done|]. split; [done|]. split; [done|].
    split; [done|].
    assert (Hsub : text e `sublist_of` candidate res)
      by (rewrite Ht; apply sanitizeOutput_sublist).
    split; [done|]. apply sublist_length in Hsub. split; [lia|].
    intros Hoff. rewrite Ht. unfold Validator.sanitizeOutput.
    rewrite Hoff. cbn [negb]. split; [done|lia]. }
  unfold texts. destruct ctx as [sanitize].
  destruct inc, sanitize;
    (split; [vm_compute; reflexivity|]);
    (split; [vm_compute; reflexivity|]);
    (split; [vm_compute; reflexivity|]);
    (split; [vm_compute; reflexivity|]);
    cbn [sanitizeOutputs]; intros Hs; try discriminate Hs;
    vm_compute; reflexivity.
Qed.

Lemma length_boundaries_witness :
  extractFromContent sampleContext (str "a.ts") (messageOfLength 3)
    defaultPatterns false
  = Some [entryOf sampleContext (str "a.ts") (messageOfLength 3) false []
            {| regex := messagePropertyRegex;
               ptype := str "MESSAGE_PROPERTY";
               ppriority := Some 4%Z |}
            {| index := 0; endIndex := 15;
               matched := messageOfLength 3;
               captures := [(1, str "aaa")] |}]
  /\ sanitizeOutputs sampleContext = true
  /\ option_map (map text)
       (extractFromContent sampleContext (str "a.ts") (str "message: '<a>'")
          defaultPatterns false)
     = Some [str "a"].
Proof.
  destruct (length_boundaries sampleContext (str "a.ts") false)
    as (Hscan & _ & _ & _ & _ & _ & _ & _ & Hshort).
  split; [rewrite Hscan; vm_compute; reflexivity|].
  split; [reflexivity|].
  exact (Hshort eq_refl).
Defined.

End LengthTest.

Section RunProperties.
Import Extractor Notions.

Lemma filterFilesBySize_elem w fileList maxFileSizeMB f :
  f ∈ filterFilesBySize w fileList maxFileSizeMB ->
  f ∈ fileList
  /\ exists size, sizes w !! f = Some size
                  /\ size <= maxFileSizeMB * (1024 * 1024).
Proof.
  unfold filterFilesBySize. intros H.
  apply list_elem_of_In, filter_In in H as [Hin H].
  split; [by apply list_elem_of_In|].
  destruct (sizes w !! f) as [size|]; [|done].
  exists size. split; [done|]. by apply Nat.leb_le.
Qed.

(** X7: every entry of the dataset that [extract] returns comes from a file
    that [glob] enumerated, whose size [fs.stat] gave within the limit and
    that could be read; its line number lies within that file. *)
Theorem dataset_provenance ctx w options out e :
  extract ctx w options = Ret out ->
  e ∈ out ->
  file e ∈ tsFiles w
  /\ (exists size, sizes w !! file e = Some size
                   /\ size <= maxFileSize options * (1024 * 1024))
  /\ exists content, files w !! file e = Some content
                     /\ 1 <= line e <= lineCount content.
Proof.
  intros Hrun He. apply extract_ret in Hrun as [-> _].
  destruct (removeDuplicatesFrom_spec
              (allEntries ctx w
                 (filterFilesBySize w (tsFiles w) (maxFileSize options))
                 (sortPatterns (patterns options)) (includeComments options))
              ∅) as (Hsub & _).
  apply (elem_of_sublist _ _ _ He) in Hsub.
  unfold allEntries in Hsub. apply list_elem_of_In, in_flat_map in Hsub.
  destruct Hsub as (f & Hf & Hin).
  destruct (files w !! f) as [content|] eqn:Hfile; [|done].
  apply list_elem_of_In in Hin.
  apply fileEntries_elem in Hin as (Hfe & Hline & _).
  apply list_elem_of_In, filterFilesBySize_elem in Hf as [Hglob Hsize].
  rewrite Hfe. split; [done|]. split; [done|]. by exists content.
Qed.

Lemma dataset_provenance_witness :
  exists out e,
    extract Samples.sampleContext Samples.authWorld Samples.defaultOptions
    = Ret out
    /\ e ∈ out /\ file e ∈ tsFiles Samples.authWorld.
Proof.
  destruct (extract Samples.sampleContext Samples.authWorld
              Samples.defaultOptions) as [out| | |] eqn:E;
    try (by vm_compute in E).
  destruct out as [|e out]; [by vm_compute in E|].
  exists (e :: out), e.
  assert (He : e ∈ e :: out) by (apply elem_of_cons; by left).
  split; [done|]. split; [exact He|].
  exact (proj1 (dataset_provenance _ _ _ _ e E He)).
Defined.

(** X8: with a concurrency of 0 the loop over the batches never advances:
    as soon as one file is to be processed, no number of iterations ends
    it and [extract] does not return. *)
Theorem zero_concurrency_never_ends ctx w options :
  concurrency options = 0 ->
  validate options && negb (Validator.validatePath (path options)) = false ->
  filterFilesBySize w (tsFiles w) (maxFileSize options) <> [] ->
  extract ctx w options = Hang
  /\ forall fuel extractOne,
       batchLoop fuel extractOne
         (filterFilesBySize w (tsFiles w) (maxFileSize options)) 0 0 = Hang.
Proof.
  intros Hc Hv Hne.
  assert (Hloop : forall fuel extractOne,
            batchLoop fuel extractOne
              (filterFilesBySize w (tsFiles w) (maxFileSize options)) 0 0
            = Hang).
  { intros fuel extractOne. induction fuel as [|fuel IH]; [done|].
    rewrite batchLoop_S.
    destruct (filterFilesBySize w (tsFiles w) (maxFileSize options));
      [done|].
    cbn [length Nat.ltb Nat.leb firstn map settleAll Nat.add].
    by rewrite IH. }
  split; [|exact Hloop].
  unfold extract. rewrite Hv, Hc. by rewrite Hloop.
Qed.

Lemma zero_concurrency_never_ends_witness :
  let options := {| path := str "."; patterns := defaultPatterns;
                    validate := true; maxFileSize := 10; concurrency := 0;
                    includeComments := false |} in
  concurrency options = 0
  /\ filterFilesBySize Samples.authWorld (tsFiles Samples.authWorld)
       (maxFileSize options) <> []
  /\ extract Samples.sampleContext Samples.authWorld options = Hang.
Proof.
  intros options.
  assert (H1 : concurrency options = 0) by reflexivity.
  assert (H2 : validate options
               && negb (Validator.validatePath (path options)) = false)
    by (vm_compute; reflexivity).
  assert (H3 : filterFilesBySize Samples.authWorld
                 (tsFiles Samples.authWorld) (maxFileSize options) <> [])
    by (vm_compute; discriminate).
  split; [exact H1|]. split; [exact H3|].
  exact (proj1 (zero_concurrency_never_ends Samples.sampleContext
                  Samples.authWorld options H1 H2 H3)).
Defined.

Lemma forEachPattern_stuck scanWith ps p :
  p ∈ ps -> scanWith p = None -> forEachPattern scanWith ps = None.
Proof.
  induction ps as [|q ps IH]; intros Hp Hnone.
  - by apply elem_of_nil in Hp.
  - simpl. apply elem_of_cons in Hp as [<-|Hp]; [by rewrite Hnone|].
    destruct (scanWith q); [|done]. by rewrite IH.
Qed.

Lemma whileExec_always body r content :
  (forall i, i <= length content -> is_Some (exec r content i)) ->
  forall fuel i, i <= length content ->
    whileExec fuel body r content i = None.
Proof.
  intros Hex. induction fuel as [|fuel IH]; intros i Hi; [done|].
  simpl. destruct (Hex i Hi) as [res E]. rewrite E.
  rewrite IH; [done|]. by apply exec_bounds in E as (_ & _ & ? & _).
Qed.

Lemma matchAt_optional mx r p s i :
  is_Some (matchAt (Rep true 0 mx r) p s i).
Proof.
  unfold matchAt.
  rewrite (m_Rep_fuel true 0 mx r _ Some (S (length s))) by (simpl; lia).
  destruct (repeat_optional_some (m r) (groupsOf r) Some (length s) mx
              (MState p s i [])) as [y Hy]; [by eexists|].
  rewrite Hy. by eexists.
Qed.

Lemma exec_optional mx r content i :
  i <= length content -> is_Some (exec (Rep true 0 mx r) content i).
Proof.
  intros Hi. unfold exec.
  replace (length content <? i) with false
    by (symmetry; apply Nat.ltb_ge; lia).
  destruct (matchAt_optional mx r (charBefore content i) (skipn i content) i)
    as [res Hres].
  exists res. destruct (skipn i content); simpl; by rewrite Hres.
Qed.

(** X9: a pattern whose regular expression is a greedy quantifier with a
    minimum of 0 (such as [r*] or [r?]) matches the empty string wherever
    nothing else matches, and [exec] does not move past an empty match:
    the scan of every file that can be read never ends, whatever the other
    patterns. *)
Theorem optional_pattern_never_ends ctx w filePath content ps inc p mx r :
  files w !! filePath = Some content ->
  p ∈ ps ->
  regex p = Rep true 0 mx r ->
  extractFromFile ctx w filePath ps inc = Hang
  /\ forall fuel body, whileExec fuel body (regex p) content 0 = None.
Proof.
  intros Hfile Hp Hr.
  assert (Hloop : forall fuel body,
            whileExec fuel body (regex p) content 0 = None).
  { intros fuel body. apply whileExec_always; [|lia].
    intros i Hi. rewrite Hr. by apply exec_optional. }
  split; [|exact Hloop].
  unfold extractFromFile. rewrite Hfile.
  unfold extractFromContent. by rewrite (forEachPattern_stuck _ ps p).
Qed.

Lemma optional_pattern_never_ends_witness :
  let p := {| regex := Star (Cls isWord); ptype := str "WORD";
              ppriority := None |} in
  files Samples.authWorld !! Samples.authServicePath
  = Some Samples.validationFailed
  /\ extractFromFile Samples.sampleContext Samples.authWorld
       Samples.authServicePath (defaultPatterns ++ [p]) false = Hang.
Proof.
  intros p.
  assert (H : files Samples.authWorld !! Samples.authServicePath
              = Some Samples.validationFailed) by (vm_compute; reflexivity).
  split; [exact H|].
  refine (proj1 (optional_pattern_never_ends Samples.sampleContext
                   Samples.authWorld Samples.authServicePath
                   Samples.validationFailed (defaultPatterns ++ [p]) false
                   p None (Cls isWord) H _ eq_refl)).
  apply elem_of_app. right. apply elem_of_cons. by left.
Defined.

(** X10: with the default patterns (the options give none) and a positive
    concurrency, [extract] always ends.  It throws in one case only, a
    search path that the validation refuses; otherwise it returns the
    dataset: the entries, without the duplicates, of the files within the
    size limit, scanned with the default patterns in the order of their
    list.  A file that cannot be read is left out and stops nothing.
    (The default patterns all carry the [g] flag, on which the scan relies
    to move from one match to the next.) *)
Theorem extract_outcome ctx w options :
  patterns options = defaultPatterns ->
  0 < concurrency options ->
  extract ctx w options
  = if validate options && negb (Validator.validatePath (path options))
    then Throw (str "Invalid search path")
    else Ret (removeDuplicates
                (allEntries ctx w
                   (filterFilesBySize w (tsFiles w) (maxFileSize options))
                   defaultPatterns
                   (includeComments options))).
Proof.
  intros Hp Hc.
  destruct (validate options
            && negb (Validator.validatePath (path options))) eqn:Hv.
  - unfold extract. by rewrite Hv.
  - rewrite extract_total; [|rewrite Hp; apply defaultPatterns_nonempty
                            |done|done].
    by rewrite Hp, sortPatterns_default.
Qed.

Lemma extract_outcome_witness :
  patterns Samples.defaultOptions = defaultPatterns
  /\ 0 < concurrency Samples.defaultOptions
  /\ extract Samples.sampleContext Samples.authWorld
       Samples.defaultOptions
     = Ret (removeDuplicates
              (allEntries Samples.sampleContext Samples.authWorld
                 (filterFilesBySize Samples.authWorld
                    (tsFiles Samples.authWorld)
                    (maxFileSize Samples.defaultOptions))
                 defaultPatterns
                 (includeComments Samples.defaultOptions))).
Proof.
  assert (H1 : patterns Samples.defaultOptions = defaultPatterns)
    by reflexivity.
  assert (H2 : 0 < concurrency Samples.defaultOptions) by (simpl; lia).
  split; [exact H1|]. split; [exact H2|].
  exact (extract_outcome Samples.sampleContext Samples.authWorld
           Samples.defaultOptions H1 H2).
Defined.

End RunProperties.

(** * Further properties of the replacement *)

Section ReplacerProperties.
Import Replacer Notions.

(** X11: the map from texts to keys gives, for a text, the key of the last
    entry of the dataset that has this text, and nothing for a text that no
    entry has. *)
Theorem textToKeyMap_last_wins ks t :
  textToKeyMap ks !! t
  = key <$> last (List.filter (fun k => bool_decide (text k = t)) ks).
Proof.
  unfold textToKeyMap.
  induction ks as [|k ks IH] using rev_ind; [done|].
  rewrite fold_left_app, List.filter_app. cbn [fold_left List.filter].
  destruct (bool_decide (text k = t)) eqn:E.
  - apply bool_decide_eq_true in E. subst t.
    rewrite last_snoc. simpl. apply lookup_insert_eq.
  - apply bool_decide_eq_false in E.
    rewrite app_nil_r, lookup_insert_ne; done.
Qed.

End ReplacerProperties.

Section ReplacerRuns.
Import Replacer Notions.

Lemma eqs_refl a : eqs a a = true.
Proof. by apply eqs_true. Qed.

Lemma filter_none {A} (f : A -> bool) l :
  (forall x, x ∈ l -> f x = false) -> List.filter f l = [].
Proof.
  induction l as [|x l IH]; intros H; [done|].
  simpl. rewrite (H x) by (apply elem_of_cons; by left).
  apply IH. intros y Hy. apply H. apply elem_of_cons. by right.
Qed.

(** Rules that give every match back change nothing and count nothing. *)
Lemma applyPatterns_unchanged filePath ps :
  Forall (fun rf => forall res, snd rf res = matched res) ps ->
  forall content n logged,
    applyPatterns filePath ps content n logged = (content, n, logged).
Proof.
  induction 1 as [|[r f] ps Hf _ IH]; intros content n logged; [done|].
  simpl in Hf. cbn [applyPatterns].
  rewrite replaceAll_unchanged by (intros; apply Hf).
  rewrite filter_none.
  - simpl. by rewrite Nat.add_0_r, app_nil_r, IH.
  - intros res _. unfold changed. by rewrite Hf, eqs_refl.
Qed.

Lemma lookupKey_empty o : lookupKey ∅ o = None.
Proof. destruct o; simpl; [|done]. by rewrite lookup_empty. Qed.

Lemma patterns_no_keys :
  Forall (fun rf => forall res, snd rf res = matched res) (patterns ∅).
Proof.
  unfold patterns.
  repeat (apply List.Forall_cons;
          [intros res; simpl;
           unfold exceptionReplacement, returnMessageReplacement,
             messagePropertyReplacement, templateLiteralReplacement;
           by rewrite lookupKey_empty|]).
  apply List.Forall_nil.
Qed.

Lemma push_nonwrites l : forall w,
  Forall (fun e => isWrite e = false) l ->
  push w l = {| files := files w; sizes := sizes w; json := json w;
                tsFiles := tsFiles w; now := now w;
                events := events w ++ l |}.
Proof.
  induction l as [|e l IH]; intros w H.
  - simpl. rewrite app_nil_r. by destruct w.
  - apply Forall_cons in H as [He H]. cbn [push fold_left].
    change (fold_left step l (step w e)) with (push (step w e) l).
    rewrite IH by done. destruct e; [done| |]; simpl;
      by rewrite <- app_assoc.
Qed.

Lemma push_json l : forall w, json (push w l) = json w.
Proof. induction l as [|e l IH]; intros w; [done|]. simpl. by rewrite IH. Qed.

Lemma push_tsFiles l : forall w, tsFiles (push w l) = tsFiles w.
Proof. induction l as [|e l IH]; intros w; [done|]. simpl. by rewrite IH. Qed.

Lemma push_quiet l w :
  Forall (fun e => isWrite e = false) l -> quiet w (push w l).
Proof.
  intros H. rewrite push_nonwrites by done. unfold quiet. simpl.
  repeat split. rewrite writesOf_app.
  assert (writesOf l = []) as ->; [|by rewrite app_nil_r].
  apply filter_none. intros e He. rewrite Forall_forall in H. by apply H.
Qed.

Lemma loggedChanges_nonwrites filePath ks content :
  Forall (fun e => isWrite e = false) (loggedChanges filePath ks content).
Proof. apply applyPatterns_logged. apply List.Forall_nil. Qed.

(** What [replaceInFile] does to a file that can be read. *)
Lemma replaceInFile_run filePath ks backup dry w content :
  files w !! filePath = Some content ->
  replaceInFile filePath ks backup dry w
  = (Ret (replacementCount filePath ks content),
     push w (fileEvents filePath ks backup dry content)).
Proof.
  intros Hfile.
  pose proof (loggedChanges_nonwrites filePath ks content) as Hl.
  unfold fileEvents. rewrite push_app, (push_nonwrites _ _ Hl).
  unfold replaceInFile, replacementCount, replacedContent, loggedChanges in *.
  unfold bind at 1, readFile. rewrite Hfile.
  destruct (applyPatterns _ _ _ _ _) as [[newContent n] logged].
  cbn [fst snd] in *. unfold bind at 1. rewrite forEach_emit_run.
  destruct (0 <? n), dry, backup, (n =? 0); reflexivity.
Qed.

Lemma replaceInFile_unreadable filePath ks backup dry w :
  files w !! filePath = None ->
  replaceInFile filePath ks backup dry w = (Throw readError, w).
Proof.
  intros Hfile. unfold replaceInFile, bind at 1, readFile. by rewrite Hfile.
Qed.

Lemma push_files_nonwrites l w :
  Forall (fun e => isWrite e = false) l -> files (push w l) = files w.
Proof. intros H. by rewrite push_nonwrites. Qed.

(** The loop over the files always returns; the total grows by the counts
    of the rows that it adds to the summary. *)
Lemma replaceLoop_run ks backup dry fileList : forall total summary w,
  exists rows evs,
    replaceLoop fileList ks backup dry total summary w
    = (Ret (total + list_sum (map snd rows), summary ++ rows), push w evs)
    /\ Forall (fun row => 0 < snd row /\ fst row ∈ fileList) rows
    /\ ((dry = true
         \/ forall f content, replacementCount f ks content = 0) ->
        Forall (fun e => isWrite e = false) evs)
    /\ ((forall f content, replacementCount f ks content = 0) -> rows = [])
    /\ (dry = true -> rows = dryRows w ks fileList).
Proof.
  induction fileList as [|f fileList IH]; intros total summary w.
  { exists [], []. simpl. rewrite Nat.add_0_r, app_nil_r.
    repeat split; try done; apply List.Forall_nil. }
  cbn [replaceLoop]. unfold bind at 1, tryCatch, bind at 1.
  cbn [dryRows omap list_omap].
  change (list_omap ?g ?l) with (omap g l).
  destruct (files w !! f) as [content|] eqn:Hfile.
  - rewrite (replaceInFile_run _ _ _ _ _ _ Hfile).
    set (n := replacementCount f ks content).
    set (w1 := push w (fileEvents f ks backup dry content)).
    assert (Hq : (dry = true
                  \/ forall f content, replacementCount f ks content = 0) ->
                 Forall (fun e => isWrite e = false)
                   (fileEvents f ks backup dry content)).
    { intros Hcase. unfold fileEvents. apply Forall_app. split.
      - apply loggedChanges_nonwrites.
      - fold n. destruct Hcase as [->|H0].
        + rewrite andb_false_r, andb_true_r.
          destruct (0 <? n); [by repeat constructor|].
          destruct (n =? 0); by repeat constructor.
        + unfold n. rewrite H0. simpl. by repeat constructor. }
    assert (Hd : dry = true -> dryRows w1 ks fileList = dryRows w ks fileList).
    { intros Hdry. unfold dryRows, w1.
      rewrite push_files_nonwrites; [done|]. apply Hq. by left. }
    destruct (0 <? n) eqn:Hn.
    + cbn [ret fst snd].
      destruct (IH (total + n) (summary ++ [(f, n)]) w1)
        as (rows & evs & Hrun & Hrows & Hev & H0 & Hdr).
      exists ((f, n) :: rows), (fileEvents f ks backup dry content ++ evs).
      rewrite Hrun, push_app. split; [|split; [|split; [|split]]].
      * simpl. by rewrite <- app_assoc, Nat.add_assoc.
      * apply Forall_cons. split.
        -- simpl. apply Nat.ltb_lt in Hn. split; [done|].
           apply elem_of_cons. by left.
        -- eapply Forall_impl; [exact Hrows|]. intros row [? ?].
           split; [done|]. apply elem_of_cons. by right.
      * intros Hcase. apply Forall_app. split; [by apply Hq|by apply Hev].
      * intros Hz. exfalso. unfold n in Hn. by rewrite Hz in Hn.
      * intros Hdry. f_equal. rewrite (Hdr Hdry). by apply Hd.
    + cbn [ret fst snd].
      destruct (IH total summary w1)
        as (rows & evs & Hrun & Hrows & Hev & H0 & Hdr).
      exists rows, (fileEvents f ks backup dry content ++ evs).
      rewrite Hrun, push_app. split; [done|].
      split; [|split; [|split; [done|]]].
      * eapply Forall_impl; [exact Hrows|]. intros row [? ?].
        split; [done|]. apply elem_of_cons. by right.
      * intros Hcase. apply Forall_app. split; [by apply Hq|by apply Hev].
      * intros Hdry. rewrite (Hdr Hdry). by apply Hd.
  - rewrite (replaceInFile_unreadable _ _ _ _ _ Hfile).
    unfold bind at 1.
    change (log LWarning ?msg w)
      with (Ret tt, step w (ELog LWarning msg)).
    cbn [ret fst snd].
    set (e := ELog LWarning _).
    destruct (IH total summary (step w e))
      as (rows & evs & Hrun & Hrows & Hev & H0 & Hdr).
    exists rows, (e :: evs). rewrite Hrun. split; [done|].
    split; [|split; [|split; [done|done]]].
    + eapply Forall_impl; [exact Hrows|]. intros row [? ?].
      split; [done|]. apply elem_of_cons. by right.
    + intros Hcase. apply Forall_cons. split; [done|by apply Hev].
Qed.

Lemma bind_log {B} level message (f : unit -> M B) w :
  bind (log level message) f w = f tt (step w (ELog level message)).
Proof. reflexivity. Qed.

Lemma bind_glob {B} (f : list (list ascii) -> M B) w :
  bind glob f w = f (tsFiles w) w.
Proof. reflexivity. Qed.

Lemma loadTranslationKeys_run keysFile w data :
  json w !! keysFile = Some data ->
  loadTranslationKeys keysFile w = (Ret (keysOrEmpty data), w).
Proof.
  intros H. unfold loadTranslationKeys, tryCatch, bind, readJson.
  by rewrite H.
Qed.

Lemma forEach_emit_push l w :
  Forall (fun e => isWrite e = false) l ->
  forEach l emit w = (Ret tt, push w l).
Proof. intros H. by rewrite forEach_emit_run, push_nonwrites. Qed.

(** A run of [replace] on a dataset that can be read. *)
Lemma replace_run options w data :
  json w !! keysFile options = Some data ->
  exists rows evs,
    replace options w
    = (Ret tt,
       push w (replaceOpening options (length (keysOrEmpty data))
                 (length (tsFiles w))
               ++ evs ++ [completed (list_sum (map snd rows))]
               ++ summaryEvents rows))
    /\ Forall (fun row => 0 < snd row /\ fst row ∈ tsFiles w) rows
    /\ ((dryRun options = true
         \/ forall f content,
              replacementCount f (keysOrEmpty data) content = 0) ->
        Forall (fun e => isWrite e = false) evs)
    /\ ((forall f content,
           replacementCount f (keysOrEmpty data) content = 0) -> rows = [])
    /\ (dryRun options = true ->
        rows = dryRows w (keysOrEmpty data) (tsFiles w)).
Proof.
  intros Hjson. unfold replace. rewrite !bind_log.
  erewrite bind_run; [|apply loadTranslationKeys_run; exact Hjson].
  rewrite bind_log, bind_glob, bind_log.
  match goal with
  | |- context [bind (replaceLoop ?l ?ks ?b ?d 0 []) _ ?w0] =>
      destruct (replaceLoop_run ks b d l 0 [] w0)
        as (rows & evs & Hrun & Hrows & Hev & H0 & Hdr)
  end.
  exists rows, evs. split; [|by repeat split].
  erewrite bind_run; [|exact Hrun].
  rewrite bind_log. cbn [fst snd app Nat.add].
  rewrite !push_app. destruct rows as [|row rows].
  - reflexivity.
  - rewrite bind_log, forEach_emit_push.
    + reflexivity.
    + apply Forall_map. by apply Forall_true.
Qed.

End ReplacerRuns.


Section ReplacerTheorems.
Import Replacer Notions.

(** X12: [replace] never throws and never hangs: it returns when the dataset
    can be read, whatever happens with the files (one that cannot be read
    is logged and passed over), and it ends the process with status 1 when
    the dataset cannot be read. *)
Theorem replace_outcome options w :
  fst (replace options w)
  = match json w !! keysFile options with
    | Some _ => Ret tt
    | None => Exit 1
    end.
Proof.
  destruct (json w !! keysFile options) as [data|] eqn:Hjson.
  - by destruct (replace_run options w data Hjson) as (rows & evs & -> & _).
  - unfold replace, bind, log, emit, loadTranslationKeys, tryCatch,
      readJson, bind, exit. cbn [json]. by rewrite Hjson.
Qed.

Lemma replacementCount_no_keys f content : replacementCount f [] content = 0.
Proof.
  unfold replacementCount.
  change (textToKeyMap []) with (∅ : gmap (list ascii) (list ascii)).
  by rewrite (applyPatterns_unchanged f _ patterns_no_keys).
Qed.

(** X13: with a dataset that holds no key (the field [keys] is empty or
    absent), [replace] changes no file, also outside dry-run mode: it
    returns, writes nothing and reports 0 replacements. *)
Theorem replace_without_keys options w data :
  json w !! keysFile options = Some data ->
  keysOrEmpty data = [] ->
  exists w',
    replace options w = (Ret tt, w')
    /\ files w' = files w
    /\ writesOf (events w') = writesOf (events w)
    /\ completed 0 ∈ events w'.
Proof.
  intros Hjson Hks.
  destruct (replace_run options w data Hjson)
    as (rows & evs & Hrun & _ & Hev & H0 & _).
  rewrite Hks in *.
  assert (Hz : forall f content, replacementCount f [] content = 0)
    by apply replacementCount_no_keys.
  specialize (H0 Hz). subst rows. specialize (Hev (or_intror Hz)).
  eexists. split; [exact Hrun|].
  match type of Hrun with
  | _ = (_, push _ ?l) =>
      assert (Hnw : Forall (fun e => isWrite e = false) l)
  end.
  { apply Forall_app. split; [by repeat constructor|].
    apply Forall_app. split; [done|]. by repeat constructor. }
  destruct (push_quiet _ w Hnw) as (Hf & _ & _ & _ & _ & Hw).
  split; [exact Hf|]. split; [exact Hw|].
  rewrite push_events. apply elem_of_app. right.
  apply elem_of_app. right. apply elem_of_app. right.
  apply elem_of_app. left. apply elem_of_cons. by left.
Qed.

Lemma replace_without_keys_witness :
  let w := {| files := {[ Samples.authServicePath := Samples.throwWithObject ]};
              sizes := ∅;
              json := {[ str "translation-keys.json" := {| keys := None |} ]};
              tsFiles := [Samples.authServicePath];
              now := Samples.timestamp; events := [] |} in
  json w !! keysFile (Samples.replaceOptions false)
  = Some {| keys := None |}
  /\ keysOrEmpty {| keys := None |} = []
  /\ exists w', replace (Samples.replaceOptions false) w = (Ret tt, w')
                /\ files w' = files w.
Proof.
  intros w.
  assert (H1 : json w !! keysFile (Samples.replaceOptions false)
               = Some {| keys := None |}) by (vm_compute; reflexivity).
  assert (H2 : keysOrEmpty {| keys := None |} = []) by reflexivity.
  split; [exact H1|]. split; [exact H2|].
  destruct (replace_without_keys (Samples.replaceOptions false) w _ H1 H2)
    as (w' & Hrun & Hf & _).
  exists w'. by split.
Defined.

Lemma backup_path_differs (filePath : list ascii) :
  filePath ++ str ".backup" <> filePath.
Proof.
  intros H. apply (f_equal length) in H. rewrite length_app in H.
  simpl in H. lia.
Qed.

(** X14: a run of [replaceInFile] that replaces something, outside dry-run
    mode: with the backup, the file [<path>.backup] holds the content that
    was read and the file holds the new content, the two writes being made
    in this order and no other file being touched; without the backup the
    only write is the new content. *)
Theorem backup_holds_original filePath ks w content :
  files w !! filePath = Some content ->
  0 < replacementCount filePath ks content ->
  let new := replacedContent filePath ks content in
  let w1 := snd (replaceInFile filePath ks true false w) in
  let w2 := snd (replaceInFile filePath ks false false w) in
  files w1 !! (filePath ++ str ".backup") = Some content
  /\ files w1 !! filePath = Some new
  /\ files w1
     = <[filePath := new]> (<[filePath ++ str ".backup" := content]> (files w))
  /\ writesOf (events w1)
     = writesOf (events w)
       ++ [EWrite (filePath ++ str ".backup") content; EWrite filePath new]
  /\ files w2 = <[filePath := new]> (files w)
  /\ writesOf (events w2) = writesOf (events w) ++ [EWrite filePath new].
Proof.
  intros Hfile Hpos new w1 w2. subst w1 w2.
  rewrite !(replaceInFile_run _ _ _ _ _ _ Hfile). cbn [snd].
  unfold fileEvents. apply Nat.ltb_lt in Hpos. rewrite Hpos. cbn [andb negb].
  pose proof (loggedChanges_nonwrites filePath ks content) as Hl.
  rewrite !push_app, !(push_nonwrites _ _ Hl). fold new.
  assert (Hw : writesOf (loggedChanges filePath ks content) = []).
  { apply filter_none. intros e He. rewrite Forall_forall in Hl.
    by apply Hl. }
  cbn [push fold_left step files events app].
  split; [|split; [|split; [|split; [|split]]]].
  - rewrite lookup_insert_ne by (apply not_eq_sym, backup_path_differs).
    apply lookup_insert_eq.
  - apply lookup_insert_eq.
  - done.
  - rewrite <- !app_assoc, !writesOf_app, Hw. done.
  - done.
  - rewrite <- !app_assoc, !writesOf_app, Hw. done.
Qed.

Lemma backup_holds_original_witness :
  files Samples.throwWorld !! Samples.authServicePath
  = Some Samples.throwWithObject
  /\ 0 < replacementCount Samples.authServicePath [Samples.userExists]
           Samples.throwWithObject
  /\ files (snd (replaceInFile Samples.authServicePath [Samples.userExists]
                   true false Samples.throwWorld))
     !! (Samples.authServicePath ++ str ".backup")
     = Some Samples.throwWithObject.
Proof.
  assert (H1 : files Samples.throwWorld !! Samples.authServicePath
               = Some Samples.throwWithObject) by (vm_compute; reflexivity).
  assert (H2 : 0 < replacementCount Samples.authServicePath
                     [Samples.userExists] Samples.throwWithObject)
    by (vm_compute; lia).
  split; [exact H1|]. split; [exact H2|].
  exact (proj1 (backup_holds_original Samples.authServicePath
                  [Samples.userExists] Samples.throwWorld
                  Samples.throwWithObject H1 H2)).
Defined.

(** X15: the report of a dry run: the total that is logged is the sum, over
    the files that can be read, of the numbers of replacements computed on
    their contents, and the table lists, in the order of the enumeration,
    the files where this number is positive; nothing is written. *)
Theorem dry_run_report options w data :
  json w !! keysFile options = Some data ->
  dryRun options = true ->
  let rows := dryRows w (keysOrEmpty data) (tsFiles w) in
  exists evs,
    replace options w
    = (Ret tt,
       push w (replaceOpening options (length (keysOrEmpty data))
                 (length (tsFiles w))
               ++ evs ++ [completed (list_sum (map snd rows))]
               ++ summaryEvents rows))
    /\ Forall (fun e => isWrite e = false) evs
    /\ Forall (fun row => 0 < snd row /\ fst row ∈ tsFiles w) rows.
Proof.
  intros Hjson Hdry rows.
  destruct (replace_run options w data Hjson)
    as (rows' & evs & Hrun & Hrows & Hev & _ & Hdr).
  specialize (Hdr Hdry). subst rows'. exists evs.
  split; [exact Hrun|]. split; [apply Hev; by left|exact Hrows].
Qed.

Lemma dry_run_report_witness :
  json Samples.throwWorld !! keysFile (Samples.replaceOptions true)
  = Some {| keys := Some [Samples.userExists] |}
  /\ dryRun (Samples.replaceOptions true) = true
  /\ dryRows Samples.throwWorld [Samples.userExists]
       (tsFiles Samples.throwWorld) = [(Samples.authServicePath, 1)]
  /\ exists evs,
       replace (Samples.replaceOptions true) Samples.throwWorld
       = (Ret tt,
          push Samples.throwWorld
            (replaceOpening (Samples.replaceOptions true) 1 1
             ++ evs ++ [completed 1]
             ++ summaryEvents [(Samples.authServicePath, 1)])).
Proof.
  assert (H1 : json Samples.throwWorld
                 !! keysFile (Samples.replaceOptions true)
               = Some {| keys := Some [Samples.userExists] |})
    by (vm_compute; reflexivity).
  assert (H2 : dryRun (Samples.replaceOptions true) = true) by reflexivity.
  assert (H3 : dryRows Samples.throwWorld [Samples.userExists]
                 (tsFiles Samples.throwWorld)
               = [(Samples.authServicePath, 1)])
    by (vm_compute; reflexivity).
  split; [exact H1|]. split; [exact H2|]. split; [exact H3|].
  destruct (dry_run_report (Samples.replaceOptions true) Samples.throwWorld
              _ H1 H2) as (evs & Hrun & _).
  exists evs. cbn [keysOrEmpty keys] in Hrun. rewrite H3 in Hrun.
  exact Hrun.
Defined.

End ReplacerTheorems.

(** * Further properties of the generation *)

Section GeneratorProperties.
Import Generator Notions.

Lemma quiet_refl w : quiet w w.
Proof. by repeat split. Qed.

Lemma quiet_step w w1 e :
  isWrite e = false -> quiet w w1 -> quiet w (step w1 e).
Proof.
  intros He (H1 & H2 & H3 & H4 & H5 & H6).
  destruct e; [done| |]; repeat split; simpl; try done;
    by rewrite writesOf_app, H6, app_nil_r.
Qed.

Lemma log_run level message w :
  log level message w = (Ret tt, step w (ELog level message)).
Proof. reflexivity. Qed.

(** X16: a dataset file that can be read but holds no key: when the field
    [keys] is absent, [generate] throws on [keys.length] (where [replace]
    goes on with no key); when it is the empty array, [generate] logs that
    it skips the generation and returns.  Nothing is written in either
    case. *)
Theorem generate_without_keys options w data :
  json w !! input options = Some data ->
  (keys data = None ->
   exists w',
     generate options w
     = (Throw (str "Cannot read properties of undefined (reading 'length')"),
        w')
     /\ quiet w w')
  /\ (keys data = Some [] ->
      exists w',
        generate options w = (Ret tt, w')
        /\ quiet w w'
        /\ ELog LInfo
             (str "No translation keys found, skipping file generation")
           ∈ events w').
Proof.
  intros Hjson. split; intros Hkeys.
  - eexists. split.
    + unfold generate. rewrite bind_log.
      erewrite bind_run; [|by apply loadTranslationKeys_found].
      rewrite Hkeys. reflexivity.
    + repeat (apply quiet_step; [done|]). apply quiet_refl.
  - eexists. split; [|split].
    + unfold generate. rewrite bind_log.
      erewrite bind_run; [|by apply loadTranslationKeys_found].
      rewrite Hkeys. rewrite !bind_log. apply log_run.
    + repeat (apply quiet_step; [done|]). apply quiet_refl.
    + apply elem_of_app. right. apply elem_of_cons. by left.
Qed.

Lemma generate_without_keys_witness :
  let w := {| files := ∅; sizes := ∅;
              json := {[ str "translation-keys.json" := {| keys := None |} ]};
              tsFiles := []; now := Samples.timestamp; events := [] |} in
  json w !! input (Samples.generationOptions [str "en"] true)
  = Some {| keys := None |}
  /\ fst (generate (Samples.generationOptions [str "en"] true) w)
     = Throw (str "Cannot read properties of undefined (reading 'length')").
Proof.
  intros w.
  assert (H : json w !! input (Samples.generationOptions [str "en"] true)
              = Some {| keys := None |}) by (vm_compute; reflexivity).
  split; [exact H|].
  destruct (proj1 (generate_without_keys _ w _ H) eq_refl) as (w' & -> & _).
  reflexivity.
Defined.

(** ** The grouping by service *)

Lemma keysOfService_add name k serviceMap n :
  keysOfService n (addToService name k serviceMap)
  = keysOfService n serviceMap ++ (if eqs name n then [k] else []).
Proof.
  unfold keysOfService.
  induction serviceMap as [|[n0 l0] serviceMap IH]; cbn [addToService find].
  - cbn [fst snd]. by destruct (eqs name n).
  - destruct (eqs n0 name) eqn:E; cbn [find fst snd].
    + apply eqs_true in E. subst n0.
      destruct (eqs name n); [done|]. by rewrite app_nil_r.
    + destruct (eqs n0 n) eqn:E'; [|exact IH].
      apply eqs_true in E'. subst n0. simpl.
      destruct (eqs name n) eqn:E2; [|by rewrite app_nil_r].
      apply eqs_true in E2. subst. by rewrite eqs_refl in E.
Qed.

Lemma keysOfService_serviceMapOf ks : forall serviceMap n,
  keysOfService n (serviceMapOf ks serviceMap)
  = keysOfService n serviceMap ++ inService n ks.
Proof.
  unfold serviceMapOf.
  induction ks as [|k ks IH]; intros serviceMap n; simpl.
  - by rewrite app_nil_r.
  - rewrite IH, keysOfService_add, <- app_assoc. f_equal.
    unfold inService. simpl. by destruct (eqs _ n).
Qed.

Lemma addToService_names name k serviceMap :
  map fst (addToService name k serviceMap)
  = if decide (name ∈ map fst serviceMap) then map fst serviceMap
    else map fst serviceMap ++ [name].
Proof.
  induction serviceMap as [|[n0 l0] serviceMap IH]; [done|].
  cbn [addToService]. destruct (eqs n0 name) eqn:E.
  - apply eqs_true in E. subst n0. simpl.
    rewrite decide_True; [done|]. apply elem_of_cons. by left.
  - cbn [map fst]. rewrite IH.
    assert (n0 <> name) by (intros ->; by rewrite eqs_refl in E).
    destruct (decide (name ∈ map fst serviceMap)) as [Hin|Hin].
    + rewrite decide_True; [done|]. apply elem_of_cons. by right.
    + rewrite decide_False; [done|]. intros Hin'.
      apply elem_of_cons in Hin' as [->|Hin']; done.
Qed.

Lemma serviceMapOf_invariants ks : forall serviceMap,
  NoDup (map fst serviceMap) ->
  Forall (fun e => snd e <> []) serviceMap ->
  NoDup (map fst (serviceMapOf ks serviceMap))
  /\ Forall (fun e => snd e <> []) (serviceMapOf ks serviceMap)
  /\ list_sum (map (fun e => length (snd e)) (serviceMapOf ks serviceMap))
     = list_sum (map (fun e => length (snd e)) serviceMap) + length ks.
Proof.
  unfold serviceMapOf.
  induction ks as [|k ks IH]; intros serviceMap Hnd Hne; simpl.
  { split; [done|]. split; [done|lia]. }
  set (name := firstSegment (file k)).
  destruct (IH (addToService name k serviceMap)) as (H1 & H2 & H3).
  - rewrite addToService_names. destruct (decide _); [done|].
    apply NoDup_app. split; [done|]. split; [|apply NoDup_singleton].
    intros x Hx Hx'. apply list_elem_of_singleton in Hx'. by subst.
  - clear IH Hnd. induction serviceMap as [|[n0 l0] serviceMap IHs]; simpl.
    + by repeat constructor.
    + apply Forall_cons in Hne as [Hl0 Hne]. destruct (eqs n0 name).
      * apply Forall_cons. split; [|done]. simpl. by destruct l0.
      * apply Forall_cons. split; [done|]. by apply IHs.
  - split; [done|]. split; [done|]. rewrite H3.
    clear. induction serviceMap as [|[n0 l0] serviceMap IHs]; simpl; [done|].
    destruct (eqs n0 name); simpl.
    + rewrite length_app. simpl. lia.
    + lia.
Qed.

Lemma keysOfService_elem n l serviceMap :
  NoDup (map fst serviceMap) -> (n, l) ∈ serviceMap ->
  keysOfService n serviceMap = l.
Proof.
  unfold keysOfService.
  induction serviceMap as [|[n0 l0] serviceMap IH]; intros Hnd Hin.
  - by apply elem_of_nil in Hin.
  - simpl in *. apply NoDup_cons in Hnd as [Hn0 Hnd].
    apply elem_of_cons in Hin as [[= -> ->]|Hin].
    + by rewrite eqs_refl.
    + destruct (eqs n0 n) eqn:E; [|by apply IH].
      apply eqs_true in E. subst n0. exfalso. apply Hn0.
      apply list_elem_of_fmap. by exists (n, l).
Qed.

(** X17: [groupByService] partitions the dataset by the first segment of the
    path of the file: the services have distinct names; each one holds the
    entries of the dataset under its name, in their order (at least one),
    its object is built from them and [totalKeys] is their number, so that
    the numbers of keys of the services add up to the size of the
    dataset. *)
Theorem groupByService_partition ks :
  NoDup (map serviceName (groupByService ks))
  /\ list_sum (map totalKeys (groupByService ks)) = length ks
  /\ forall st, st ∈ groupByService ks ->
       inService (serviceName st) ks <> []
       /\ totalKeys st = length (inService (serviceName st) ks)
       /\ translations st
          = createTranslationObject (inService (serviceName st) ks).
Proof.
  destruct (serviceMapOf_invariants ks [] (NoDup_nil_2) (List.Forall_nil _))
    as (Hnd & Hne & Hsum).
  change (groupByService ks)
    with (map (fun e => {| serviceName := fst e;
                           translations := createTranslationObject (snd e);
                           totalKeys := length (snd e) |})
            (serviceMapOf ks [])).
  split; [|split].
  - by rewrite map_map.
  - rewrite map_map. exact Hsum.
  - intros st Hst. apply list_elem_of_fmap in Hst as ([n l] & -> & Hin).
    cbn [serviceName totalKeys translations fst snd].
    pose proof (keysOfService_elem n l _ Hnd Hin) as Hl.
    rewrite keysOfService_serviceMapOf in Hl. simpl in Hl. rewrite Hl.
    split; [|done].
    rewrite Forall_forall in Hne. exact (Hne _ Hin).
Qed.

End GeneratorProperties.


Section ObjectProperties.
Import Generator Notions.

Lemma set_names k v obj :
  map fst (JSObject.set k v obj)
  = if eqs k (str "__proto__") then map fst obj
    else if decide (k ∈ map fst obj) then map fst obj
         else map fst obj ++ [k].
Proof.
  unfold JSObject.set. destruct (eqs k (str "__proto__")); [done|].
  induction obj as [|[k0 v0] obj IH]; [done|].
  cbn [JSObject.define]. destruct (eqs k0 k) eqn:E.
  - apply eqs_true in E. subst k0. simpl.
    rewrite decide_True; [done|]. apply elem_of_cons. by left.
  - cbn [map fst]. rewrite IH.
    assert (k0 <> k) by (intros ->; by rewrite eqs_refl in E).
    destruct (decide (k ∈ map fst obj)) as [Hin|Hin].
    + rewrite decide_True; [done|]. apply elem_of_cons. by right.
    + rewrite decide_False; [done|]. intros Hin'.
      apply elem_of_cons in Hin' as [->|Hin']; done.
Qed.

(** An object built by assignments from an object whose names are distinct
    and are not [__proto__] has the same property. *)
Lemma fold_set_invariants {A} (kf vf : A -> list ascii) xs : forall acc,
  NoDup (map fst acc) -> str "__proto__" ∉ map fst acc ->
  NoDup (map fst (fold_left (fun t x => JSObject.set (kf x) (vf x) t) xs acc))
  /\ str "__proto__"
     ∉ map fst (fold_left (fun t x => JSObject.set (kf x) (vf x) t) xs acc).
Proof.
  induction xs as [|x xs IH]; intros acc Hnd Hp; [done|].
  simpl. apply IH; rewrite set_names.
  - destruct (eqs (kf x) (str "__proto__")); [done|].
    destruct (decide _); [done|].
    apply NoDup_app. split; [done|]. split; [|apply NoDup_singleton].
    intros y Hy Hy'. apply list_elem_of_singleton in Hy'. by subst.
  - destruct (eqs (kf x) (str "__proto__")) eqn:E; [done|].
    destruct (decide _); [done|]. intros Hin.
    apply elem_of_app in Hin as [Hin|Hin]; [done|].
    apply list_elem_of_singleton in Hin. rewrite <- Hin in E.
    by rewrite eqs_refl in E.
Qed.

(** The value of a name after a sequence of assignments: the last
    assignment to the name counts. *)
Lemma fold_set_get {A} (kf vf : A -> list ascii) xs : forall acc k,
  k <> str "__proto__" ->
  JSObject.get k (fold_left (fun t x => JSObject.set (kf x) (vf x) t) xs acc)
  = match last (List.filter (fun x => eqs (kf x) k) xs) with
    | Some x => Some (vf x)
    | None => JSObject.get k acc
    end.
Proof.
  induction xs as [|x xs IH]; intros acc k Hk; [done|].
  cbn [fold_left List.filter]. rewrite IH by done. rewrite get_set.
  destruct (eqs (kf x) k) eqn:E.
  - apply eqs_true in E.
    assert (eqs (kf x) (str "__proto__") = false) as ->.
    { destruct (eqs (kf x) (str "__proto__")) eqn:E'; [|done].
      apply eqs_true in E'. congruence. }
    destruct (List.filter _ xs) as [|y l] eqn:El; [done|].
    change (last (x :: y :: l)) with (last (y :: l)).
    destruct (last (y :: l)) eqn:E2; [done|]. by apply last_None in E2.
  - destruct (last _); [done|].
    by destruct (eqs (kf x) (str "__proto__")).
Qed.

Lemma get_elem k v obj :
  NoDup (map fst obj) -> (JSObject.get k obj = Some v <-> (k, v) ∈ obj).
Proof.
  induction obj as [|[k0 v0] obj IH]; intros Hnd.
  - simpl. split; [done|]. intros H. by apply elem_of_nil in H.
  - simpl in *. apply NoDup_cons in Hnd as [Hk0 Hnd].
    destruct (eqs k0 k) eqn:E.
    + apply eqs_true in E. subst k0. split.
      * intros [= ->]. apply elem_of_cons. by left.
      * intros H. apply elem_of_cons in H as [[= ->]|H]; [done|].
        exfalso. apply Hk0. apply list_elem_of_fmap. by exists (k, v).
    + rewrite (IH Hnd). split.
      * intros H. apply elem_of_cons. by right.
      * intros H. apply elem_of_cons in H as [[= -> ->]|H]; [|done].
        by rewrite eqs_refl in E.
Qed.

Lemma insertIndexed_perm e l : Permutation (e :: l) (JSObject.insertIndexed e l).
Proof.
  induction l as [|e' l IH]; [done|].
  simpl. destruct (_ <=? _)%N; [done|].
  rewrite perm_swap. by apply perm_skip.
Qed.

Lemma filter_partition {A} (f : A -> bool) l :
  Permutation (List.filter f l ++ List.filter (fun x => negb (f x)) l) l.
Proof.
  induction l as [|x l IH]; [done|].
  simpl. destruct (f x); simpl.
  - by apply perm_skip.
  - rewrite <- Permutation_middle. by apply perm_skip.
Qed.

Lemma indexed_perm obj :
  Permutation
    (map snd
       (fold_right JSObject.insertIndexed []
          (omap (fun e => match JSObject.arrayIndex (fst e) with
                          | Some n => Some (n, e)
                          | None => None
                          end) obj)))
    (List.filter hasIndexName obj).
Proof.
  induction obj as [|e obj IH]; [done|].
  cbn [omap list_omap List.filter]. unfold hasIndexName at 1.
  change (list_omap ?g ?l) with (omap g l).
  destruct (JSObject.arrayIndex (fst e)) as [n|]; [|exact IH].
  cbn [fold_right]. rewrite <- insertIndexed_perm. simpl.
  by apply perm_skip.
Qed.

(** [Object.entries] enumerates each property once. *)
Lemma entries_perm obj : Permutation (JSObject.entries obj) obj.
Proof.
  unfold JSObject.entries.
  rewrite <- (filter_partition hasIndexName obj) at 3.
  apply Permutation_app; [apply indexed_perm|].
  apply Permutation_refl'. apply List.filter_ext. intros e.
  unfold hasIndexName. by destruct (JSObject.arrayIndex (fst e)).
Qed.

Lemma fold_set_distinct {A} (kf vf : A -> list ascii) xs : forall acc k,
  NoDup (map fst acc ++ map kf xs) ->
  Forall (fun x => kf x <> str "__proto__") xs ->
  map fst (fold_left (fun t x => JSObject.set (kf x) (vf x) t) xs acc)
  = map fst acc ++ map kf xs
  /\ JSObject.get k
       (fold_left (fun t x => JSObject.set (kf x) (vf x) t) xs acc)
     = match find (fun x => eqs (kf x) k) xs with
       | Some x => Some (vf x)
       | None => JSObject.get k acc
       end.
Proof.
  induction xs as [|x xs IH]; intros acc k Hnd Hp.
  { simpl. by rewrite app_nil_r. }
  apply Forall_cons in Hp as [Hx Hp].
  assert (Hpx : eqs (kf x) (str "__proto__") = false).
  { destruct (eqs (kf x) (str "__proto__")) eqn:E'; [|done].
    by apply eqs_true in E'. }
  assert (Hnew : kf x ∉ map fst acc).
  { intros Hin. apply NoDup_app in Hnd as (_ & Hd & _).
    apply (Hd _ Hin). simpl. apply elem_of_cons. by left. }
  assert (Hnames : map fst (JSObject.set (kf x) (vf x) acc)
                   = map fst acc ++ [kf x]).
  { rewrite set_names, Hpx. by rewrite decide_False. }
  cbn [fold_left map find].
  destruct (IH (JSObject.set (kf x) (vf x) acc) k) as [IH1 IH2]; [|done|].
  { rewrite Hnames, <- app_assoc. exact Hnd. }
  split.
  - rewrite IH1, Hnames, <- app_assoc. done.
  - rewrite IH2, get_set, Hpx.
    destruct (eqs (kf x) k) eqn:E; [|done].
    apply eqs_true in E.
    destruct (find _ xs) as [y|] eqn:Ef; [|done].
    exfalso. apply find_some in Ef as [Hy Ey]. apply eqs_true in Ey.
    apply NoDup_app in Hnd as (_ & _ & Hd). simpl in Hd.
    apply NoDup_cons in Hd as [Hd _]. apply Hd.
    apply list_elem_of_fmap. exists y. split; [congruence|].
    by apply list_elem_of_In.
Qed.

(** X18: when several entries of a service have the same key, the object
    written to [en.json] holds, under this key, the text of the last of
    them; the names of the object are distinct and none is [__proto__]. *)
Theorem createTranslationObject_last_wins ks k :
  k <> str "__proto__" ->
  JSObject.get k (createTranslationObject ks)
  = text <$> last (List.filter (fun e => eqs (key e) k) ks)
  /\ NoDup (map fst (createTranslationObject ks))
  /\ str "__proto__" ∉ map fst (createTranslationObject ks).
Proof.
  intros Hk. unfold createTranslationObject. split.
  - rewrite (fold_set_get key text) by done. by destruct (last _).
  - apply (fold_set_invariants key text); [apply NoDup_nil_2|].
    apply not_elem_of_nil.
Qed.

Lemma createTranslationObject_last_wins_witness :
  let first := Samples.entry (str "A.B") (str "one") in
  let second := Samples.entry (str "A.B") (str "two") in
  str "A.B" <> str "__proto__"
  /\ JSObject.get (str "A.B") (createTranslationObject [first; second])
     = Some (str "two").
Proof.
  intros first second.
  assert (H : str "A.B" <> str "__proto__") by discriminate.
  split; [exact H|].
  exact (proj1 (createTranslationObject_last_wins [first; second] _ H)).
Defined.

(** X19: the template of a language has the names of the source object, in
    the order of their enumeration, and under each name the text
    [TODO: Translate "<source text>" to <language>]. *)
Theorem createTemplateTranslations_keys ks lang k :
  let translations := createTranslationObject ks in
  JSObject.get k (createTemplateTranslations translations lang)
  = todo lang <$> JSObject.get k translations
  /\ map fst (createTemplateTranslations translations lang)
     = map fst (JSObject.entries translations).
Proof.
  intros translations.
  destruct (fold_set_invariants key text ks [] NoDup_nil_2
              (not_elem_of_nil _)) as [Hnd Hp].
  fold (createTranslationObject ks) in Hnd, Hp. fold translations in Hnd, Hp.
  pose proof (entries_perm translations) as Hperm.
  assert (Hnd' : NoDup (map fst (JSObject.entries translations))).
  { assert (Hm : map fst (JSObject.entries translations)
                   ≡ₚ map fst translations) by (by apply Permutation_map).
    by rewrite Hm. }
  assert (Hp' : Forall (fun e => fst e <> str "__proto__")
                  (JSObject.entries translations)).
  { apply Forall_forall. intros e He Heq. apply Hp.
    apply list_elem_of_fmap. exists e. split; [done|].
    by rewrite <- Hperm. }
  unfold createTemplateTranslations.
  destruct (fold_set_distinct fst (fun e => todo lang (snd e))
              (JSObject.entries translations) [] k Hnd' Hp') as [H1 H2].
  split; [|exact H1].
  change (fold_left _ (JSObject.entries translations) [])
    with (fold_left
            (fun t x => JSObject.set (fst x) (todo lang (snd x)) t)
            (JSObject.entries translations) []).
  rewrite H2.
  destruct (find _ _) as [[k0 v0]|] eqn:Ef.
  - apply find_some in Ef as [He Ek]. apply eqs_true in Ek. simpl in Ek.
    subst k0. apply list_elem_of_In in He. rewrite Hperm in He.
    apply (get_elem _ _ _ Hnd) in He. by rewrite He.
  - destruct (JSObject.get k translations) as [v|] eqn:Hget; [|done].
    exfalso. apply (get_elem _ _ _ Hnd) in Hget. rewrite <- Hperm in Hget.
    apply list_elem_of_In in Hget.
    apply (find_none _ _ Ef) in Hget. simpl in Hget.
    by rewrite eqs_refl in Hget.
Qed.

End ObjectProperties.

(** * Properties of the validation *)

Section ValidationProperties.
Import Validation Notions.

Lemma result_isValid errs warns :
  isValid (result errs warns) = true <-> errs = [].
Proof.
  unfold result. simpl. rewrite Nat.eqb_eq. by destruct errs.
Qed.

Lemma blank_trim s : blank s = eqs (trim s) [].
Proof.
  unfold blank. destruct s as [|c s]; [done|].
  by destruct (trim (c :: s)).
Qed.

Lemma existsb_code0 p :
  existsb (fun c => code c =? 0) p = false
  <-> Forall (fun c => code c <> 0) p.
Proof.
  induction p as [|c p IH]; [done|].
  simpl. rewrite orb_false_iff, IH, Forall_cons, Nat.eqb_neq. tauto.
Qed.

(** X20: [validatePath] accepts a path exactly when it is not blank and holds
    no null byte; this is the verdict that [extract] acts on.  A path with
    [..] or [~] is not refused: it gets one warning, and these are the only
    paths with a warning. *)
Theorem validatePath_verdict p :
  isValid (validatePath p) = Validator.validatePath p
  /\ (isValid (validatePath p) = true
      <-> trim p <> [] /\ Forall (fun c => code c <> 0) p)
  /\ length (warnings (validatePath p))
     = (if includes p (str "..") || includes p (str "~") then 1 else 0).
Proof.
  assert (H : isValid (validatePath p) = true
              <-> trim p <> [] /\ Forall (fun c => code c <> 0) p).
  { unfold validatePath. rewrite result_isValid, blank_trim.
    rewrite <- existsb_code0.
    destruct (eqs (trim p) []) eqn:E.
    - apply eqs_true in E. split; [done|]. by intros [? _].
    - assert (trim p <> []) by (intros E'; by rewrite E', eqs_refl in E).
      destruct (existsb _ p); split; try done. by intros [_ ?]. }
  split; [|split; [exact H|]].
  - apply eq_true_iff_eq. rewrite H. unfold Validator.validatePath.
    rewrite andb_true_iff, !negb_true_iff, existsb_code0.
    split; intros [Ht Hz]; (split; [|done]).
    + destruct (eqs (trim p) []) eqn:E; [|done]. by apply eqs_true in E.
    + intros E. by rewrite E, eqs_refl in Ht.
  - unfold validatePath, unsafePath. simpl. by destruct (_ || _).
Qed.

(** X21: [validateFilePath]: a file that does not exist gets one error and
    nothing else is looked at; a file that exists is accepted exactly when
    [fs.statSync] gives a size of at most the limit and the extension of
    the path, in lower case, is one of the allowed ones. *)
Theorem validateFilePath_verdict ctx fs filePath :
  (existsSync fs filePath = false ->
   isValid (validateFilePath ctx fs filePath) = false
   /\ length (errors (validateFilePath ctx fs filePath)) = 1
   /\ warnings (validateFilePath ctx fs filePath) = [])
  /\ (isValid (validateFilePath ctx fs filePath) = true
      <-> existsSync fs filePath = true
          /\ (exists size, statSync fs filePath = inl size
                           /\ size <= maxFileSize ctx * megabyte)
          /\ toLowerCase (extname filePath) ∈ allowedFileTypes ctx).
Proof.
  unfold validateFilePath. destruct (existsSync fs filePath); cbn [negb].
  2: { split; [done|]. split; [done|]. by intros [? _]. }
  split; [done|]. cbv zeta. rewrite result_isValid.
  assert (Hext : existsb (eqs (toLowerCase (extname filePath)))
                   (allowedFileTypes ctx) = true
                 <-> toLowerCase (extname filePath) ∈ allowedFileTypes ctx).
  { rewrite existsb_exists. split.
    - intros (x & Hx & E). apply eqs_true in E. subst x.
      by apply list_elem_of_In.
    - intros Hin. eexists. split; [by apply list_elem_of_In|].
      apply eqs_refl. }
  split.
  - intros H. apply app_eq_nil in H as [Hs Ht]. split; [done|]. split.
    + destruct (statSync fs filePath) as [size|]; [|done].
      exists size. split; [done|].
      destruct (_ <? size) eqn:E; [done|]. by apply Nat.ltb_ge in E.
    + apply Hext. by destruct (existsb _ _).
  - intros (_ & (size & -> & Hsize) & Hin).
    apply Nat.ltb_ge in Hsize. rewrite Hsize.
    apply Hext in Hin. by rewrite Hin.
Qed.

Lemma validateFilePath_verdict_witness :
  let ctx := {| maxFileSize := 10; maxKeyLength := 200;
                allowedFileTypes := [str ".ts"; str ".js"] |} in
  existsSync (fileSystemOf Samples.authWorld) (str "missing.ts") = false
  /\ isValid (validateFilePath ctx (fileSystemOf Samples.authWorld)
                (str "missing.ts")) = false.
Proof.
  intros ctx.
  assert (H : existsSync (fileSystemOf Samples.authWorld) (str "missing.ts")
              = false) by (vm_compute; reflexivity).
  split; [exact H|].
  exact (proj1 (proj1 (validateFilePath_verdict ctx
                         (fileSystemOf Samples.authWorld)
                         (str "missing.ts")) H)).
Defined.

Lemma validateFilePath_isValid ctx fs filePath :
  isValid (validateFilePath ctx fs filePath)
  = (length (errors (validateFilePath ctx fs filePath)) =? 0).
Proof. unfold validateFilePath. by destruct (existsSync fs filePath). Qed.

Lemma validateTranslationKey_isValid ctx fs k :
  isValid (validateTranslationKey ctx fs k)
  = (length (errors (validateTranslationKey ctx fs k)) =? 0).
Proof. reflexivity. Qed.

(** X22: [validateTranslationKeys] adds up the verdicts of the entries: its
    errors are those of the entries, in order, and the dataset is valid
    exactly when every entry is; keys that several entries share only add
    warnings, after the warnings of the entries. *)
Theorem validateTranslationKeys_verdict ctx fs keys :
  errors (validateTranslationKeys ctx fs keys)
  = flat_map (fun k => errors (validateTranslationKey ctx fs k)) keys
  /\ isValid (validateTranslationKeys ctx fs keys)
     = forallb (fun k => isValid (validateTranslationKey ctx fs k)) keys
  /\ warnings (validateTranslationKeys ctx fs keys)
     = flat_map (fun k => warnings (validateTranslationKey ctx fs k)) keys
       ++ flat_map duplicateWarning (duplicateKeys keys)
  /\ length (flat_map duplicateWarning (duplicateKeys keys))
     <= length keys.
Proof.
  split; [done|]. split; [|split; [done|]].
  - unfold validateTranslationKeys. cbn [isValid result].
    induction keys as [|k keys IH]; [done|].
    cbn [flat_map forallb]. rewrite length_app, <- IH.
    rewrite validateTranslationKey_isValid.
    by destruct (length _), (length _).
  - unfold duplicateKeys.
    assert (H : forall groups : list (list ascii * list TranslationKey),
              length (flat_map duplicateWarning
                        (fold_left
                           (fun groups k =>
                              match key k with
                              | [] => groups
                              | _ => Generator.addToService (key k) k groups
                              end) keys groups))
              <= length groups + length keys).
    { induction keys as [|k keys IH]; intros groups; simpl.
      - rewrite Nat.add_0_r. induction groups as [|g groups IHg]; [done|].
        simpl. rewrite length_app. unfold duplicateWarning at 1.
        destruct (snd g) as [|? [|? ?]]; simpl; lia.
      - etrans; [apply IH|]. destruct (key k); [lia|].
        assert (length (Generator.addToService (a :: l) k groups)
                <= S (length groups)); [|lia].
        generalize (a :: l). intros name.
        induction groups as [|[n0 l0] groups IHg]; simpl; [lia|].
        destruct (eqs n0 name); simpl; lia. }
    apply (H []).
Qed.

End ValidationProperties.


Section ExtractedAndValidated.
Import Extractor Validation Notions.

Lemma trimStart_nonspace s :
  List.filter (fun c => negb (isSpace c)) (trimStart s)
  = List.filter (fun c => negb (isSpace c)) s.
Proof.
  induction s as [|c s IH]; [done|].
  simpl. destruct (isSpace c) eqn:E; simpl; [done|]. by rewrite E.
Qed.

Lemma filter_rev_comm {A} (f : A -> bool) l :
  List.filter f (rev l) = rev (List.filter f l).
Proof.
  induction l as [|x l IH]; [done|].
  simpl. rewrite List.filter_app, IH. simpl.
  destruct (f x); simpl; [done|]. by rewrite app_nil_r.
Qed.

Lemma trim_nonspace s :
  List.filter (fun c => negb (isSpace c)) (trim s)
  = List.filter (fun c => negb (isSpace c)) s.
Proof.
  unfold trim, trimEnd.
  rewrite filter_rev_comm, trimStart_nonspace, filter_rev_comm.
  by rewrite rev_involutive, trimStart_nonspace.
Qed.

Lemma blank_generateKey text type filePath :
  blank (generateKey text type filePath) = false.
Proof.
  rewrite blank_trim.
  destruct (eqs (trim (generateKey text type filePath)) []) eqn:E; [|done].
  apply eqs_true in E. apply (f_equal (List.filter
                                         (fun c => negb (isSpace c)))) in E.
  rewrite trim_nonspace in E. unfold generateKey in E.
  rewrite List.filter_app in E. simpl in E.
  apply app_eq_nil in E as [_ E]. discriminate E.
Qed.

(** X23: an entry that the scan of a file gives never fails the checks of
    [validateTranslationKey] on the key being empty and on the line
    number: it is valid exactly when its key is not longer than the limit,
    its text is not blank and its file passes [validateFilePath]. *)
Theorem scanned_entry_validity ctx filePath content ps inc results e
  limits fs :
  extractFromContent ctx filePath content ps inc = Some results ->
  e ∈ results ->
  isValid (validateTranslationKey limits fs e) = true
  <-> length (key e) <= maxKeyLength limits
      /\ trim (text e) <> []
      /\ isValid (validateFilePath limits fs filePath) = true.
Proof.
  intros Hscan He.
  apply extractFromContent_ret in Hscan as [-> _].
  apply fileEntries_elem in He
    as (Hfile & [Hline _] & Hne & _ & _ & _ & p & res & _ & _ & _ & _ & Hkey & _).
  unfold validateTranslationKey. rewrite result_isValid.
  rewrite Hkey at 1. rewrite blank_generateKey.
  assert ((line e <? 1) = false) as -> by (apply Nat.ltb_ge; lia).
  rewrite Hfile, blank_trim. cbn [app]. rewrite app_nil_r.
  destruct (key e) as [|c k] eqn:Ek; [done|]. cbn [nonEmptyAnd].
  pose proof (validateFilePath_isValid limits fs filePath) as Hv.
  split.
  - intros H. apply app_eq_nil in H as [H1 H]. apply app_eq_nil in H as [H2 H3].
    split; [|split].
    + destruct (_ <? _) eqn:E; [done|]. by apply Nat.ltb_ge in E.
    + intros E. by rewrite E, eqs_refl in H2.
    + rewrite Hv, H3. done.
  - intros (H1 & H2 & H3). apply Nat.ltb_ge in H1. rewrite H1.
    destruct (eqs (trim (text e)) []) eqn:E; [by apply eqs_true in E|].
    rewrite Hv in H3. apply Nat.eqb_eq in H3.
    by destruct (errors (validateFilePath limits fs filePath)).
Qed.

Lemma scanned_entry_validity_witness :
  let limits := {| maxFileSize := 10; maxKeyLength := 200;
                   allowedFileTypes := [str ".ts"; str ".js"; str ".tsx";
                                        str ".jsx"] |} in
  exists results e,
    extractFromContent Samples.sampleContext Samples.authServicePath
      Samples.validationFailed defaultPatterns false = Some results
    /\ e ∈ results
    /\ isValid (validateTranslationKey limits
                  (fileSystemOf Samples.authWorld) e) = true.
Proof.
  intros limits.
  destruct (extractFromContent Samples.sampleContext Samples.authServicePath
              Samples.validationFailed defaultPatterns false)
    as [results|] eqn:E; [|by vm_compute in E].
  destruct results as [|e results]; [by vm_compute in E|].
  exists (e :: results), e.
  assert (He : e ∈ e :: results) by (apply elem_of_cons; by left).
  split; [done|]. split; [exact He|].
  apply (scanned_entry_validity _ _ _ _ _ _ e limits
           (fileSystemOf Samples.authWorld) E He).
  vm_compute in E. injection E as <- _. vm_compute.
  split; [lia|]. split; [discriminate|reflexivity].
Defined.

End ExtractedAndValidated.

(** * Properties of the logger *)

Section LoggerProperties.
Import Logger Notions.
Variable Metadata : Type.

(** X24: the level after [configure] followed by [setVerbose], the order in
    which [extract] calls them: whatever level was configured, the methods
    [info], [success], [warning] and [error] log, and [debug] logs exactly
    when [verbose] is set; and whatever the level, [error] logs. *)
Theorem setVerbose_overrides_level (config : LoggingConfig) v
  (s : State Metadata) mth :
  logLevel (setVerbose v (configure config s)) = (if v then Debug else Info)
  /\ shouldLog (setVerbose v (configure config s)) (methodLevel mth)
     = match mth with MDebug => v | _ => true end
  /\ shouldLog s Error = true.
Proof.
  split; [done|]. split.
  - unfold shouldLog. by destruct v, mth.
  - unfold shouldLog. by destruct (logLevel s).
Qed.

Lemma lastN_all {A} n (l : list A) : length l <= n -> lastN n l = l.
Proof.
  intros H. unfold lastN. by replace (length l - n) with 0 by lia.
Qed.

Lemma lastN_length {A} n (l : list A) : length (lastN n l) <= n.
Proof. unfold lastN. rewrite length_skipn. lia. Qed.

Lemma skipn_snoc_step {A} (l : list A) x : forall k,
  k < length l -> skipn 1 (skipn k l ++ [x]) = skipn (S k) (l ++ [x]).
Proof.
  induction l as [|y l IH]; intros k Hk; [simpl in Hk; lia|].
  destruct k as [|k]; [done|]. simpl in *. apply IH. lia.
Qed.

Lemma lastN_snoc {A} n (l : list A) x :
  0 < n -> lastN n (lastN n l ++ [x]) = lastN n (l ++ [x]).
Proof.
  intros Hn. destruct (decide (length l <= n)) as [H|H].
  { by rewrite (lastN_all n l). }
  unfold lastN. rewrite !length_app, !length_skipn. simpl.
  replace (length l - (length l - n) + 1 - n) with 1 by lia.
  replace (length l + 1 - n) with (S (length l - n)) by lia.
  apply skipn_snoc_step. lia.
Qed.

Lemma buffered_lastN (entry : LogEntry Metadata) buffer :
  length buffer <= maxBufferSize ->
  buffered entry buffer = lastN maxBufferSize (buffer ++ [entry]).
Proof.
  intros H. unfold buffered. cbv zeta.
  destruct (maxBufferSize <? length (buffer ++ [entry])) eqn:E.
  - apply Nat.ltb_lt in E. rewrite length_app in E. simpl in E.
    unfold lastN. rewrite length_app. simpl.
    replace (length buffer + 1 - maxBufferSize) with 1 by lia.
    by destruct (buffer ++ [entry]).
  - apply Nat.ltb_ge in E. by rewrite lastN_all.
Qed.

Lemma call_level (c : Call Metadata) s : logLevel (call c s) = logLevel s.
Proof. unfold call. by destruct (shouldLog _ _). Qed.

Lemma calls_level (cs : list (Call Metadata)) : forall s,
  logLevel (calls cs s) = logLevel s.
Proof.
  unfold calls. induction cs as [|c cs IH]; intros s; [done|].
  simpl. by rewrite IH, call_level.
Qed.

(** X25: the buffer of the logger holds the last 1000 entries: after any
    sequence of calls of [info], [success], [warning], [error] and
    [debug], it is made of the last 1000 of the entries it held followed
    by the entries of the calls that the level lets through, in order, and
    it never holds more than 1000 entries. *)
Theorem logBuffer_holds_latest (cs : list (Call Metadata)) s :
  length (logBuffer s) <= maxBufferSize ->
  logBuffer (calls cs s)
  = lastN maxBufferSize
      (logBuffer s
       ++ map createLogEntry
            (List.filter (fun c => shouldLog s (methodLevel (method c))) cs))
  /\ length (logBuffer (calls cs s)) <= maxBufferSize
  /\ logLevel (calls cs s) = logLevel s.
Proof.
  intros Hlen.
  assert (H : logBuffer (calls cs s)
              = lastN maxBufferSize
                  (logBuffer s
                   ++ map createLogEntry
                        (List.filter
                           (fun c => shouldLog s (methodLevel (method c)))
                           cs))).
  { unfold calls. induction cs as [|c cs IH] using rev_ind.
    - simpl. rewrite app_nil_r. by rewrite lastN_all.
    - rewrite fold_left_app, List.filter_app, map_app. cbn [fold_left].
      pose proof (calls_level cs s) as Hl. unfold calls in Hl.
      unfold call.
      assert (Hs : shouldLog (fold_left (fun s c => call c s) cs s)
                     (methodLevel (method c))
                   = shouldLog s (methodLevel (method c)))
        by (unfold shouldLog; by rewrite Hl).
      unfold call in Hs. rewrite Hs. cbn [List.filter].
      destruct (shouldLog s (methodLevel (method c))).
      + cbn [writeLog logBuffer map].
        unfold call in IH. rewrite buffered_lastN, IH.
        * rewrite lastN_snoc by (unfold maxBufferSize; lia).
          by rewrite <- app_assoc.
        * rewrite IH. apply lastN_length.
      + simpl. by rewrite app_nil_r. }
  split; [done|]. split; [|apply calls_level].
  rewrite H. apply lastN_length.
Qed.

End LoggerProperties.

Lemma logBuffer_holds_latest_witness :
  let suppressed : Logger.Call unit :=
    {| Logger.method := Logger.MDebug; Logger.callTime := str "t1";
       Logger.callMessage := str "scanning"; Logger.callContext := None;
       Logger.callMetadata := None |} in
  let kept : Logger.Call unit :=
    {| Logger.method := Logger.MError; Logger.callTime := str "t2";
       Logger.callMessage := str "failed"; Logger.callContext := None;
       Logger.callMetadata := None |} in
  length (Logger.logBuffer (Logger.initial unit)) <= Logger.maxBufferSize
  /\ Logger.logBuffer (Logger.calls [suppressed; kept] (Logger.initial unit))
     = [Logger.createLogEntry kept].
Proof.
  intros suppressed kept.
  assert (H : length (Logger.logBuffer (Logger.initial unit))
              <= Logger.maxBufferSize)
    by (unfold Logger.maxBufferSize; simpl; lia).
  split; [exact H|].
  exact (proj1 (logBuffer_holds_latest unit [suppressed; kept]
                  (Logger.initial unit) H)).
Defined.

(** * Properties of the summary of the extraction *)

Section SummaryProperties.
Import Summary Notions.

Lemma own_assign n name v tys :
  own n (assign name v tys) = if eqs name n then Some v else own n tys.
Proof.
  induction tys as [|[n0 v0] tys IH]; simpl.
  - done.
  - destruct (eqs n0 name) eqn:E; simpl.
    + apply eqs_true in E. subst n0. by destruct (eqs name n).
    + rewrite IH. destruct (eqs n0 n) eqn:E'; [|done].
      apply eqs_true in E'. subst n0.
      destruct (eqs name n) eqn:E2; [|done].
      apply eqs_true in E2. subst. by rewrite eqs_refl in E.
Qed.

(** The count of a name that objects do not inherit, as a number. *)
Lemma numberOf_bump name ty tys :
  existsb (eqs name) inheritedNames = false ->
  numberOf name (bump ty tys)
  = (fun z => z + (if eqs ty name then 1 else 0))%Z <$> numberOf name tys.
Proof.
  intros Hname. unfold numberOf, bump.
  destruct (eqs ty name) eqn:E.
  - apply eqs_true in E. subst ty. rewrite Hname.
    destruct (own name tys) as [[k|]|] eqn:Eo;
      rewrite own_assign, eqs_refl; simpl; [|done|done].
    f_equal. lia.
  - assert (Hother : forall v, own name (assign ty v tys) = own name tys)
      by (intros v; by rewrite own_assign, E).
    destruct (own ty tys) as [[k|]|]; rewrite ?Hother.
    + destruct (own name tys) as [[n|]|]; simpl; try done. f_equal. lia.
    + destruct (own name tys) as [[n|]|]; simpl; try done. f_equal. lia.
    + destruct (existsb (eqs ty) inheritedNames);
        [destruct (eqs ty (str "__proto__"))|]; rewrite ?Hother;
        destruct (own name tys) as [[n|]|]; simpl; try done; f_equal; lia.
Qed.

Lemma countsOf_addItem n name ty serviceMap :
  countsOf n (addItem name ty serviceMap)
  = if eqs name n
    then fed (countsOf n serviceMap)
           [{| key := []; text := []; type := ty; file := []; line := 0;
               context := None; priority := None; category := None |}]
    else countsOf n serviceMap.
Proof.
  unfold countsOf, fed.
  induction serviceMap as [|[n0 c0] serviceMap IH]; cbn [addItem find].
  - cbn [fst snd]. by destruct (eqs name n).
  - destruct (eqs n0 name) eqn:E; cbn [find fst snd].
    + apply eqs_true in E. subst n0. by destruct (eqs name n).
    + destruct (eqs n0 n) eqn:E'; [|exact IH].
      apply eqs_true in E'. subst n0.
      destruct (eqs name n) eqn:E2; [|done].
      apply eqs_true in E2. subst. by rewrite eqs_refl in E.
Qed.

Lemma countsOf_fold strings : forall serviceMap n,
  countsOf n
    (fold_left
       (fun serviceMap item =>
          addItem (Generator.firstSegment (file item)) (type item) serviceMap)
       strings serviceMap)
  = fed (countsOf n serviceMap) (inService n strings).
Proof.
  induction strings as [|item strings IH]; intros serviceMap n; [done|].
  cbn [fold_left]. rewrite IH, countsOf_addItem. unfold inService.
  cbn [List.filter]. by destruct (eqs _ n).
Qed.

Lemma fed_total items : forall c0,
  Summary.total <$> fed c0 items
  = match items with
    | [] => Summary.total <$> c0
    | _ => Some (match c0 with Some c => Summary.total c | None => 0 end
                 + length items)
    end.
Proof.
  unfold fed. induction items as [|item items IH]; intros c0; [done|].
  cbn [fold_left]. rewrite IH. destruct items as [|item' items].
  - simpl. destruct c0; simpl; f_equal; lia.
  - destruct c0; simpl; f_equal; lia.
Qed.

Lemma fed_number name items :
  existsb (eqs name) inheritedNames = false ->
  forall c0,
    match fed c0 items with
    | Some c => numberOf name (Summary.types c)
    | None => Some 0%Z
    end
    = (fun z => z + Z.of_nat (ofType name items))%Z
      <$> match c0 with
          | Some c => numberOf name (Summary.types c)
          | None => Some 0%Z
          end.
Proof.
  intros Hname. unfold fed, ofType.
  induction items as [|item items IH]; intros c0.
  - simpl. destruct c0 as [c|]; simpl.
    + destruct (numberOf name (Summary.types c)); simpl; [|done].
      f_equal. lia.
    + done.
  - cbn [fold_left List.filter]. rewrite IH. cbn [Summary.types].
    destruct c0 as [c|]; cbn [Summary.types]; rewrite numberOf_bump by done.
    + destruct (numberOf name (Summary.types c)); simpl; [|done].
      f_equal. destruct (eqs (type item) name); simpl length; lia.
    + change (numberOf name []) with (Some 0%Z). simpl fmap.
      f_equal. destruct (eqs (type item) name); simpl length; lia.
Qed.

Lemma countsOf_elem n c serviceMap :
  NoDup (map fst serviceMap) -> (n, c) ∈ serviceMap ->
  countsOf n serviceMap = Some c.
Proof.
  unfold countsOf.
  induction serviceMap as [|[n0 c0] serviceMap IH]; intros Hnd Hin.
  - by apply elem_of_nil in Hin.
  - simpl in *. apply NoDup_cons in Hnd as [Hn0 Hnd].
    apply elem_of_cons in Hin as [[= -> ->]|Hin].
    + by rewrite eqs_refl.
    + destruct (eqs n0 n) eqn:E; [|by apply IH].
      apply eqs_true in E. subst n0. exfalso. apply Hn0.
      apply list_elem_of_fmap. by exists (n, c).
Qed.

Lemma addItem_names name ty serviceMap :
  map fst (addItem name ty serviceMap)
  = if decide (name ∈ map fst serviceMap) then map fst serviceMap
    else map fst serviceMap ++ [name].
Proof.
  induction serviceMap as [|[n0 c0] serviceMap IH]; [done|].
  cbn [addItem]. destruct (eqs n0 name) eqn:E.
  - apply eqs_true in E. subst n0. simpl.
    rewrite decide_True; [done|]. apply elem_of_cons. by left.
  - cbn [map fst]. rewrite IH.
    assert (n0 <> name) by (intros ->; by rewrite eqs_refl in E).
    destruct (decide (name ∈ map fst serviceMap)) as [Hin|Hin].
    + rewrite decide_True; [done|]. apply elem_of_cons. by right.
    + rewrite decide_False; [done|]. intros Hin'.
      apply elem_of_cons in Hin' as [->|Hin']; done.
Qed.

Lemma summary_invariants strings : forall serviceMap,
  NoDup (map fst serviceMap) ->
  let final :=
    fold_left
      (fun serviceMap item =>
         addItem (Generator.firstSegment (file item)) (type item) serviceMap)
      strings serviceMap in
  NoDup (map fst final)
  /\ list_sum (map (fun e => Summary.total (snd e)) final)
     = list_sum (map (fun e => Summary.total (snd e)) serviceMap)
       + length strings.
Proof.
  induction strings as [|item strings IH]; intros serviceMap Hnd; simpl.
  { split; [done|lia]. }
  set (name := Generator.firstSegment (file item)).
  destruct (IH (addItem name (type item) serviceMap)) as (H1 & H2).
  - rewrite addItem_names. destruct (decide _); [done|].
    apply NoDup_app. split; [done|]. split; [|apply NoDup_singleton].
    intros x Hx Hx'. apply list_elem_of_singleton in Hx'. by subst.
  - split; [done|]. rewrite H2.
    clear. induction serviceMap as [|[n0 c0] serviceMap IHs]; simpl; [done|].
    destruct (eqs n0 name); simpl; lia.
Qed.

Lemma filters_disjoint {A} (f g : A -> bool) l :
  (forall x, f x = true -> g x = false) ->
  length (List.filter f l) + length (List.filter g l) <= length l.
Proof.
  intros H. induction l as [|x l IH]; [done|].
  simpl. destruct (f x) eqn:E.
  - rewrite (H x E). simpl. lia.
  - destruct (g x); simpl; lia.
Qed.

(** X26: the table that closes [extract] has one row for each first segment
    of the paths of the dataset; in a row, the total is the number of
    entries under that segment (at least one), the exception keys and the
    template keys are the numbers of these entries of the types
    [EXCEPTION] and [TEMPLATE_LITERAL], and the other keys are the rest;
    the totals of the rows add up to the size of the dataset. *)
Theorem summary_rows strings :
  NoDup (map service (Summary.groupByService strings))
  /\ list_sum (map Summary.totalKeys (Summary.groupByService strings))
     = length strings
  /\ forall row, row ∈ Summary.groupByService strings ->
       let items := inService (service row) strings in
       let exceptions := ofType (str "EXCEPTION") items in
       let templates := ofType (str "TEMPLATE_LITERAL") items in
       0 < Summary.totalKeys row
       /\ Summary.totalKeys row = length items
       /\ exceptionKeys row = Some (Z.of_nat exceptions)
       /\ templateKeys row = Some (Z.of_nat templates)
       /\ exceptions + templates <= length items
       /\ otherKeys row
          = Some (Z.of_nat (length items - exceptions - templates)).
Proof.
  destruct (summary_invariants strings [] NoDup_nil_2) as [Hnd Hsum].
  unfold Summary.groupByService. split; [|split].
  - by rewrite map_map.
  - rewrite map_map. exact Hsum.
  - intros row Hrow. apply list_elem_of_fmap in Hrow as ([n c] & -> & Hin).
    change (service (rowOf (n, c))) with n. cbv zeta.
    set (items := inService n strings).
    set (exceptions := ofType (str "EXCEPTION") items).
    set (templates := ofType (str "TEMPLATE_LITERAL") items).
    pose proof (countsOf_elem n c _ Hnd Hin) as Hc.
    rewrite countsOf_fold in Hc. fold items in Hc.
    change (countsOf n []) with (@None Counts) in Hc.
    pose proof (fed_total items None) as Ht. rewrite Hc in Ht.
    assert (He : numberOf (str "EXCEPTION") (Summary.types c)
                 = Some (Z.of_nat exceptions)).
    { pose proof (fed_number (str "EXCEPTION") items eq_refl None) as H.
      rewrite Hc in H. exact H. }
    assert (Hl : numberOf (str "TEMPLATE_LITERAL") (Summary.types c)
                 = Some (Z.of_nat templates)).
    { pose proof (fed_number (str "TEMPLATE_LITERAL") items eq_refl None)
        as H.
      rewrite Hc in H. exact H. }
    assert (Hd : exceptions + templates <= length items).
    { apply filters_disjoint. intros x Hx. apply eqs_true in Hx.
      rewrite Hx. reflexivity. }
    unfold rowOf. cbn [Summary.totalKeys exceptionKeys templateKeys
                         otherKeys snd].
    rewrite He, Hl.
    destruct items as [|item items'] eqn:Ei.
    { exfalso. simpl in Hc. discriminate Hc. }
    simpl in Ht. injection Ht as Ht. rewrite Ht.
    split; [simpl; lia|]. split; [done|]. split; [done|]. split; [done|].
    split; [done|]. f_equal. simpl length in *. lia.
Qed.

End SummaryProperties.

(** * Properties of the configuration *)

Section ConfigProperties.
Import Config.

Lemma min_idempotent a b : min (min a b) b = min a b.
Proof.
  destruct a as [|x], b as [|y]; simpl; try done.
  f_equal. lia.
Qed.

(** X27: the overrides of the environment: applying them twice is applying
    them once; they never turn off the validation of the inputs or the
    sanitization of the outputs; in production both are on, the level of
    the log is [warn] and a concurrency that is a number is at most 8 and
    not above the configured one; an environment other than [production]
    and [staging] leaves the configuration as it is. *)
Theorem getEnvironmentConfig_overrides config :
  getEnvironmentConfig (getEnvironmentConfig config)
  = getEnvironmentConfig config
  /\ (validateInputs (security config) = true ->
      validateInputs (security (getEnvironmentConfig config)) = true)
  /\ (sanitizeOutputs (security config) = true ->
      sanitizeOutputs (security (getEnvironmentConfig config)) = true)
  /\ (environment config = str "production" ->
      validateInputs (security (getEnvironmentConfig config)) = true
      /\ sanitizeOutputs (security (getEnvironmentConfig config)) = true
      /\ level (logging (getEnvironmentConfig config)) = str "warn"
      /\ forall z,
           maxConcurrency (performance (getEnvironmentConfig config)) = Int z ->
           (z <= 8)%Z
           /\ exists z0, maxConcurrency (performance config) = Int z0
                         /\ (z <= z0)%Z)
  /\ (environment config <> str "production" ->
      environment config <> str "staging" ->
      getEnvironmentConfig config = config).
Proof.
  unfold getEnvironmentConfig.
  destruct (eqs (environment config) (str "production")) eqn:Ep.
  - cbn [environment]. rewrite Ep. cbn. rewrite min_idempotent.
    split; [done|]. split; [done|]. split; [done|]. split.
    + intros _. split; [done|]. split; [done|]. split; [done|].
      intros z Hz. destruct (maxConcurrency (performance config)) as [|z0];
        [done|]. simpl in Hz. injection Hz as <-. split; [lia|].
      exists z0. split; [done|lia].
    + intros Hne. apply eqs_true in Ep. done.
  - destruct (eqs (environment config) (str "staging")) eqn:Es.
    + cbn [environment]. rewrite Ep, Es. cbn.
      split; [done|]. split; [done|]. split; [done|]. split.
      * intros E. rewrite E in Ep. by rewrite eqs_refl in Ep.
      * intros _ Hne. by apply eqs_true in Es.
    + rewrite Ep, Es. split; [done|]. split; [done|]. split; [done|]. split.
      * intros E. rewrite E in Ep. by rewrite eqs_refl in Ep.
      * done.
Qed.

Lemma getEnvironmentConfig_overrides_witness :
  let config :=
    {| version := str "1.0.0"; environment := str "production";
       logging := {| level := str "debug"; format := str "text";
                     output := str "console"; filePath := None |};
       performance := {| maxConcurrency := Int 16; maxFileSize := Int 10;
                         timeout := Int 300 |};
       security := {| validateInputs := false; sanitizeOutputs := false;
                      maxKeyLength := Int 200 |};
       features := {| enableValidation := true; enableBackup := true;
                      enableDryRun := true; enableProgressBar := true |} |} in
  environment config = str "production"
  /\ sanitizeOutputs (security (getEnvironmentConfig config)) = true.
Proof.
  intros config.
  assert (H : environment config = str "production") by reflexivity.
  split; [exact H|].
  destruct (getEnvironmentConfig_overrides config)
    as (_ & _ & _ & Hprod & _).
  exact (proj1 (proj2 (Hprod H))).
Defined.

Lemma outside_false lo hi n :
  outside lo hi n = false
  <-> n = NaN \/ exists z, n = Int z /\ (lo <= z <= hi)%Z.
Proof.
  unfold outside, gt, lt. destruct n as [|z].
  - split; [by left|done].
  - rewrite orb_false_iff, !Z.ltb_ge. split.
    + intros [? ?]. right. exists z. split; [done|lia].
    + intros [?|(z' & [= <-] & ?)]; [done|lia].
Qed.

(** X28: [validateConfig] accepts a configuration exactly when the version
    is not empty, the environment is one of the three known ones and each
    of the four numbers is within its range or is [NaN]: a number that
    could not be parsed passes the check.  A configuration that is accepted
    is still accepted after the overrides of its environment. *)
Theorem validateConfig_verdict config :
  (isValid config = true
   <-> version config <> []
       /\ environment config
          ∈ [str "development"; str "staging"; str "production"]
       /\ outside 1 20 (maxConcurrency (performance config)) = false
       /\ outside 1 100 (maxFileSize (performance config)) = false
       /\ outside 30 3600 (timeout (performance config)) = false
       /\ outside 10 500 (maxKeyLength (security config)) = false)
  /\ (forall lo hi, outside lo hi NaN = false)
  /\ (isValid config = true ->
      isValid (getEnvironmentConfig config) = true).
Proof.
  assert (H : forall c, isValid c = true
              <-> version c <> []
                  /\ environment c
                     ∈ [str "development"; str "staging"; str "production"]
                  /\ outside 1 20 (maxConcurrency (performance c)) = false
                  /\ outside 1 100 (maxFileSize (performance c)) = false
                  /\ outside 30 3600 (timeout (performance c)) = false
                  /\ outside 10 500 (maxKeyLength (security c)) = false).
  { intros c. unfold isValid, validateConfig. rewrite Nat.eqb_eq.
    assert (He : existsb (eqs (environment c))
                   [str "development"; str "staging"; str "production"]
                 = true
                 <-> environment c
                     ∈ [str "development"; str "staging"; str "production"]).
    { rewrite existsb_exists. split.
      - intros (x & Hx & E). apply eqs_true in E. subst x.
        by apply list_elem_of_In.
      - intros Hin. eexists. split; [by apply list_elem_of_In|].
        apply eqs_refl. }
    split.
    - intros Hl.
      destruct (version c) eqn:Ev; [done|].
      destruct (existsb _ _) eqn:Ee; [|done].
      destruct (outside 1 20 _); [done|].
      destruct (outside 1 100 _); [done|].
      destruct (outside 30 3600 _); [done|].
      destruct (outside 10 500 _); [done|].
      split; [done|]. split; [by apply He|done].
    - intros (Hv & Hin & -> & -> & -> & ->).
      apply He in Hin. rewrite Hin.
      by destruct (version c). }
  split; [apply H|]. split; [done|].
  intros Hvalid. apply H in Hvalid as (Hv & Hin & Hc & Hf & Ht & Hk).
  apply H. unfold getEnvironmentConfig.
  destruct (eqs (environment config) (str "production")) eqn:Ep;
    [|destruct (eqs (environment config) (str "staging"))]; cbn;
    repeat split; try done.
  apply outside_false in Hc as [->|(z & -> & Hz)]; [done|].
  apply outside_false. right. exists (Z.min z 8). split; [done|lia].
Qed.

End ConfigProperties.

(** * The comment attached to an entry *)

Section NearbyComment.
Import Extractor.

Lemma includes_nonempty s x p : includes s (x :: p) = true -> s <> [].
Proof. by destruct s. Qed.

Lemma findNearbyFrom_spec comments n : forall i,
  match findNearbyFrom comments i n with
  | Some r =>
      exists j c,
        i <= j < i + n
        /\ c ∈ comments
        /\ includes c (str "line " ++ decimal j) = true
        /\ find (fun c => includes c (str "line " ++ decimal j)) comments
           = Some c
        /\ r = trim (replaceAll commentMarkers (fun _ => []) c)
        /\ forall k c', i <= k < j -> c' ∈ comments ->
             includes c' (str "line " ++ decimal k) = false
  | None =>
      forall k c', i <= k < i + n -> c' ∈ comments ->
        includes c' (str "line " ++ decimal k) = false
  end.
Proof.
  induction n as [|n IH]; intros i; cbn [findNearbyFrom].
  - intros k c' Hk. lia.
  - destruct (find _ comments) as [c|] eqn:Hf.
    + pose proof (find_some _ _ Hf) as [Hin Hinc].
      destruct c as [|x c]; [done|].
      exists i, (x :: c). split; [lia|]. split; [by apply list_elem_of_In|].
      split; [done|]. split; [done|]. split; [done|].
      intros k c' Hk. lia.
    + assert (Hnone : forall c', c' ∈ comments ->
                includes c' (str "line " ++ decimal i) = false).
      { intros c' Hc'. apply list_elem_of_In in Hc'.
        exact (find_none _ _ Hf _ Hc'). }
      specialize (IH (S i)). destruct (findNearbyFrom comments (S i) n).
      * destruct IH as (j & c & Hj & Hin & Hinc & Hfind & Hr & Hmin).
        exists j, c. split; [lia|]. do 4 (split; [done|]).
        intros k c' Hk Hc'. destruct (decide (k = i)) as [->|Hne].
        -- by apply Hnone.
        -- apply Hmin; [lia|done].
      * intros k c' Hk Hc'. destruct (decide (k = i)) as [->|Hne].
        -- by apply Hnone.
        -- apply IH; [lia|done].
Qed.

(** X29: the comment attached to an entry of line [line] is not chosen by
    where the comment stands: it is the first comment of the list whose
    text contains the words [line j], for the least [j] between
    [line - 5] (0 at least) and [line + 5] for which there is one, with its
    comment markers removed and trimmed; there is none exactly when no
    comment contains [line j] for any such [j]. *)
Theorem findNearbyComment_window comments line :
  match findNearbyComment comments line with
  | Some r =>
      exists j c,
        line - 5 <= j <= line + 5
        /\ c ∈ comments
        /\ find (fun c => includes c (str "line " ++ decimal j)) comments
           = Some c
        /\ r = trim (replaceAll commentMarkers (fun _ => []) c)
        /\ forall k c', line - 5 <= k < j -> c' ∈ comments ->
             includes c' (str "line " ++ decimal k) = false
  | None =>
      forall k c', line - 5 <= k <= line + 5 -> c' ∈ comments ->
        includes c' (str "line " ++ decimal k) = false
  end.
Proof.
  unfold findNearbyComment.
  pose proof (findNearbyFrom_spec comments
                (line + 5 + 1 - (line - 5)) (line - 5)) as H.
  destruct (findNearbyFrom _ _ _).
  - destruct H as (j & c & Hj & Hin & _ & Hfind & Hr & Hmin).
    exists j, c. split; [lia|]. done.
  - intros k c' Hk. apply H. lia.
Qed.

End NearbyComment.
